(* ===================================================================== *)
(* blazer: the low-level B2 client (base/base.go) and the chunked        *)
(* download reader (package b2), embedded in Rocq.                       *)
(*                                                                       *)
(*  Module Go    - signed 64-bit arithmetic as Go computes it            *)
(*  Module Base  - base.go: b2err, Action, Backoff, LargeFile,           *)
(*                 UploadPart, FinishLargeFile                           *)
(*  Module B2    - the Reader: initFunc, thread, curChunk, Read as a     *)
(*                 labelled transition system over goroutine states      *)
(*                                                                       *)
(* Go's int is taken to be 64 bits wide (amd64/arm64), so int and int64  *)
(* share one wrap-around.                                                *)
(* ===================================================================== *)

From stdpp Require Import gmap strings list fin_maps fin_sets list_numbers pretty.
From Stdlib Require Import ZArith Lia.
From Stdlib.Strings Require Import Byte.

Open Scope Z_scope.

(* --------------------------------------------------------------------- *)
(* Go integers                                                           *)
(* --------------------------------------------------------------------- *)
Module Go.

Definition min_int64 : Z := - 2 ^ 63.
Definition max_int64 : Z := 2 ^ 63 - 1.

(* two's complement wrap-around of a signed 64-bit result *)
Definition wrap64 (z : Z) : Z := (z + 2 ^ 63) mod 2 ^ 64 - 2 ^ 63.

Definition is_int64 (z : Z) : Prop := min_int64 <= z <= max_int64.

End Go.

(* --------------------------------------------------------------------- *)
(* base/base.go                                                          *)
(* --------------------------------------------------------------------- *)
Module Base.
Import Go.

(* type b2err struct { msg, method string; retry, code int } *)
Record b2err := mk_b2err {
  msg : string;
  method : string;
  retry : Z;
  code : Z;
}.

(* The values an [error] interface holds in this program: a b2err built by
   mkErr, io.EOF, the context's error after cancellation, or any other
   transport or decoding error.  The nil interface is [None] of
   [option error]. *)
Inductive error :=
| ErrB2 (e : b2err)
| ErrEOF
| ErrCanceled
| ErrOther (descr : string).

#[global] Instance b2err_eq_dec : EqDecision b2err.
Proof. solve_decision. Defined.
#[global] Instance error_eq_dec : EqDecision error.
Proof. solve_decision. Defined.

(* type ErrAction int, with its four constants in iota order *)
Inductive ErrAction := ReAuthenticate | AttemptNewUpload | Retry | Punt.

#[global] Instance ErrAction_eq_dec : EqDecision ErrAction.
Proof. solve_decision. Defined.

(* func Action(err error) ErrAction *)
Definition Action (err : option error) : ErrAction :=
  match err with
  | Some (ErrB2 e) =>
      if bool_decide (retry e > 0) then Retry
      else if bool_decide (code e >= 500) && bool_decide (code e < 600)
              && (bool_decide (method e = "b2_upload_file")
                  || bool_decide (method e = "b2_upload_part"))
      then AttemptNewUpload
      else if bool_decide (code e = 401) then
        if bool_decide (method e = "b2_authorize_account") then Punt
        else ReAuthenticate
      else if bool_decide (code e = 429) || bool_decide (code e = 500)
              || bool_decide (code e = 503)
      then Retry
      else Punt
  | _ => Punt
  end.

(* time.Second, in nanoseconds; a time.Duration is an int64 count of them *)
Definition Second : Z := 1000000000.

(* func Backoff(err error) time.Duration *)
Definition Backoff (err : option error) : Z :=
  match err with
  | Some (ErrB2 e) => wrap64 (retry e * Second)
  | _ => 0
  end.

(* The classifier as the specification words it: an action and a wait. *)
Definition is_upload (m : string) : bool :=
  bool_decide (m = "b2_upload_file") || bool_decide (m = "b2_upload_part").

Definition is_5xx (c : Z) : bool :=
  bool_decide (500 <= c) && bool_decide (c <= 599).

(* rule 3 and rule 4 of the classifier, once rules 1 and 2 did not fire *)
Definition by_status (e : b2err) : ErrAction :=
  if bool_decide (code e = 401) then
    if bool_decide (method e = "b2_authorize_account") then Punt
    else ReAuthenticate
  else if bool_decide (code e ∈ [429; 500; 503]) then Retry
  else Punt.

(* The rules with "retry-after is non-zero" as the first test, and a zero
   wait on the status-code retries. *)
Definition classify_nonzero (err : option error) : ErrAction * Z :=
  match err with
  | Some (ErrB2 e) =>
      if bool_decide (retry e ≠ 0) then (Retry, retry e * Second)
      else if is_5xx (code e) && is_upload (method e)
      then (AttemptNewUpload, 0)
      else (by_status e, 0)
  | _ => (Punt, 0)
  end.

(* The rules with "retry-after is positive" as the first test; the wait
   is the retry-after in seconds as an int64 count of nanoseconds, on
   every branch. *)
Definition classify_positive (err : option error) : ErrAction * Z :=
  match err with
  | Some (ErrB2 e) =>
      let wait := wrap64 (retry e * Second) in
      if bool_decide (0 < retry e) then (Retry, wait)
      else if is_5xx (code e) && is_upload (method e)
      then (AttemptNewUpload, wait)
      else (by_status e, wait)
  | _ => (Punt, 0)
  end.

(* type File struct { Name; Size int64; Status; id; b2 } *)
Record File := mk_File {
  Name : string;
  Size : Z;
  Status : string;
  file_id : string;
}.

(* type LargeFile struct { id; b2; mu sync.Mutex; size int64;
   hashes map[int]string }.  [mu] is true while the mutex is held.  The
   fields id and size are [lf_id] and [lf_size] here, since [id] and [size]
   are functions of the libraries. *)
Record LargeFile := mk_LargeFile {
  lf_id : string;
  mu : bool;
  lf_size : Z;
  hashes : gmap Z string;
}.

(* What a goroutine does to a LargeFile, one memory or mutex operation at a
   time. *)
Inductive op :=
| OpLock                                   (* l.mu.Lock() *)
| OpUnlock                                 (* l.mu.Unlock() *)
| OpStoreHash (index : Z) (sha1 : string)  (* l.hashes[index] = sha1 *)
| OpAddSize (n : Z).                       (* l.size += n *)

(* One operation on the shared LargeFile.  Lock on a held mutex does not
   proceed (None); Unlock of a free mutex is a run-time fault (None). *)
Definition run_op (o : op) (l : LargeFile) : option LargeFile :=
  match o with
  | OpLock =>
      if mu l then None
      else Some (mk_LargeFile (lf_id l) true (lf_size l) (hashes l))
  | OpUnlock =>
      if mu l then Some (mk_LargeFile (lf_id l) false (lf_size l) (hashes l))
      else None
  | OpStoreHash index sha1 =>
      Some (mk_LargeFile (lf_id l) (mu l) (lf_size l) (<[index := sha1]> (hashes l)))
  | OpAddSize n =>
      Some (mk_LargeFile (lf_id l) (mu l) (wrap64 (lf_size l + n)) (hashes l))
  end.

Fixpoint run_ops (os : list op) (l : LargeFile) : option LargeFile :=
  match os with
  | [] => Some l
  | o :: os' =>
      match run_op o l with
      | Some l' => run_ops os' l'
      | None => None
      end
  end.

Definition is_write (o : op) : bool :=
  match o with
  | OpStoreHash _ _ | OpAddSize _ => true
  | _ => false
  end.

(* Every write of the sequence happens between a Lock and the matching
   Unlock of the same sequence; [held] says whether the sequence holds the
   mutex at its start. *)
Fixpoint writes_locked (held : bool) (os : list op) : bool :=
  match os with
  | [] => true
  | OpLock :: os' => negb held && writes_locked true os'
  | OpUnlock :: os' => held && writes_locked false os'
  | _ :: os' => held && writes_locked held os'
  end.

(* The statements of UploadPart after a successful makeRequest. *)
Definition UploadPart_record (sha1 : string) (size index : Z) : list op :=
  [OpLock; OpStoreHash index sha1; OpAddSize size; OpUnlock].

(* func (fc *FileChunk) UploadPart(ctx, r, sha1, size, index) (int, error)

   [reply] is what makeRequest returned for the b2_upload_part request
   (None is nil).  The operations performed on fc.file come first in the
   result, then the two return values. *)
Definition UploadPart (reply : option error) (sha1 : string) (size index : Z)
    : list op * (Z * option error) :=
  match reply with
  | Some err => ([], (0, Some err))
  | None => (UploadPart_record sha1 size index, (size, None))
  end.

(* UploadPart run on a LargeFile whose mutex is free. *)
Definition UploadPart_run (reply : option error) (sha1 : string)
    (size index : Z) (l : LargeFile) : option LargeFile * (Z * option error) :=
  let '(os, ret) := UploadPart reply sha1 size index in
  (run_ops os l, ret).

(* type b2FinishLargeFileRequest struct { ID string; Hashes []string } *)
Record b2FinishLargeFileRequest := mk_FinishReq {
  req_ID : string;
  req_Hashes : list string;
}.

(* type b2FinishLargeFileResponse struct { Name, FileID string } *)
Record b2FinishLargeFileResponse := mk_FinishResp {
  resp_Name : string;
  resp_FileID : string;
}.

(* A Go function either returns or panics. *)
Inductive outcome (A : Type) :=
| Returned (a : A)
| Panicked (reason : string).
Arguments Returned {A} a.
Arguments Panicked {A} reason.

(* s[i] = v on a Go slice: a run-time panic unless 0 <= i < len(s). *)
Definition slice_store (s : list string) (i : Z) (v : string)
    : option (list string) :=
  if bool_decide (0 <= i < Z.of_nat (length s))
  then Some (<[Z.to_nat i := v]> s)
  else None.

(* for k, v := range l.hashes { b2req.Hashes[k-1] = v }
   over the entries in the order the map iteration yields them;
   None once a store has panicked. *)
Fixpoint fill_hashes (entries : list (Z * string)) (s : list string)
    : option (list string) :=
  match entries with
  | [] => Some s
  | (k, v) :: rest =>
      match slice_store s (k - 1) v with
      | Some s' => fill_hashes rest s'
      | None => None
      end
  end.

(* func (l *LargeFile) FinishLargeFile(ctx), returning a File pointer and
   an error

   [net] is the remote end of makeRequest for b2_finish_large_file: the
   error or the decoded response for a request.  [entries] is the order in
   which range yields the map's entries.  The result carries the requests
   handed to makeRequest and the function's outcome.  The mutex is taken
   on entry and released by the deferred Unlock on every exit, a panic
   included, so the LargeFile is the same before and after. *)
Definition FinishLargeFile
    (net : b2FinishLargeFileRequest -> error + b2FinishLargeFileResponse)
    (entries : list (Z * string)) (l : LargeFile)
    : list b2FinishLargeFileRequest * outcome (option File * option error) :=
  let Hashes := replicate (size (hashes l)) EmptyString in
  match fill_hashes entries Hashes with
  | None => ([], Panicked "runtime error: index out of range")
  | Some Hashes' =>
      let b2req := mk_FinishReq (lf_id l) Hashes' in
      match net b2req with
      | inl err => ([b2req], Returned (None, Some err))
      | inr b2resp =>
          ([b2req],
           Returned (Some (mk_File (resp_Name b2resp) (lf_size l) EmptyString
                             (resp_FileID b2resp)), None))
      end
  end.

(* The part numbers recorded are exactly 1..K, K the number of entries. *)
Definition dense (m : gmap Z string) : Prop :=
  forall p : Z, is_Some (m !! p) <-> 1 <= p <= Z.of_nat (size m).

(* The manifest as the specification has it: as many digests as recorded
   parts, the digest of part number p at position p - 1. *)
Definition manifest (m : gmap Z string) : list string :=
  (fun p : Z => default EmptyString (m !! p)) <$> seqZ 1 (Z.of_nat (size m)).

(* FinishLargeFile failed by returning an error to its caller. *)
Definition returns_error (o : outcome (option File * option error)) : Prop :=
  exists err : error, o = Returned (None, Some err).

(* The state after two successive UploadPart calls for one part number, as
   "the running total changes by the delta" has it: the first call adds s1,
   the second adds s2 - s1. *)
Definition size_after_delta (size0 s1 s2 : Z) : Z :=
  wrap64 (wrap64 (size0 + s1) + (s2 - s1)).

(* ---- HTTP requests and replies ---- *)

(* fmt.Sprintf("%d", n) *)
Definition fmt_d (n : Z) : string := pretty n.

(* func mkRange(offset, size int64) string *)
Definition mkRange (offset size : Z) : string :=
  if bool_decide (offset = 0) && bool_decide (size = 0) then ""
  else if bool_decide (size = 0) then "bytes=" +:+ fmt_d offset +:+ "-"
  else "bytes=" +:+ fmt_d offset +:+ "-"
       +:+ fmt_d (wrap64 (wrap64 (offset + size) - 1)).

(* http.Header, a map from canonical keys to their values.  Set and Get
   put the key in canonical form first, by
   textproto.CanonicalMIMEHeaderKey, which is [canon] here. *)
Abbreviation Header := (gmap string (list string)).

Definition Header_Set (canon : string -> string) (k v : string) (h : Header)
    : Header :=
  <[canon k := [v]]> h.

Definition Header_Get (canon : string -> string) (k : string) (h : Header)
    : string :=
  match h !! canon k with
  | Some (v :: _) => v
  | _ => ""
  end.

(* http.Request, as far as this package sets it *)
Record Request := mk_Request {
  rq_verb : string;
  rq_url : string;
  rq_body : option (list Byte.byte);
  rq_Header : Header;
}.

(* http.Response, as far as this package reads it.  [rs_Body] is what
   reading resp.Body to its end gives: an error or the bytes. *)
Record Response := mk_Response {
  StatusCode : Z;
  rs_Header : Header;
  rs_Body : string + list Byte.byte;
  rs_Request : Request;
}.

(* The package variables reqID and FailSomeUploads. *)
Record Globals := mk_Globals {
  reqID : Z;
  FailSomeUploads : bool;
}.

Section Http.

(* What the libraries compute, taken as given:
   textproto.CanonicalMIMEHeaderKey;
   json.Unmarshal(data, msg) into an errMsg, an error or msg.Msg;
   strconv.ParseInt(s, 10, 64), an error or the number;
   http.NewRequest(verb, url, body), its error if any. *)
Variable canon : string -> string.
Variable Unmarshal_errMsg : list Byte.byte -> string + string.
Variable ParseInt : string -> string + Z.
Variable NewRequest_error : string -> string -> option string.

(* The order in which a range loop yields the entries of a map: some
   permutation of them. *)
Variable range_map : gmap string string -> list (string * string).

(* func mkErr(resp *http.Response) error *)
Definition mkErr (resp : Response) : error :=
  match rs_Body resp with
  | inl err => ErrOther err
  | inr data =>
      match Unmarshal_errMsg data with
      | inl err => ErrOther err
      | inr msg =>
          let retry := Header_Get canon "Retry-After" (rs_Header resp) in
          let b2error retryAfter :=
            ErrB2 (mk_b2err msg
                     (Header_Get canon "X-Blazer-Method"
                        (rq_Header (rs_Request resp)))
                     retryAfter (StatusCode resp)) in
          if bool_decide (retry <> "") then
            match ParseInt retry with
            | inl err => ErrOther err
            | inr r => b2error r
            end
          else b2error 0
      end
  end.

(* The three header keys makeRequest sets itself have different canonical
   forms. *)
Definition own_keys_differ : Prop :=
  canon "X-Blazer-Request-ID" <> canon "X-Blazer-Method"
  /\ canon "X-Blazer-Request-ID" <> canon "X-Bz-Test-Mode"
  /\ canon "X-Blazer-Method" <> canon "X-Bz-Test-Mode".

(* for k, v := range headers { req.Header.Set(k, v) } *)
Definition set_headers (headers : gmap string string) (h : Header)
    : Header :=
  foldl (fun h kv => Header_Set canon kv.1 kv.2 h) h (range_map headers).

(* makeRequest up to the call of makeNetRequest: the request it has built
   and the package variables afterwards, or the error it returns before.
   [b2req] is None for a nil b2req and else what json.Marshal(b2req)
   gives. *)
Definition build_request (g : Globals) (method verb url : string)
    (b2req : option (string + list Byte.byte))
    (headers : gmap string string) (body : option (list Byte.byte))
    : error + (Globals * Request) :=
  match b2req with
  | Some (inl err) => inl (ErrOther err)
  | _ =>
      let body := match b2req with
                  | Some (inr enc) => Some enc
                  | _ => body
                  end in
      match NewRequest_error verb url with
      | Some err => inl (ErrOther err)
      | None =>
          let h := set_headers headers ∅ in
          let id := wrap64 (reqID g + 1) in
          let h := Header_Set canon "X-Blazer-Request-ID" (fmt_d id) h in
          let h := Header_Set canon "X-Blazer-Method" method h in
          let h := if FailSomeUploads g
                   then Header_Set canon "X-Bz-Test-Mode" "fail_some_uploads" h
                   else h in
          inr (mk_Globals id (FailSomeUploads g),
               mk_Request verb url body h)
      end
  end.

(* What the select on the reply channel and ctx.Done() receives: nothing
   before the context is done, or the httpReply of http.DefaultClient.Do,
   an error or the status, header and body of the response. *)
Definition network : Type :=
  Request -> option (string + (Z * Header * (string + list Byte.byte))).

(* func makeRequest(ctx, method, verb, url, b2req, b2resp, headers, body)
   error

   [b2resp] is None for a nil b2resp and else what decoder.Decode(b2resp)
   makes of the body: an error or the value stored in b2resp.  The result
   has the package variables afterwards, the request sent if one was, the
   error returned and the value in b2resp.  resp.Request is the request
   that was sent.  logRequest and logResponse only print to the logger and
   are left out. *)
Definition makeRequest {B : Type} (net : network) (g : Globals)
    (method verb url : string) (b2req : option (string + list Byte.byte))
    (b2resp : option ((string + list Byte.byte) -> string + B))
    (headers : gmap string string) (body : option (list Byte.byte))
    : Globals * option Request * (option error * option B) :=
  match build_request g method verb url b2req headers body with
  | inl err => (g, None, (Some err, None))
  | inr (g', req) =>
      match net req with
      | None => (g', Some req, (Some ErrCanceled, None))
      | Some (inl err) => (g', Some req, (Some (ErrOther err), None))
      | Some (inr (code, header, rbody)) =>
          let resp := mk_Response code header rbody req in
          if bool_decide (code <> 200)
          then (g', Some req, (Some (mkErr resp), None))
          else
            match b2resp with
            | None => (g', Some req, (None, None))
            | Some decode =>
                match decode rbody with
                | inl err => (g', Some req, (Some (ErrOther err), None))
                | inr v => (g', Some req, (None, Some v))
                end
            end
      end
  end.

End Http.

(* json.Marshal and the decoding of a reply, for the request and reply
   structs of this package *)
Class Marshal (A : Type) := json_Marshal : A -> string + list Byte.byte.
Class Decode (B : Type) := json_Decode : (string + list Byte.byte) -> string + B.

(* type B2 struct *)
Record B2 := mk_B2 {
  accountID : string;
  authToken : string;
  apiURI : string;
  downloadURI : string;
  minPartSize : Z;
}.

(* type Bucket struct { Name; id; b2 *B2 }.  The B2 a Bucket, URL, File or
   LargeFile points to is passed to the functions below as its value at
   the time of the call. *)
Record Bucket := mk_Bucket {
  bk_Name : string;
  bk_id : string;
}.

Definition apiV1 : string := "/b2api/v1/".

(* type b2CreateBucketRequest struct *)
Record b2CreateBucketRequest := mk_CreateBucketReq {
  cb_AccountID : string;
  cb_Name : string;
  cb_Type : string;
}.

Section Calls.
Variable canon : string -> string.
Variable Unmarshal_errMsg : list Byte.byte -> string + string.
Variable ParseInt : string -> string + Z.
Variable NewRequest_error : string -> string -> option string.
Variable range_map : gmap string string -> list (string * string).

(* func (b *B2) CreateBucket(ctx, name, btype string), returning a Bucket
   pointer and an error; b2CreateBucketResponse has the one field
   BucketID *)
Definition CreateBucket `{Marshal b2CreateBucketRequest} `{Decode string}
    (net : network) (g : Globals) (b : B2) (name btype : string)
    : Globals * option Request * (option Bucket * option error) :=
  let btype := if bool_decide (btype <> "allPublic") then "allPrivate"
               else btype in
  let b2req := mk_CreateBucketReq (accountID b) name btype in
  let '(g', req, (err, b2resp)) :=
    makeRequest canon Unmarshal_errMsg ParseInt NewRequest_error range_map
      net g "b2_create_bucket" "POST"
      (apiURI b +:+ apiV1 +:+ "b2_create_bucket")
      (Some (json_Marshal b2req)) (Some json_Decode)
      {["Authorization" := authToken b]} None in
  match err, b2resp with
  | Some err, _ => (g', req, (None, Some err))
  | None, Some BucketID => (g', req, (Some (mk_Bucket name BucketID), None))
  | None, None => (g', req, (Some (mk_Bucket name EmptyString), None))
  end.

(* The headers of UploadFile: the map literal, then
   for k, v := range info { headers["X-Bz-Info-"+k] = v } *)
Definition UploadFile_headers (token name contentType sha1 : string)
    (size : Z) (info : gmap string string) : gmap string string :=
  foldl (fun h kv => <[("X-Bz-Info-" +:+ kv.1) := kv.2]> h)
    (<["Authorization" := token]>
       (<["X-Bz-File-Name" := name]>
          (<["Content-Type" := contentType]>
             (<["Content-Length" := fmt_d size]>
                (<["X-Bz-Content-Sha1" := sha1]> ∅)))))
    (range_map info).

(* func (url *URL) UploadFile(ctx, r, size, name, contentType, sha1, info),
   returning a File pointer and an error; url.uri and url.token are [uri]
   and [token], [r] the bytes to send, and b2UploadFileResponse has the
   one field FileID. *)
Definition UploadFile `{Decode string} (net : network) (g : Globals)
    (uri token : string) (r : list Byte.byte) (size : Z)
    (name contentType sha1 : string) (info : gmap string string)
    : Globals * option Request * (option File * option error) :=
  let headers := UploadFile_headers token name contentType sha1 size info in
  let '(g', req, (err, b2resp)) :=
    makeRequest canon Unmarshal_errMsg ParseInt NewRequest_error range_map
      net g "b2_upload_file" "POST" uri None (Some json_Decode)
      headers (Some r) in
  match err, b2resp with
  | Some err, _ => (g', req, (None, Some err))
  | None, Some FileID =>
      (g', req, (Some (mk_File name size EmptyString FileID), None))
  | None, None =>
      (g', req, (Some (mk_File name size EmptyString EmptyString), None))
  end.

(* func (fc *FileChunk) UploadPart(ctx, r, sha1, size, index) with its
   makeRequest call: fc.url and fc.token are [url] and [token], [r] the
   bytes to send, [l] the LargeFile fc.file points to.  The result has the
   package variables afterwards, the request sent if one was, the
   LargeFile afterwards and the two return values. *)
Definition UploadPart_call (net : network) (g : Globals)
    (url token sha1 : string) (r : list Byte.byte) (size index : Z)
    (l : LargeFile)
    : Globals * option Request * (option LargeFile * (Z * option error)) :=
  let headers : gmap string string :=
    <["Authorization" := token]>
      (<["X-Bz-Part-Number" := fmt_d index]>
         (<["Content-Length" := fmt_d size]>
            (<["X-Bz-Content-Sha1" := sha1]> ∅))) in
  let '(g', req, (err, _)) :=
    makeRequest canon Unmarshal_errMsg ParseInt NewRequest_error range_map
      (B := unit) net g "b2_upload_part" "POST" url None None
      headers (Some r) in
  (g', req, UploadPart_run err sha1 size index l).

End Calls.

(* ---- DownloadFileByName ---- *)

(* strings.HasPrefix(s, prefix) *)
Definition HasPrefix (s prefix : string) : bool := String.prefix prefix s.

(* strings.TrimPrefix(s, prefix) *)
Definition TrimPrefix (s prefix : string) : string :=
  if HasPrefix s prefix
  then String.substring (String.length prefix)
         (String.length s - String.length prefix) s
  else s.

(* type FileReader struct; [fr_Body] is the embedded io.ReadCloser, the
   body of the response *)
Record FileReader := mk_FileReader {
  fr_Body : string + list Byte.byte;
  ContentLength : Z;
  ContentType : string;
  SHA1 : string;
  Info : gmap string string;
}.

Section Download.
Variable canon : string -> string.
Variable Unmarshal_errMsg : list Byte.byte -> string + string.
Variable ParseInt : string -> string + Z.
Variable NewRequest_error : string -> string -> option string.

(* The order in which a range loop yields the keys of a header. *)
Variable range_keys : Header -> list string.

(* info := make(map[string]string)
   for key := range reply.resp.Header { ... info[name] = ... } *)
Definition response_info (header : Header) : gmap string string :=
  foldl (fun info key =>
           if HasPrefix key "X-Bz-Info-"
           then <[TrimPrefix key "X-Bz-Info-" := Header_Get canon key header]>
                  info
           else info)
    ∅ (range_keys header).

(* func (b *Bucket) DownloadFileByName(ctx, name, offset, size), returning
   a FileReader pointer and an error.  [b2] is the B2 the bucket points
   to.  The result has the package variables afterwards, the request sent
   if one was, and the two return values.  logRequest and logResponse only
   print to the logger and are left out. *)
Definition DownloadFileByName (net : network) (g : Globals) (b2 : B2)
    (b : Bucket) (name : string) (offset size : Z)
    : Globals * option Request * (option FileReader * option error) :=
  let url := downloadURI b2 +:+ "/file/" +:+ bk_Name b +:+ "/" +:+ name in
  match NewRequest_error "GET" url with
  | Some err => (g, None, (None, Some (ErrOther err)))
  | None =>
      let h := Header_Set canon "Authorization" (authToken b2) ∅ in
      let id := wrap64 (reqID g + 1) in
      let h := Header_Set canon "X-Blazer-Request-ID" (fmt_d id) h in
      let h := Header_Set canon "X-Blazer-Method" "b2_download_file_by_name"
                 h in
      let rng := mkRange offset size in
      let h := if bool_decide (rng <> "") then Header_Set canon "Range" rng h
               else h in
      let req := mk_Request "GET" url None h in
      let g' := mk_Globals id (FailSomeUploads g) in
      match net req with
      | None => (g', Some req, (None, Some ErrCanceled))
      | Some (inl err) => (g', Some req, (None, Some (ErrOther err)))
      | Some (inr (code, header, rbody)) =>
          let resp := mk_Response code header rbody req in
          if bool_decide (code <> 200) && bool_decide (code <> 206)
          then (g', Some req,
                (None, Some (mkErr canon Unmarshal_errMsg ParseInt resp)))
          else
            match ParseInt (Header_Get canon "Content-Length" header) with
            | inl err => (g', Some req, (None, Some (ErrOther err)))
            | inr clen =>
                (g', Some req,
                 (Some (mk_FileReader rbody clen
                          (Header_Get canon "Content-Type" header)
                          (Header_Get canon "X-Bz-Content-Sha1" header)
                          (response_info header)),
                  None))
            end
      end
  end.

End Download.

(* ---- a large-file session ---- *)

(* The LargeFile StartLargeFile returns for the file id of the reply: no
   parts, size 0, the mutex free. *)
Definition new_LargeFile (ID : string) : LargeFile :=
  mk_LargeFile ID false 0 ∅.

(* Successive UploadPart calls whose requests succeed, each with the
   part number, the digest and the size of its part. *)
Fixpoint upload_parts (parts : list (Z * string * Z)) (l : LargeFile)
    : option LargeFile :=
  match parts with
  | [] => Some l
  | (index, sha1, size) :: rest =>
      match (UploadPart_run None sha1 size index l).1 with
      | Some l' => upload_parts rest l'
      | None => None
      end
  end.

(* The sizes of the parts, summed. *)
Definition total_size (parts : list (Z * string * Z)) : Z :=
  foldr (fun p acc => p.2 + acc) 0 parts.

(* Two sequences of operations, interleaved. *)
Inductive interleave {A : Type} : list A -> list A -> list A -> Prop :=
| interleave_nil : interleave [] [] []
| interleave_l x l1 l2 l :
    interleave l1 l2 l -> interleave (x :: l1) l2 (x :: l)
| interleave_r x l1 l2 l :
    interleave l1 l2 l -> interleave l1 (x :: l2) (x :: l).

(* ---- a sample network and sample library functions ---- *)

(* A ParseInt that knows the number 30. *)
Definition ParseInt_30 (s : string) : string + Z :=
  if bool_decide (s = "30") then inr 30 else inl "invalid syntax".

(* Every request is answered 503 with Retry-After: 30 and an empty body. *)
Definition net_503 : network :=
  fun _ => Some (inr (503, {["Retry-After" := ["30"]]}, inr [])).

(* Every request is answered 200 with an empty header and body. *)
Definition net_200 : network :=
  fun _ => Some (inr (200, ∅, inr [])).

(* makeRequest and its callers with these: header keys as they are, every
   error body decoding to "busy", every request well formed, the entries
   of a map in the order of map_to_list. *)
Definition sample_makeRequest {B : Type} :=
  makeRequest (B := B) (fun k => k) (fun _ => inr "busy") ParseInt_30
    (fun _ _ => None) map_to_list.

(* Every request is answered 503 with a body that cannot be read. *)
Definition net_broken : network :=
  fun _ => Some (inr (503, ∅, inl "unexpected EOF")).

(* Every request is answered 500 with an empty header and body. *)
Definition net_500 : network :=
  fun _ => Some (inr (500, ∅, inr [])).

(* Every request is answered 206 with Content-Length: 5 and an empty
   body. *)
Definition net_206 : network :=
  fun _ => Some (inr (206,
                      {["Content-Length" := ["5"]]}, inr [])).

(* A header with one file-info entry. *)
Definition info_header : Header :=
  <["X-Bz-Info-Color" := ["blue"; "green"]]> {["Content-Type" := ["text/plain"]]}.

(* Parts 2 and 1 of a large file, uploaded in this order. *)
Definition parts_2_1 : list (Z * string * Z) :=
  [(2, "sha-two", 7); (1, "sha-one", 5)].

End Base.

(* --------------------------------------------------------------------- *)
(* package b2: the Reader                                                *)
(* --------------------------------------------------------------------- *)
Module B2.
Import Go Base.

Abbreviation bytes := (list Byte.byte).

(* chan *bytes.Buffer, buffered: the queued buffer addresses, the capacity
   given to make, and whether close was called. *)
Record chan := mk_chan {
  queue : list nat;
  cap : Z;
  closed : bool;
}.

(* Where one goroutine started by thread() stands, with its locals. *)
Inductive goroutine :=
| AtPool                            (* in the select on r.chbuf and ctx.Done() *)
| AtClaim (buf : nat)               (* has buf, before r.rmux.Lock() *)
| AtFetch (buf : nat) (chunkID offset size : Z)
                                    (* in DownloadFileByName and copyContext *)
| AtStore (buf : nat) (chunkID : Z) (* before r.chunks[chunkID] = buf *)
| Gone.                             (* returned *)

(* Where the goroutine that calls Read stands. *)
Inductive caller_state :=
| Idle                 (* outside Read *)
| InRead (plen : nat)  (* inside Read(p), len(p) = plen, waiting in curChunk *)
| Crashed.             (* Read panicked *)

(* type Reader struct.  ctx and cancel are [canceled]; size is [rd_size]
   (the library owns [size]); the mutexes and the condition variable are
   in the granularity of the steps below.  The last three fields are not
   fields of the struct: [heap] holds the bytes.Buffer objects by address
   (their unread bytes), so that r.chunks and r.chbuf hold pointers as in
   the source; [threads] are the goroutines started by thread(); [caller]
   is the consumer. *)
Record Reader := mk_Reader {
  ConcurrentDownloads : Z;
  ChunkSize : Z;
  canceled : bool;
  rd_size : Z;
  csize : Z;
  read : Z;
  chwid : Z;
  chrid : Z;
  chbuf : chan;
  init : bool;
  chunks : gmap Z nat;
  err : option error;
  heap : list bytes;
  threads : list goroutine;
  caller : caller_state;
}.

Definition set_ChunkSize (v : Z) (r : Reader) : Reader :=
  mk_Reader (ConcurrentDownloads r) v (canceled r) (rd_size r) (csize r)
    (read r) (chwid r) (chrid r) (chbuf r) (init r) (chunks r) (err r)
    (heap r) (threads r) (caller r).

Definition set_canceled (v : bool) (r : Reader) : Reader :=
  mk_Reader (ConcurrentDownloads r) (ChunkSize r) v (rd_size r) (csize r)
    (read r) (chwid r) (chrid r) (chbuf r) (init r) (chunks r) (err r)
    (heap r) (threads r) (caller r).

Definition set_csize (v : Z) (r : Reader) : Reader :=
  mk_Reader (ConcurrentDownloads r) (ChunkSize r) (canceled r) (rd_size r) v
    (read r) (chwid r) (chrid r) (chbuf r) (init r) (chunks r) (err r)
    (heap r) (threads r) (caller r).

Definition set_read (v : Z) (r : Reader) : Reader :=
  mk_Reader (ConcurrentDownloads r) (ChunkSize r) (canceled r) (rd_size r)
    (csize r) v (chwid r) (chrid r) (chbuf r) (init r) (chunks r) (err r)
    (heap r) (threads r) (caller r).

Definition set_chwid (v : Z) (r : Reader) : Reader :=
  mk_Reader (ConcurrentDownloads r) (ChunkSize r) (canceled r) (rd_size r)
    (csize r) (read r) v (chrid r) (chbuf r) (init r) (chunks r) (err r)
    (heap r) (threads r) (caller r).

Definition set_chrid (v : Z) (r : Reader) : Reader :=
  mk_Reader (ConcurrentDownloads r) (ChunkSize r) (canceled r) (rd_size r)
    (csize r) (read r) (chwid r) v (chbuf r) (init r) (chunks r) (err r)
    (heap r) (threads r) (caller r).

Definition set_chbuf (v : chan) (r : Reader) : Reader :=
  mk_Reader (ConcurrentDownloads r) (ChunkSize r) (canceled r) (rd_size r)
    (csize r) (read r) (chwid r) (chrid r) v (init r) (chunks r) (err r)
    (heap r) (threads r) (caller r).

Definition set_init (v : bool) (r : Reader) : Reader :=
  mk_Reader (ConcurrentDownloads r) (ChunkSize r) (canceled r) (rd_size r)
    (csize r) (read r) (chwid r) (chrid r) (chbuf r) v (chunks r) (err r)
    (heap r) (threads r) (caller r).

Definition set_chunks (v : gmap Z nat) (r : Reader) : Reader :=
  mk_Reader (ConcurrentDownloads r) (ChunkSize r) (canceled r) (rd_size r)
    (csize r) (read r) (chwid r) (chrid r) (chbuf r) (init r) v (err r)
    (heap r) (threads r) (caller r).

Definition set_err (v : option error) (r : Reader) : Reader :=
  mk_Reader (ConcurrentDownloads r) (ChunkSize r) (canceled r) (rd_size r)
    (csize r) (read r) (chwid r) (chrid r) (chbuf r) (init r) (chunks r) v
    (heap r) (threads r) (caller r).

Definition set_heap (v : list bytes) (r : Reader) : Reader :=
  mk_Reader (ConcurrentDownloads r) (ChunkSize r) (canceled r) (rd_size r)
    (csize r) (read r) (chwid r) (chrid r) (chbuf r) (init r) (chunks r)
    (err r) v (threads r) (caller r).

Definition set_threads (v : list goroutine) (r : Reader) : Reader :=
  mk_Reader (ConcurrentDownloads r) (ChunkSize r) (canceled r) (rd_size r)
    (csize r) (read r) (chwid r) (chrid r) (chbuf r) (init r) (chunks r)
    (err r) (heap r) v (caller r).

Definition set_caller (v : caller_state) (r : Reader) : Reader :=
  mk_Reader (ConcurrentDownloads r) (ChunkSize r) (canceled r) (rd_size r)
    (csize r) (read r) (chwid r) (chrid r) (chbuf r) (init r) (chunks r)
    (err r) (heap r) (threads r) v.

(* Modelled from the spec: the constructor of Reader is not in the source.
   A Reader is "constructed from a RemoteObjectHandle, a chunk size and a
   concurrency level"; every other field has Go's zero value, and chunks is
   an empty map (thread() stores into it). *)
Definition NewReader (size ChunkSize ConcurrentDownloads : Z) : Reader :=
  mk_Reader ConcurrentDownloads ChunkSize false size 0 0 0 0
    (mk_chan [] 0 false) false ∅ None [] [] Idle.

(* func (r *Reader) Close() error *)
Definition Close (r : Reader) : Reader := set_canceled true r.

(* func (r *Reader) setErr(err error) *)
Definition setErr (e : error) (r : Reader) : Reader :=
  match err r with
  | None => set_err (Some e) r
  | Some _ => r
  end.

(* func (r *Reader) getErr() error *)
Definition getErr (r : Reader) : option error := err r.

(* thread(), from the claim of chunkID to the call of DownloadFileByName:
   the offset and size of the range request, or None when the goroutine
   returns because offset >= r.size. *)
Definition thread_request (r : Reader) (chunkID : Z) : option (Z * Z) :=
  let offset := wrap64 (chunkID * csize r) in
  let size := csize r in
  if bool_decide (offset >= rd_size r) then None
  else if bool_decide (wrap64 (offset + size) > rd_size r)
       then Some (offset, wrap64 (rd_size r - offset))
       else Some (offset, size).

(* The remote store: a successful b2_download_file_by_name with the Range
   header of mkRange answers with the bytes [offset, offset+size) of the
   object, and with the bytes from offset on when size is 0. *)
Definition serve (object : bytes) (offset size : Z) : bytes :=
  if bool_decide (size = 0) then drop (Z.to_nat offset) object
  else take (Z.to_nat size) (drop (Z.to_nat offset) object).

(* r.thread(): one more goroutine, at the top of its loop *)
Definition thread (r : Reader) : Reader :=
  set_threads (threads r ++ [AtPool]) r.

(* r.chbuf <- &bytes.Buffer{}: a new empty buffer, queued *)
Definition send_new_Buffer (r : Reader) : Reader :=
  let b := length (heap r) in
  set_chbuf (mk_chan (queue (chbuf r) ++ [b]) (cap (chbuf r))
               (closed (chbuf r)))
    (set_heap (heap r ++ [[]]) r).

(* for i := 0; i < cr; i++ { r.thread(); r.chbuf <- &bytes.Buffer{} } *)
Fixpoint initFunc_loop (n : nat) (r : Reader) : Reader :=
  match n with
  | O => r
  | S n' => initFunc_loop n' (send_new_Buffer (thread r))
  end.

(* func (r *Reader) initFunc() *)
Definition initFunc (r : Reader) : Reader :=
  let cr := if bool_decide (ConcurrentDownloads r < 1) then 1
            else ConcurrentDownloads r in
  let r := if bool_decide (ChunkSize r < 1) then set_ChunkSize 10000000 r
           else r in
  let r := set_csize (ChunkSize r) r in
  let r := set_chbuf (mk_chan [] cr false) r in
  initFunc_loop (Z.to_nat cr) r.

(* r.init.Do(r.initFunc) *)
Definition init_Do (r : Reader) : Reader :=
  if init r then r else set_init true (initFunc r).

(* curChunk: its goroutine waits under rmux until r.chunks[r.chrid] is
   there or an error is latched, then offers the chunk on ch; the caller
   selects between ch and ctx.Done().  [via_done] says which case of that
   select fires; None when that case cannot fire yet.
   The loop test is taken at the step at which the Read leaves curChunk.
   For a Read that enters curChunk with the chunk stored or the error
   latched this is the source's first test, which does not wait.  A Read
   that is already waiting depends on a Broadcast: the one after a store
   cannot be missed (the store takes rmux, which the waiter holds from its
   test until rcond.Wait has queued it), the one after setErr can (setErr
   and that Broadcast run without rmux), so nothing below states that a
   Read which waits when the error is recorded returns. *)
Definition curChunk (via_done : bool) (r : Reader)
    : option (option nat * option error) :=
  if via_done then
    if canceled r then Some (None, Some ErrCanceled) else None
  else
    match chunks r !! chrid r, getErr r with
    | None, None => None
    | chunk, e => Some (chunk, e)
    end.

(* func (b *Buffer) Read(p []byte) (n int, err error) of package bytes, on
   the unread bytes: the bytes copied to p, the bytes left, the error. *)
Definition Buffer_Read (b : bytes) (plen : nat)
    : bytes * bytes * option error :=
  match b with
  | [] =>
      match plen with
      | O => ([], [], None)
      | _ => ([], [], Some ErrEOF)
      end
  | _ => (take plen b, drop plen b, None)
  end.

(* How the rest of Read, after curChunk, ends. *)
Inductive read_outcome :=
| Done (r : Reader) (p : bytes) (e : option error) (* returns len(p), e *)
| Panics (reason : string) (r : Reader)
| Blocks.                                  (* r.chbuf <- chunk has no room *)

(* Read after curChunk returned (chunk, e). *)
Definition Read_finish (plen : nat) (chunk : option nat) (e : option error)
    (r : Reader) : read_outcome :=
  match e with
  | Some e => Done r [] (Some e)
  | None =>
      match chunk ≫= fun b => pair b <$> heap r !! b with
      | None => Panics "nil pointer dereference" r
      | Some (b, content) =>
          let '(p, rest, e) := Buffer_Read content plen in
          let r := set_heap (<[b := rest]> (heap r)) r in
          let r := set_read (wrap64 (read r + Z.of_nat (length p))) r in
          match e with
          | Some ErrEOF =>
              if bool_decide (read r >= rd_size r) then
                if closed (chbuf r) then Panics "close of closed channel" r
                else Done (set_chbuf (mk_chan (queue (chbuf r))
                                        (cap (chbuf r)) true) r)
                       p (Some ErrEOF)
              else
                let r := set_chrid (wrap64 (chrid r + 1)) r in
                let r := set_heap (<[b := []]> (heap r)) r in
                if closed (chbuf r) then Panics "send on closed channel" r
                else if bool_decide (Z.of_nat (length (queue (chbuf r)))
                                     < cap (chbuf r))
                then Done (set_chbuf (mk_chan (queue (chbuf r) ++ [b])
                                        (cap (chbuf r)) false) r)
                       p None
                else Blocks
          | _ => Done r p e
          end
      end
  end.

(* What happens next in a session: the caller, or goroutine number i. *)
Inductive action :=
| ARead (plen : nat)       (* the caller enters Read(p), len(p) = plen *)
| AReturn (via_done : bool)(* its Read leaves curChunk and returns *)
| AClose                   (* Close() *)
| ATake (i : nat)          (* receives a buffer from r.chbuf *)
| AExit (i : nat)          (* r.chbuf closed and empty, or ctx done *)
| AClaim (i : nat)         (* chunkID := r.chwid; r.chwid++ under rmux *)
| AFetch (i : nat) (failure : option (error * bytes))
                           (* download and copy: into the buffer, or an
                              error after some bytes were written *)
| AStore (i : nat).        (* r.chunks[chunkID] = buf under rmux *)

(* What the outside sees. *)
Inductive event :=
| EvInit                          (* initFunc ran *)
| EvRequest (offset size : Z)     (* DownloadFileByName(offset, size) *)
| EvReturn (p : bytes) (e : option error)  (* Read returned len(p), e *)
| EvPanic (reason : string).      (* Read panicked *)

Definition set_thread (i : nat) (g : goroutine) (r : Reader) : Reader :=
  set_threads (<[i := g]> (threads r)) r.

(* One step of the session on the object held by the remote store. *)
Definition step (object : bytes) (a : action) (r : Reader)
    : option (list event * Reader) :=
  match a with
  | ARead plen =>
      match caller r with
      | Idle =>
          Some (if init r then [] else [EvInit],
                set_caller (InRead plen) (init_Do r))
      | _ => None
      end
  | AReturn via_done =>
      match caller r with
      | InRead plen =>
          match curChunk via_done r with
          | Some (chunk, e) =>
              match Read_finish plen chunk e r with
              | Done r' p e' => Some ([EvReturn p e'], set_caller Idle r')
              | Panics reason r' =>
                  Some ([EvPanic reason], set_caller Crashed r')
              | Blocks => None
              end
          | None => None
          end
      | _ => None
      end
  | AClose => Some ([], Close r)
  | ATake i =>
      match threads r !! i, queue (chbuf r) with
      | Some AtPool, b :: q =>
          Some ([], set_thread i (AtClaim b)
                      (set_chbuf (mk_chan q (cap (chbuf r))
                                    (closed (chbuf r))) r))
      | _, _ => None
      end
  | AExit i =>
      match threads r !! i, queue (chbuf r) with
      | Some AtPool, q =>
          if (closed (chbuf r) && bool_decide (q = [])) || canceled r
          then Some ([], set_thread i Gone r)
          else None
      | _, _ => None
      end
  | AClaim i =>
      match threads r !! i with
      | Some (AtClaim buf) =>
          let chunkID := chwid r in
          let r := set_chwid (wrap64 (chwid r + 1)) r in
          match thread_request r chunkID with
          | None => Some ([], set_thread i Gone r)
          | Some (offset, size) =>
              Some ([], set_thread i (AtFetch buf chunkID offset size) r)
          end
      | _ => None
      end
  | AFetch i failure =>
      match threads r !! i with
      | Some (AtFetch buf chunkID offset size) =>
          let written :=
            match failure with
            | None => serve object offset size
            | Some (_, partial) => partial
            end in
          let r := set_heap (alter (fun b => b ++ written) buf (heap r)) r in
          match failure with
          | None =>
              Some ([EvRequest offset size],
                    set_thread i (AtStore buf chunkID) r)
          | Some (e, _) =>
              Some ([EvRequest offset size], set_thread i Gone (setErr e r))
          end
      | _ => None
      end
  | AStore i =>
      match threads r !! i with
      | Some (AtStore buf chunkID) =>
          Some ([], set_thread i AtPool
                      (set_chunks (<[chunkID := buf]> (chunks r)) r))
      | _ => None
      end
  end.

(* A schedule run from a state: the events in order and the last state;
   None when some action of the schedule cannot happen. *)
Fixpoint run (object : bytes) (sched : list action) (r : Reader)
    : option (list event * Reader) :=
  match sched with
  | [] => Some ([], r)
  | a :: sched' =>
      match step object a r with
      | Some (evs, r') =>
          match run object sched' r' with
          | Some (evs', r'') => Some (evs ++ evs', r'')
          | None => None
          end
      | None => None
      end
  end.

(* The bytes the Read calls of a trace handed to the caller, in order. *)
Fixpoint delivered (tr : list event) : bytes :=
  match tr with
  | [] => []
  | EvReturn p _ :: tr' => p ++ delivered tr'
  | _ :: tr' => delivered tr'
  end.

(* The effective settings of initFunc. *)
Definition workers (r : Reader) : Z :=
  if bool_decide (ConcurrentDownloads r < 1) then 1
  else ConcurrentDownloads r.

Definition chunk_size (r : Reader) : Z :=
  if bool_decide (ChunkSize r < 1) then 10000000 else ChunkSize r.

(* The request for chunk i as the specification has it: none from offset
   i * chunkSize at or beyond the total size, else offset and
   min(chunkSize, totalSize - offset) bytes. *)
Definition clamped_request (chunkSize totalSize i : Z) : option (Z * Z) :=
  let offset := i * chunkSize in
  if bool_decide (offset >= totalSize) then None
  else Some (offset, Z.min chunkSize (totalSize - offset)).

(* An initialised Reader with chunks of 2^62 bytes on an object of
   2^63 - 1 bytes. *)
Definition huge_chunks : Reader :=
  init_Do (NewReader (2 ^ 63 - 1) (2 ^ 62) 2).

(* What no step of a session changes once initFunc ran: cr goroutines, cr
   buffers, a channel of capacity cr, the chunk size. *)
Definition initialised (size cs cd : Z) (r : Reader) : Prop :=
  let r0 := NewReader size cs cd in
  init r = true
  /\ length (threads r) = Z.to_nat (workers r0)
  /\ length (heap r) = Z.to_nat (workers r0)
  /\ cap (chbuf r) = workers r0
  /\ csize r = chunk_size r0
  /\ ChunkSize r = chunk_size r0
  /\ ConcurrentDownloads r = cd
  /\ rd_size r = size.

(* Before the first Read nothing runs; Close may have been called. *)
Definition untouched (size cs cd : Z) (r : Reader) : Prop :=
  r = NewReader size cs cd \/ r = Close (NewReader size cs cd).

(* A five-byte object. *)
Definition five_bytes : bytes := [x01; x02; x03; x04; x05].

(* A Read that returns after the error e was latched: no bytes, and the
   latched error, or the context's error once the session is canceled. *)
Definition after_latch (e : error) (r : Reader) (ev : event) : Prop :=
  match ev with
  | EvReturn p e' =>
      p = [] /\ (e' = Some e \/ (e' = Some ErrCanceled /\ canceled r = true))
  | EvPanic _ => False
  | _ => True
  end.

(* "Read returns the latched error e." *)
Definition returns_latched (e : error) (ev : event) : Prop :=
  match ev with
  | EvReturn p e' => e' = Some e
  | _ => True
  end.

(* One goroutine fails its download; the caller reads the error, closes
   the Reader and reads again. *)
Definition latch_then_close : list action :=
  [ARead 1; ATake 0; AClaim 0; AFetch 0 (Some (ErrOther "boom", []));
   AReturn false; AClose; ARead 1; AReturn true].

(* Two goroutines; the caller has read chunk 0 and moved on to chunk 1,
   and no Read is in progress, when the download of chunk 1 fails with
   "boom", one byte written. *)
Definition latch_while_idle : list action :=
  [ARead 2; ATake 0; ATake 1; AClaim 0; AClaim 1; AFetch 0 None; AStore 0;
   AReturn false; ARead 1; AReturn false;
   AFetch 1 (Some (ErrOther "boom", [x03]))].

(* The Reader at the end of that session: "boom" latched, no Read in
   progress, r.chrid = 1 and no chunk 1 stored. *)
Definition latched_idle : Reader :=
  default (NewReader 5 2 2)
    (snd <$> run five_bytes latch_while_idle (NewReader 5 2 2)).

(* ---- what the goroutines and the chunk map hold ---- *)

Definition opt_list {B : Type} (o : option B) : list B :=
  match o with
  | Some b => [b]
  | None => []
  end.

(* The buffer a goroutine holds. *)
Definition held (g : goroutine) : option nat :=
  match g with
  | AtClaim b | AtFetch b _ _ _ | AtStore b _ => Some b
  | _ => None
  end.

(* The chunk a goroutine has claimed and not yet stored. *)
Definition in_flight (g : goroutine) : option Z :=
  match g with
  | AtFetch _ chunkID _ _ | AtStore _ chunkID => Some chunkID
  | _ => None
  end.

Definition gone (g : goroutine) : Z :=
  match g with
  | Gone => 1
  | _ => 0
  end.

(* A sum over the goroutines. *)
Fixpoint total (f : goroutine -> Z) (l : list goroutine) : Z :=
  match l with
  | [] => 0
  | g :: l' => f g + total f l'
  end.

(* The entries of r.chunks at or after r.chrid: stored and not yet
   consumed. *)
Definition unconsumed (r : Reader) : gmap Z nat :=
  filter (fun kv : Z * nat => chrid r <= kv.1) (chunks r).

(* Every buffer address in use: queued in r.chbuf, held by a goroutine, or
   under an unconsumed entry of r.chunks. *)
Definition owned (r : Reader) : list nat :=
  queue (chbuf r) ++ omap held (threads r) ++ (map_to_list (unconsumed r)).*2.

(* The sizes of a session fit a signed 64-bit integer: the object, and one
   chunk more per goroutine and one on top (each goroutine claims at most
   one index past the end before it returns). *)
Definition fits (size cs cd : Z) : Prop :=
  let r0 := NewReader size cs cd in
  0 <= size /\ size + (workers r0 + 1) * chunk_size r0 <= max_int64.

(* The ownership invariant of an initialised session. *)
Record Inv_own (size cs cd : Z) (r : Reader) : Prop := mk_Inv_own {
  own_init : initialised size cs cd r;
  own_nodup : NoDup (owned r);
  own_valid : Forall (fun b => (b < length (heap r))%nat) (owned r);
  fly_nodup : NoDup (omap in_flight (threads r));
  fly_ids : forall id, id ∈ omap in_flight (threads r) ->
            chrid r <= id < chwid r /\ chunks r !! id = None
            /\ id * csize r < size;
  map_ids : forall k b, chunks r !! k = Some b ->
            0 <= k < chwid r /\ k * csize r < size;
  ids_order : 0 <= chrid r <= chwid r;
  chwid_bound : chwid r * csize r
                < size + csize r + total gone (threads r) * csize r;
}.

(* A schedule that downloads chunk 0 of two bytes, reads it, and reads
   once more, which moves r.chrid to 1. *)
Definition chunk0_consumed : list action :=
  [ARead 3; ATake 0; AClaim 0; AFetch 0 None; AStore 0; AReturn false;
   ARead 3; AReturn false].

(* ---- what the buffers hold ---- *)

(* The bytes of chunk k of the object, and where the chunk ends. *)
Definition chunk_bytes (object : bytes) (cs size k : Z) : bytes :=
  serve object (k * cs) (Z.min cs (size - k * cs)).

Definition chunk_end (cs size k : Z) : Z := Z.min ((k + 1) * cs) size.

(* The buffer of a goroutine: empty until the download, then the bytes of
   its chunk. *)
Definition thread_data (object : bytes) (cs size : Z) (hp : list bytes)
    (g : goroutine) : Prop :=
  match g with
  | AtClaim b => hp !! b = Some []
  | AtFetch b chunkID offset sz =>
      hp !! b = Some [] /\ offset = chunkID * cs
      /\ sz = Z.min cs (size - chunkID * cs)
  | AtStore b chunkID => hp !! b = Some (chunk_bytes object cs size chunkID)
  | _ => True
  end.

(* The data invariant of an initialised session, [out] being the bytes
   handed to the caller so far: queued buffers are empty, stored chunks
   hold their bytes, and [out] followed by the unread rest of the current
   chunk is a prefix of the object. *)
Record Inv_data (object : bytes) (size : Z) (out : bytes) (r : Reader)
    : Prop := mk_Inv_data {
  dat_queue : forall b, b ∈ queue (chbuf r) -> heap r !! b = Some [];
  dat_threads : forall i g, threads r !! i = Some g ->
                thread_data object (csize r) size (heap r) g;
  dat_ahead : forall k b, chunks r !! k = Some b -> chrid r < k ->
              heap r !! b = Some (chunk_bytes object (csize r) size k);
  dat_current : match chunks r !! chrid r with
                | Some b =>
                    exists rest, heap r !! b = Some rest
                    /\ out ++ rest
                       = take (Z.to_nat (chunk_end (csize r) size (chrid r)))
                           object
                | None => read r = chrid r * csize r
                end;
  dat_out : out = take (Z.to_nat (read r)) object;
  dat_read : 0 <= read r <= size;
  dat_closed : closed (chbuf r) = true -> read r = size;
  dat_chrid : chrid r = 0 \/ chrid r * csize r < size;
}.

(* ---------------- sessions without failure ---------------- *)

(* The steps of a session in which no download fails, nobody calls Close
   and every Read is given a buffer with room for at least one byte. *)
Definition benign (a : action) : bool :=
  match a with
  | ARead plen => negb (Nat.eqb plen 0)
  | AClose => false
  | AFetch _ (Some _) => false
  | _ => true
  end.

(* Some Read of the trace reported io.EOF. *)
Definition eof_reported (tr : list event) : Prop :=
  exists p, EvReturn p (Some ErrEOF) ∈ tr.

(* What holds in every state of such a session: no error is latched, Read
   returned nil or io.EOF only, io.EOF was reported exactly if r.chbuf is
   closed, a goroutine returned only past the object's end, every chunk
   claimed inside the object is stored or being fetched, and while all
   goroutines run every buffer is accounted for. *)
Record Inv_live (size : Z) (tr : list event) (r : Reader) : Prop :=
  mk_Inv_live {
  live_err : err r = None;
  live_ctx : canceled r = false;
  live_plen : forall plen, caller r = InRead plen -> plen <> 0%nat;
  live_returns : forall p e, EvReturn p e ∈ tr ->
                 e = None \/ e = Some ErrEOF;
  live_eof : (exists p, EvReturn p (Some ErrEOF) ∈ tr)
             <-> closed (chbuf r) = true;
  live_panic : forall reason, EvPanic reason ∈ tr ->
               closed (chbuf r) = true;
  live_crash : caller r = Crashed -> closed (chbuf r) = true;
  live_gone : forall i, threads r !! i = Some Gone ->
              size <= chwid r * csize r \/ closed (chbuf r) = true;
  live_claimed : forall id, 0 <= id < chwid r -> id * csize r < size ->
                 is_Some (chunks r !! id)
                 \/ id ∈ omap in_flight (threads r);
  live_count : total gone (threads r) = 0 -> closed (chbuf r) = false ->
               length (owned r) = length (heap r);
}.

(* A bound on the steps a session has left: each step of a session
   without failure lowers it. *)
Definition wgt (g : goroutine) : Z :=
  match g with
  | AtPool => 2
  | AtClaim _ => 1
  | AtFetch _ _ _ _ => 4
  | AtStore _ _ => 3
  | Gone => 0
  end.

Definition measure (size : Z) (r : Reader) : Z :=
  2 * (size - read r) + 2 * (size - chrid r * csize r)
  + (if closed (chbuf r) then 0 else 2)
  + match caller r with
    | Idle => 3
    | InRead _ => 2
    | Crashed => 0
    end
  + total wgt (threads r)
  + 4 * Z.max 0 (size - chwid r * csize r).

(* Spec-worded: a direct single-shot read of the same S bytes, one range
   request for the whole object. *)
Definition single_shot_read (object : bytes) : bytes :=
  serve object 0 (Z.of_nat (length object)).

(* An object of size 0 after the first Read was called and the only
   goroutine ran. *)
Definition empty_object_blocked : Reader :=
  default (NewReader 0 1 1)
    (snd <$> run [] [ARead 1; ATake 0; AClaim 0] (NewReader 0 1 1)).

(* One Read of the whole five-byte object, then a Read with an empty p. *)
Definition whole_object_read : list action :=
  [ARead 5; ATake 0; AClaim 0; AFetch 0 None; AStore 0; AReturn false;
   ARead 0; AReturn false].

(* The five-byte object in chunks of two bytes, two goroutines, read to
   the end with the second chunk arriving first. *)
Definition read_to_the_end : list action :=
  [ARead 3; ATake 0; ATake 1; AClaim 0; AClaim 1; AFetch 1 None; AStore 1;
   AFetch 0 None; AStore 0; AReturn false;
   ARead 3; AReturn false; ARead 3; AReturn false;
   ATake 0; AClaim 0; AFetch 0 None; AStore 0;
   ARead 3; AReturn false; ARead 3; AReturn false; ARead 3; AReturn false].

(* ---- the range requests of a session ---- *)

(* The range requests of a trace, in order: offset and size. *)
Definition requests (tr : list event) : list (Z * Z) :=
  omap (fun ev => match ev with
                  | EvRequest offset size => Some (offset, size)
                  | _ => None
                  end) tr.

(* The goroutine is in the download of chunk k. *)
Definition fetching (k : Z) (g : goroutine) : Prop :=
  match g with
  | AtFetch _ chunkID _ _ => chunkID = k
  | _ => False
  end.

(* The requests made so far are for chunks claimed earlier, one request
   per chunk, none for a chunk whose download has yet to start. *)
Record Inv_req (size : Z) (reqs : list (Z * Z)) (r : Reader) : Prop :=
  mk_Inv_req {
  req_chunk : forall offset sz, (offset, sz) ∈ reqs ->
              exists k, 0 <= k < chwid r /\ offset = k * csize r
                /\ sz = Z.min (csize r) (size - offset)
                /\ 1 <= sz /\ offset + sz <= size
                /\ forall i g, threads r !! i = Some g -> ~ fetching k g;
  req_nodup : NoDup reqs.*1;
}.

(* Nothing is stored, latched, canceled or being downloaded. *)
Definition nothing_to_read (r : Reader) : Prop :=
  chunks r = ∅ /\ err r = None /\ canceled r = false
  /\ forall i g, threads r !! i = Some g -> in_flight g = None.

(* Chunk 0 is read, then the download of chunk 1 fails after one byte and
   the next Read returns the error. *)
Definition failed_session : list action :=
  [ARead 3; ATake 0; AClaim 0; AFetch 0 None; AStore 0; AReturn false;
   ATake 1; AClaim 1; AFetch 1 (Some (ErrOther "boom", [x09]));
   ARead 3; AReturn false].

(* Chunk 0 is stored and a Read of up to 3 bytes waits for it. *)
Definition chunk0_stored : list action :=
  [ARead 3; ATake 0; AClaim 0; AFetch 0 None; AStore 0].

(* ---- copyContext ---- *)

(* io.ErrShortWrite *)
Definition ErrShortWrite : error := ErrOther "short write".

(* An io.Writer: Write(p) gives the writer afterwards, the count of bytes
   it took and its error. *)
Class Writer (W : Type) := Write : W -> bytes -> W * (Z * option error).

(* func (b *Buffer) Write(p []byte) (n int, err error) of package bytes:
   p is appended, n is len(p), err is nil. *)
#[global] Instance Buffer_Write : Writer bytes :=
  fun b p => (b ++ p, (Z.of_nat (length p), None)).

(* The body of the loop of copyContext from "if nr > 0" to the end of that
   block: on the left the return of copyContext when the block breaks out
   of the loop, on the right dst and written when it falls through. *)
Definition copy_block {W : Type} `{Writer W} (dst : W) (written : Z)
    (data : bytes) : (W * (Z * option error)) + (W * Z) :=
  let nr := Z.of_nat (length data) in
  if bool_decide (nr > 0) then
    let '(dst', (nw, ew)) := Write dst data in
    let written' :=
      if bool_decide (nw > 0) then wrap64 (written + nw) else written in
    match ew with
    | Some e => inl (dst', (written', Some e))
    | None =>
        if bool_decide (nr <> nw)
        then inl (dst', (written', Some ErrShortWrite))
        else inr (dst', written')
    end
  else inr (dst, written).

(* The loop of copyContext.  [src] is the io.Reader, by the results of its
   successive Read(buf) calls: the bytes put in buf[0:nr] and the error.
   [alive] is the number of times ctx.Err() is still nil, None when the
   context is never canceled.  None: the loop is still running when the
   listed results of src are used up. *)
Fixpoint copyContext_loop {W : Type} `{Writer W} (alive : option nat)
    (src : list (bytes * option error)) (dst : W) (written : Z)
    : option (W * (Z * option error)) :=
  match alive, src with
  | Some O, _ => Some (dst, (written, Some ErrCanceled))
  | _, [] => None
  | _, (data, er) :: src' =>
      match copy_block dst written data with
      | inl result => Some result
      | inr (dst', written') =>
          match er with
          | Some ErrEOF => Some (dst', (written', None))
          | Some e => Some (dst', (written', Some e))
          | None => copyContext_loop (pred <$> alive) src' dst' written'
          end
      end
  end.

(* func copyContext(ctx, dst io.Writer, src io.Reader) (written int64,
   err error) *)
Definition copyContext {W : Type} `{Writer W} (alive : option nat) (dst : W)
    (src : list (bytes * option error)) : option (W * (Z * option error)) :=
  copyContext_loop alive src dst 0.

(* The bytes of the first k results of src. *)
Definition read_bytes (k : nat) (src : list (bytes * option error)) : bytes :=
  concat ((take k src).*1).

(* The context outlives k iterations of the loop. *)
Definition outlives (alive : option nat) (k : nat) : Prop :=
  match alive with
  | None => True
  | Some n => (k < n)%nat
  end.

End B2.

(* ===================================================================== *)
(* Properties                                                            *)
(* ===================================================================== *)

Module GoFacts.
Import Go.

Lemma wrap64_id z : is_int64 z -> wrap64 z = z.
Proof.
  unfold is_int64, wrap64, min_int64, max_int64. intros Hz.
  rewrite Z.mod_small; lia.
Qed.

Lemma wrap64_range z : is_int64 (wrap64 z).
Proof.
  unfold is_int64, wrap64, min_int64, max_int64.
  pose proof (Z.mod_pos_bound (z + 2 ^ 63) (2 ^ 64)). lia.
Qed.

Lemma wrap64_add (a b : Z) : wrap64 (wrap64 a + b) = wrap64 (a + b).
Proof.
  unfold wrap64.
  replace (((a + 2 ^ 63) mod 2 ^ 64 - 2 ^ 63 + b + 2 ^ 63))
    with ((a + 2 ^ 63) mod 2 ^ 64 + b) by lia.
  rewrite Zplus_mod_idemp_l. f_equal. f_equal. lia.
Qed.

Lemma wrap64_0 : wrap64 0 = 0.
Proof. reflexivity. Qed.

End GoFacts.

Module BaseFacts.
Import Go GoFacts Base.

(* ---------------- Action and Backoff ---------------- *)

Lemma is_5xx_code c :
  bool_decide (c >= 500) && bool_decide (c < 600) = is_5xx c.
Proof.
  unfold is_5xx. repeat case_bool_decide; simpl; try reflexivity; lia.
Qed.

Lemma retry_codes c :
  bool_decide (c = 429) || bool_decide (c = 500) || bool_decide (c = 503)
  = bool_decide (c ∈ [429; 500; 503]).
Proof.
  repeat case_bool_decide; simpl; try reflexivity; exfalso;
    repeat match goal with
    | H : _ ∈ _ :: _ |- _ => apply elem_of_cons in H; destruct H
    | H : _ ∈ [] |- _ => by apply elem_of_nil in H
    | H : ¬ _ ∈ _ |- _ => apply H; subst; set_solver
    end; try lia.
Qed.

(* A 404 answer to a download that carries "Retry-After: -1". *)
Definition err_negative_retry : option error :=
  Some (ErrB2 (mk_b2err "not found" "b2_download_file_by_name" (-1) 404)).

(** C5, as stated, fails: with a non-zero but negative retry-after the
    classifier does not answer Retry; on a 404 it answers Punt. *)
Lemma Action_negative_retry_not_Retry :
  (Action err_negative_retry, Backoff err_negative_retry)
  <> classify_nonzero err_negative_retry.
Proof. vm_compute. discriminate. Qed.

(** C5 (amended): Action paired with Backoff is the classifier whose first
    rule tests for a positive retry-after: Retry then; else AttemptNewUpload
    for a 5xx status on b2_upload_file or b2_upload_part; else for 401
    ReAuthenticate, or Punt when the method is b2_authorize_account; else
    Retry for 429, 500, 503; Punt for every other status and for every
    error that is not a b2err.  The wait is the retry-after in seconds as an
    int64 count of nanoseconds (zero for a zero retry-after, and for errors
    that are not a b2err). *)
Theorem Action_Backoff_classify (err : option error) :
  (Action err, Backoff err) = classify_positive err.
Proof.
  destruct err as [[e| | |d]|]; simpl; try reflexivity.
  unfold by_status, is_upload.
  rewrite is_5xx_code, retry_codes.
  replace (bool_decide (retry e > 0)) with (bool_decide (0 < retry e))
    by (apply bool_decide_ext; lia).
  destruct (bool_decide (0 < retry e)); [reflexivity|].
  destruct (is_5xx (code e) && _); [reflexivity|].
  destruct (bool_decide (code e = 401)).
  - destruct (bool_decide (method e = _)); reflexivity.
  - destruct (bool_decide (code e ∈ _)); reflexivity.
Qed.

(* Within 292 years the wait does not wrap: it is the retry-after. *)
Lemma Backoff_seconds (e : b2err) :
  0 <= retry e <= 9223372036 ->
  Backoff (Some (ErrB2 e)) = retry e * Second.
Proof.
  intros Hr. simpl. apply wrap64_id.
  unfold is_int64, min_int64, max_int64, Second. lia.
Qed.

Example classify_503 :
  classify_positive (Some (ErrB2 (mk_b2err "" "b2_list_buckets" 0 503)))
  = (Retry, 0).
Proof. reflexivity. Qed.

Example classify_401_authorize :
  Action (Some (ErrB2 (mk_b2err "" "b2_authorize_account" 0 401))) = Punt.
Proof. reflexivity. Qed.

Example classify_401_upload_part :
  Action (Some (ErrB2 (mk_b2err "" "b2_upload_part" 0 401))) = ReAuthenticate.
Proof. reflexivity. Qed.

Example classify_500_upload_part :
  Action (Some (ErrB2 (mk_b2err "" "b2_upload_part" 0 500)))
  = AttemptNewUpload.
Proof. reflexivity. Qed.

Example classify_503_retry_30 :
  let err := Some (ErrB2 (mk_b2err "" "b2_upload_part" 30 503)) in
  (Action err, Backoff err) = (Retry, 30 * Second).
Proof. reflexivity. Qed.

(* ---------------- UploadPart ---------------- *)

Lemma UploadPart_run_ok (sha1 : string) (sz index : Z) (l : LargeFile) :
  mu l = false ->
  UploadPart_run None sha1 sz index l
  = (Some (mk_LargeFile (lf_id l) false (wrap64 (lf_size l + sz))
             (<[index := sha1]> (hashes l))),
     (sz, None)).
Proof.
  intros Hmu. unfold UploadPart_run. simpl. rewrite Hmu. reflexivity.
Qed.

(** C10: a failed request makes UploadPart return 0 and the error without
    performing any operation on the LargeFile, which is left as it was; a
    successful one performs the two writes, both between Lock and Unlock of
    the session mutex. *)
Theorem UploadPart_failure_leaves_state (err : error) (sha1 : string)
    (sz index : Z) (l : LargeFile) :
  UploadPart (Some err) sha1 sz index = ([], (0, Some err))
  /\ UploadPart_run (Some err) sha1 sz index l = (Some l, (0, Some err))
  /\ (UploadPart None sha1 sz index).1
     = [OpLock; OpStoreHash index sha1; OpAddSize sz; OpUnlock]
  /\ writes_locked false (UploadPart None sha1 sz index).1 = true.
Proof. repeat split. Qed.

(* The session after part 2 was uploaded with 5 bytes and then again with
   7 bytes. *)
Definition upload_twice : option LargeFile * option LargeFile :=
  let l0 := mk_LargeFile "f" false 0 ∅ in
  let r1 := (UploadPart_run None "sha-a" 5 2 l0).1 in
  (r1, r1 ≫= λ l1, (UploadPart_run None "sha-b" 7 2 l1).1).

(** C3, as stated, fails: uploading part 2 with 5 bytes and again with 7
    bytes moves the running total from 5 to 12, a change of 7 and not of
    the delta 2. *)
Lemma UploadPart_twice_accumulates :
  exists l1 l2,
    upload_twice = (Some l1, Some l2)
    /\ lf_size l1 = 5 /\ lf_size l2 = 12
    /\ lf_size l2 - lf_size l1 <> 7 - 5
    /\ lf_size l2 <> size_after_delta 0 5 7.
Proof.
  eexists _, _. split; [reflexivity|]. vm_compute.
  repeat split; discriminate.
Qed.

(** C3 (amended): two successful UploadPart calls with the same part number
    leave the digest of the second call under that number, with as many
    recorded parts as after the first call, and the second call adds its
    whole size s2 to the running total (int64 addition), so both sizes are
    counted. *)
Theorem UploadPart_twice (sha_a sha_b : string) (s1 s2 index : Z)
    (l : LargeFile) :
  mu l = false ->
  exists l1 l2,
    (UploadPart_run None sha_a s1 index l).1 = Some l1
    /\ (UploadPart_run None sha_b s2 index l1).1 = Some l2
    /\ hashes l2 !! index = Some sha_b
    /\ hashes l2 = <[index := sha_b]> (hashes l)
    /\ size (hashes l2) = size (hashes l1)
    /\ lf_size l2 = wrap64 (lf_size l1 + s2)
    /\ lf_size l2 = wrap64 (wrap64 (lf_size l + s1) + s2).
Proof.
  intros Hmu.
  pose (l1 := mk_LargeFile (lf_id l) false (wrap64 (lf_size l + s1))
                (<[index := sha_a]> (hashes l))).
  pose (l2 := mk_LargeFile (lf_id l) false (wrap64 (lf_size l1 + s2))
                (<[index := sha_b]> (hashes l1))).
  exists l1, l2.
  rewrite UploadPart_run_ok by assumption.
  rewrite (UploadPart_run_ok sha_b s2 index l1) by reflexivity.
  subst l1 l2. simpl.
  repeat split.
  - apply lookup_insert_eq.
  - apply insert_insert_eq.
  - apply map_size_insert_Some. rewrite lookup_insert_eq. eauto.
Qed.

Lemma UploadPart_twice_witness :
  exists l1 l2,
    (UploadPart_run None "sha-a" 5 2 (mk_LargeFile "f" false 0 ∅)).1 = Some l1
    /\ (UploadPart_run None "sha-b" 7 2 l1).1 = Some l2
    /\ hashes l2 !! 2 = Some "sha-b"
    /\ hashes l2 = <[2 := "sha-b"]> (hashes (mk_LargeFile "f" false 0 ∅))
    /\ size (hashes l2) = size (hashes l1)
    /\ lf_size l2 = wrap64 (lf_size l1 + 7)
    /\ lf_size l2 = wrap64 (wrap64 (lf_size (mk_LargeFile "f" false 0 ∅) + 5) + 7).
Proof.
  apply (UploadPart_twice "sha-a" "sha-b" 5 7 2 (mk_LargeFile "f" false 0 ∅)).
  reflexivity.
Defined.

(* Without overflow the total after both calls is the plain sum. *)
Lemma UploadPart_twice_sum (sha_a sha_b : string) (s1 s2 index : Z)
    (l l1 l2 : LargeFile) :
  mu l = false ->
  0 <= lf_size l -> 0 <= s1 -> 0 <= s2 -> lf_size l + s1 + s2 <= max_int64 ->
  (UploadPart_run None sha_a s1 index l).1 = Some l1 ->
  (UploadPart_run None sha_b s2 index l1).1 = Some l2 ->
  lf_size l2 = lf_size l + s1 + s2.
Proof.
  intros Hmu H0 H1 H2 Hmax.
  rewrite UploadPart_run_ok by assumption. intros [= <-].
  rewrite UploadPart_run_ok by reflexivity. intros [= <-]. simpl.
  rewrite (wrap64_id (lf_size l + s1)), wrap64_id;
    unfold is_int64, min_int64, max_int64 in *; lia.
Qed.

(* ---------------- FinishLargeFile ---------------- *)

Lemma slice_store_Some (s s' : list string) (i : Z) (v : string) :
  slice_store s i v = Some s' ->
  0 <= i < Z.of_nat (length s) /\ s' = <[Z.to_nat i := v]> s.
Proof.
  unfold slice_store. case_bool_decide; [|discriminate].
  intros [= <-]. split; [assumption|reflexivity].
Qed.

Lemma slice_store_None (s : list string) (i : Z) (v : string) :
  ~ (0 <= i < Z.of_nat (length s)) -> slice_store s i v = None.
Proof. unfold slice_store. intros Hi. by rewrite bool_decide_eq_false_2. Qed.

Lemma fill_hashes_length (entries : list (Z * string)) :
  forall s s', fill_hashes entries s = Some s' -> length s' = length s.
Proof.
  induction entries as [|[k v] rest IH]; simpl; intros s s'.
  - by intros [= <-].
  - destruct (slice_store s (k - 1) v) as [s1|] eqn:Hst; [|discriminate].
    intros Hrest. apply IH in Hrest. apply slice_store_Some in Hst as [_ ->].
    by rewrite length_insert in Hrest.
Qed.

(* One part number outside 1..len is enough for the loop to panic, wherever
   the iteration meets it. *)
Lemma fill_hashes_out_of_range (entries : list (Z * string)) :
  forall (s : list string) (k : Z) (v : string),
    (k, v) ∈ entries -> ~ (1 <= k <= Z.of_nat (length s)) ->
    fill_hashes entries s = None.
Proof.
  induction entries as [|[k0 v0] rest IH]; intros s k v Hin Hk.
  - by apply elem_of_nil in Hin.
  - simpl. destruct (slice_store s (k0 - 1) v0) as [s1|] eqn:Hst;
      [|reflexivity].
    apply slice_store_Some in Hst as [Hr ->].
    apply elem_of_cons in Hin as [[= -> ->]|Hin]; [lia|].
    apply (IH _ k v Hin). by rewrite length_insert.
Qed.

(* With distinct part numbers, all within 1..len, the loop ends with every
   digest at its position and the other positions untouched. *)
Lemma fill_hashes_in_range (entries : list (Z * string)) :
  forall s : list string,
    NoDup entries.*1 ->
    (forall k v, (k, v) ∈ entries -> 1 <= k <= Z.of_nat (length s)) ->
    exists s',
      fill_hashes entries s = Some s'
      /\ (forall k v, (k, v) ∈ entries -> s' !! Z.to_nat (k - 1) = Some v)
      /\ (forall p : Z, 1 <= p -> p ∉ entries.*1 ->
            s' !! Z.to_nat (p - 1) = s !! Z.to_nat (p - 1)).
Proof.
  induction entries as [|[k0 v0] rest IH]; intros s Hnd Hrange.
  - exists s. split; [reflexivity|]. split; [|reflexivity].
    intros k v Hin. by apply elem_of_nil in Hin.
  - simpl in *. apply NoDup_cons in Hnd as [Hk0 Hnd].
    assert (1 <= k0 <= Z.of_nat (length s)) as Hk0r
      by (apply (Hrange k0 v0), elem_of_cons; by left).
    unfold slice_store at 1. rewrite bool_decide_eq_true_2 by lia.
    destruct (IH (<[Z.to_nat (k0 - 1) := v0]> s) Hnd) as (s' & Hfill & Hin' & Hout').
    { intros k v Hin. rewrite length_insert. apply (Hrange k v).
      apply elem_of_cons. by right. }
    exists s'. split; [assumption|]. split.
    + intros k v Hin. apply elem_of_cons in Hin as [[= -> ->]|Hin].
      * rewrite Hout' by (assumption || lia).
        apply list_lookup_insert_eq. lia.
      * by apply Hin'.
    + intros p Hp Hnotin. apply not_elem_of_cons in Hnotin as [Hne Hnotin].
      rewrite Hout' by assumption.
      apply list_lookup_insert_ne. lia.
Qed.

Lemma entries_lookup (m : gmap Z string) (entries : list (Z * string)) :
  entries ≡ₚ map_to_list m ->
  NoDup entries.*1
  /\ (forall k v, (k, v) ∈ entries <-> m !! k = Some v).
Proof.
  intros Hperm. split.
  - rewrite Hperm. apply NoDup_fst_map_to_list.
  - intros k v. rewrite Hperm. apply elem_of_map_to_list.
Qed.

(* A map of K entries whose keys all lie in 1..K has every key of 1..K. *)
Lemma keys_in_range_dense (m : gmap Z string) :
  (forall k, is_Some (m !! k) -> 1 <= k <= Z.of_nat (size m)) -> dense m.
Proof.
  intros Hkeys.
  assert (dom m = list_to_set (seqZ 1 (Z.of_nat (size m)))) as Hdom.
  { apply set_subseteq_size_eq.
    - intros k Hk. apply elem_of_dom in Hk. apply elem_of_list_to_set.
      apply elem_of_seqZ. specialize (Hkeys k Hk). lia.
    - rewrite size_dom, size_list_to_set by apply NoDup_seqZ.
      rewrite length_seqZ. lia. }
  intros p. rewrite <- elem_of_dom, Hdom, elem_of_list_to_set, elem_of_seqZ.
  lia.
Qed.

(* A map that is not dense has a part number outside 1..K. *)
Lemma gap_key_out_of_range (m : gmap Z string) :
  ~ dense m ->
  exists k v, m !! k = Some v /\ ~ (1 <= k <= Z.of_nat (size m)).
Proof.
  intros Hnd.
  destruct (decide (set_Forall (fun k => 1 <= k <= Z.of_nat (size m)) (dom m)))
    as [Hall|Hex].
  - exfalso. apply Hnd, keys_in_range_dense. intros k Hk.
    apply Hall. by apply elem_of_dom.
  - apply not_set_Forall_Exists in Hex; [|apply _].
    destruct Hex as (k & Hk & Hout). apply elem_of_dom in Hk as [v Hv].
    exists k, v. split; assumption.
Qed.

(* The wrap-around of k - 1 at the least int does not produce a valid index
   either, so the index is written without it. *)
Lemma index_wrap_irrelevant (k len : Z) :
  is_int64 k -> 0 <= len <= max_int64 ->
  (0 <= wrap64 (k - 1) < len <-> 0 <= k - 1 < len).
Proof.
  unfold is_int64, min_int64, max_int64. intros Hk Hlen.
  destruct (decide (k = - 2 ^ 63)) as [->|Hne].
  - change (wrap64 (- 2 ^ 63 - 1)) with (2 ^ 63 - 1). lia.
  - rewrite wrap64_id; [reflexivity|].
    unfold is_int64, min_int64, max_int64. lia.
Qed.

Definition parts_1_3 : LargeFile :=
  mk_LargeFile "f" false 10 (<[1 := "d1"]> (<[3 := "d3"]> ∅)).

Definition net_accepts (req : b2FinishLargeFileRequest)
    : error + b2FinishLargeFileResponse :=
  inr (mk_FinishResp "name" "id").

(** C2, as stated, fails: with parts 1 and 3 recorded and part 2 missing,
    FinishLargeFile does not return a validation error, it panics on the
    slice store of part 3 (in either iteration order). *)
Lemma FinishLargeFile_gap_panics_not_error :
  ~ returns_error
      (FinishLargeFile net_accepts [(1, "d1"); (3, "d3")] parts_1_3).2
  /\ ~ returns_error
      (FinishLargeFile net_accepts [(3, "d3"); (1, "d1")] parts_1_3).2
  /\ [(1, "d1"); (3, "d3")] ≡ₚ map_to_list (hashes parts_1_3).
Proof.
  split; [|split].
  - intros [err Herr]. vm_compute in Herr. discriminate.
  - intros [err Herr]. vm_compute in Herr. discriminate.
  - unfold parts_1_3. simpl.
    rewrite map_to_list_insert by (by rewrite lookup_insert_ne).
    rewrite map_to_list_insert by reflexivity.
    by rewrite map_to_list_empty.
Qed.

(** C2 (amended): when the recorded part numbers are not exactly 1..K,
    FinishLargeFile, whatever the iteration order of the map, panics with
    an index out of range while it fills the digest array, and hands no
    request to the network. *)
Theorem FinishLargeFile_gap_panics
    (net : b2FinishLargeFileRequest -> error + b2FinishLargeFileResponse)
    (entries : list (Z * string)) (l : LargeFile) :
  entries ≡ₚ map_to_list (hashes l) ->
  ~ dense (hashes l) ->
  FinishLargeFile net entries l
  = ([], Panicked "runtime error: index out of range").
Proof.
  intros Hperm Hgap.
  destruct (gap_key_out_of_range _ Hgap) as (k & v & Hkv & Hout).
  unfold FinishLargeFile.
  rewrite (fill_hashes_out_of_range entries _ k v); [reflexivity| |].
  - by apply (entries_lookup _ _ Hperm).
  - by rewrite length_replicate.
Qed.

Lemma parts_1_3_not_dense : ~ dense (hashes parts_1_3).
Proof.
  intros Hd. destruct (proj2 (Hd 2)) as [v Hv].
  - unfold parts_1_3. simpl. rewrite !map_size_insert_None; [|done|done].
    rewrite map_size_empty. lia.
  - unfold parts_1_3 in Hv. simpl in Hv.
    rewrite !lookup_insert_ne in Hv by lia. by rewrite lookup_empty in Hv.
Qed.

Lemma FinishLargeFile_gap_panics_witness :
  FinishLargeFile net_accepts [(3, "d3"); (1, "d1")] parts_1_3
  = ([], Panicked "runtime error: index out of range").
Proof.
  apply (FinishLargeFile_gap_panics net_accepts [(3, "d3"); (1, "d1")]
           parts_1_3).
  - unfold parts_1_3. simpl.
    rewrite map_to_list_insert by (by rewrite lookup_insert_ne).
    rewrite map_to_list_insert by reflexivity.
    rewrite map_to_list_empty. apply perm_swap.
  - exact parts_1_3_not_dense.
Defined.

Lemma manifest_length (m : gmap Z string) : length (manifest m) = size m.
Proof. unfold manifest. rewrite length_fmap, length_seqZ. lia. Qed.

Lemma manifest_lookup (m : gmap Z string) (p : Z) :
  1 <= p <= Z.of_nat (size m) ->
  manifest m !! Z.to_nat (p - 1) = Some (default EmptyString (m !! p)).
Proof.
  intros Hp. unfold manifest. rewrite list_lookup_fmap.
  rewrite (lookup_seqZ_lt 1 _ (Z.to_nat (p - 1))) by lia. simpl.
  do 3 f_equal. lia.
Qed.

Lemma fill_hashes_dense (m : gmap Z string) (entries : list (Z * string)) :
  entries ≡ₚ map_to_list m -> dense m ->
  fill_hashes entries (replicate (size m) EmptyString) = Some (manifest m).
Proof.
  intros Hperm Hdense. destruct (entries_lookup _ _ Hperm) as [Hnd Hin].
  destruct (fill_hashes_in_range entries (replicate (size m) EmptyString) Hnd)
    as (s' & Hfill & Hs' & _).
  { intros k v Hkv. rewrite length_replicate. apply Hdense.
    apply Hin in Hkv. eauto. }
  rewrite Hfill. f_equal.
  pose proof (fill_hashes_length _ _ _ Hfill) as Hlen.
  rewrite length_replicate in Hlen.
  apply list_eq. intros i.
  destruct (decide (i < size m)%nat) as [Hi|Hi].
  - destruct (proj2 (Hdense (Z.of_nat i + 1))) as [d Hd]; [lia|].
    replace i with (Z.to_nat (Z.of_nat i + 1 - 1)) by lia.
    rewrite manifest_lookup by lia. rewrite Hd. simpl.
    apply Hs', Hin, Hd.
  - rewrite !lookup_ge_None_2; [reflexivity|rewrite manifest_length|]; lia.
Qed.

(** C4: when the recorded part numbers are exactly 1..K, FinishLargeFile
    fills, in whatever order the map is iterated, a digest array of length
    K with the digest of part p at position p - 1, submits exactly that
    request, and on a successful reply returns a File whose Size is the
    session's running total. *)
Theorem FinishLargeFile_dense
    (net : b2FinishLargeFileRequest -> error + b2FinishLargeFileResponse)
    (entries : list (Z * string)) (l : LargeFile) :
  entries ≡ₚ map_to_list (hashes l) ->
  dense (hashes l) ->
  let b2req := mk_FinishReq (lf_id l) (manifest (hashes l)) in
  fill_hashes entries (replicate (size (hashes l)) EmptyString)
  = Some (req_Hashes b2req)
  /\ length (req_Hashes b2req) = size (hashes l)
  /\ (forall p d, hashes l !! p = Some d ->
        req_Hashes b2req !! Z.to_nat (p - 1) = Some d)
  /\ FinishLargeFile net entries l
     = ([b2req],
        match net b2req with
        | inl err => Returned (None, Some err)
        | inr b2resp =>
            Returned (Some (mk_File (resp_Name b2resp) (lf_size l) EmptyString
                              (resp_FileID b2resp)), None)
        end)
  /\ (forall f, (FinishLargeFile net entries l).2 = Returned (Some f, None) ->
        Size f = lf_size l).
Proof.
  intros Hperm Hdense b2req.
  pose proof (fill_hashes_dense _ _ Hperm Hdense) as Hfill.
  assert (FinishLargeFile net entries l
     = ([b2req],
        match net b2req with
        | inl err => Returned (None, Some err)
        | inr b2resp =>
            Returned (Some (mk_File (resp_Name b2resp) (lf_size l) EmptyString
                              (resp_FileID b2resp)), None)
        end)) as Hfin.
  { unfold FinishLargeFile. rewrite Hfill. fold b2req.
    destruct (net b2req); reflexivity. }
  split; [exact Hfill|]. split; [apply manifest_length|]. split; [|split].
  - intros p d Hd. subst b2req. simpl.
    rewrite manifest_lookup by (apply Hdense; eauto). by rewrite Hd.
  - exact Hfin.
  - intros f. rewrite Hfin. simpl.
    destruct (net b2req); intros [= <-]. reflexivity.
Qed.

(* Parts 3, 1, 2 uploaded in that order. *)
Definition parts_3_1_2 : LargeFile :=
  mk_LargeFile "f" false 60
    (<[2 := "digestB"]> (<[1 := "digestA"]> (<[3 := "digestC"]> ∅))).

Lemma parts_3_1_2_uploaded :
  let l0 := mk_LargeFile "f" false 0 ∅ in
  ((UploadPart_run None "digestC" 30 3 l0).1
     ≫= fun l1 => (UploadPart_run None "digestA" 10 1 l1).1
     ≫= fun l2 => (UploadPart_run None "digestB" 20 2 l2).1)
  = Some parts_3_1_2.
Proof. reflexivity. Qed.

Lemma parts_3_1_2_entries :
  [(2, "digestB"); (1, "digestA"); (3, "digestC")]
  ≡ₚ map_to_list (hashes parts_3_1_2).
Proof.
  unfold parts_3_1_2. simpl.
  rewrite map_to_list_insert by (by rewrite !lookup_insert_ne).
  rewrite map_to_list_insert by (by rewrite !lookup_insert_ne).
  rewrite map_to_list_insert by reflexivity.
  by rewrite map_to_list_empty.
Qed.

Lemma parts_3_1_2_dense : dense (hashes parts_3_1_2).
Proof.
  apply keys_in_range_dense. intros k [v Hv].
  replace (size (hashes parts_3_1_2)) with 3%nat.
  - unfold parts_3_1_2 in Hv. simpl in Hv.
    destruct (decide (k = 2)); [lia|]. rewrite lookup_insert_ne in Hv by done.
    destruct (decide (k = 1)); [lia|]. rewrite lookup_insert_ne in Hv by done.
    destruct (decide (k = 3)); [lia|]. rewrite lookup_insert_ne in Hv by done.
    by rewrite lookup_empty in Hv.
  - unfold parts_3_1_2. simpl.
    rewrite !map_size_insert_None, map_size_empty;
      [reflexivity|done|by rewrite !lookup_insert_ne|by rewrite !lookup_insert_ne].
Qed.

Lemma FinishLargeFile_dense_witness :
  FinishLargeFile net_accepts
    [(2, "digestB"); (1, "digestA"); (3, "digestC")] parts_3_1_2
  = ([mk_FinishReq "f" ["digestA"; "digestB"; "digestC"]],
     Returned (Some (mk_File "name" 60 EmptyString "id"), None)).
Proof.
  pose proof (FinishLargeFile_dense net_accepts
                [(2, "digestB"); (1, "digestA"); (3, "digestC")] parts_3_1_2
                parts_3_1_2_entries parts_3_1_2_dense) as H.
  simpl in H. destruct H as (_ & _ & _ & H & _). rewrite H.
  vm_compute. reflexivity.
Defined.

(* ---------------- makeRequest and mkErr ---------------- *)

Lemma Action_b2err (e : b2err) :
  Action (Some (ErrB2 e))
  = if bool_decide (0 < retry e) then Retry
    else if is_5xx (code e) && is_upload (method e) then AttemptNewUpload
    else by_status e.
Proof.
  simpl. unfold by_status, is_upload.
  rewrite is_5xx_code, retry_codes.
  replace (bool_decide (retry e > 0)) with (bool_decide (0 < retry e))
    by (apply bool_decide_ext; lia).
  destruct (bool_decide (0 < retry e)); [reflexivity|].
  destruct (is_5xx (code e) && _); [reflexivity|].
  destruct (bool_decide (code e = 401)).
  - destruct (bool_decide (method e = _)); reflexivity.
  - destruct (bool_decide (code e ∈ _)); reflexivity.
Qed.

Section HttpFacts.
Variable canon : string -> string.
Variable Unmarshal_errMsg : list Byte.byte -> string + string.
Variable ParseInt : string -> string + Z.
Variable NewRequest_error : string -> string -> option string.
Variable range_map : gmap string string -> list (string * string).

Local Abbreviation makeRequest' :=
  (makeRequest canon Unmarshal_errMsg ParseInt NewRequest_error range_map).
Local Abbreviation build_request' :=
  (build_request canon NewRequest_error range_map).
Local Abbreviation mkErr' := (mkErr canon Unmarshal_errMsg ParseInt).

Lemma Header_Get_Set (k v : string) (h : Header) :
  Header_Get canon k (Header_Set canon k v h) = v.
Proof. unfold Header_Get, Header_Set. by rewrite lookup_insert_eq. Qed.

Lemma Header_Get_Set_ne (k k' v : string) (h : Header) :
  canon k <> canon k' ->
  Header_Get canon k' (Header_Set canon k v h) = Header_Get canon k' h.
Proof.
  intros Hne. unfold Header_Get, Header_Set. by rewrite lookup_insert_ne.
Qed.

(* The request makeRequest builds. *)
Lemma build_request_inr (g g' : Globals) (method verb url : string)
    (b2req : option (string + list Byte.byte))
    (headers : gmap string string) (body : option (list Byte.byte))
    (req : Request) :
  build_request' g method verb url b2req headers body = inr (g', req) ->
  g' = mk_Globals (wrap64 (reqID g + 1)) (FailSomeUploads g)
  /\ rq_verb req = verb /\ rq_url req = url
  /\ rq_Header req
     = (let h := Header_Set canon "X-Blazer-Method" method
                   (Header_Set canon "X-Blazer-Request-ID"
                      (fmt_d (wrap64 (reqID g + 1)))
                      (set_headers canon range_map headers ∅)) in
        if FailSomeUploads g
        then Header_Set canon "X-Bz-Test-Mode" "fail_some_uploads" h
        else h)
  /\ rq_body req = match b2req with
                   | Some (inr enc) => Some enc
                   | _ => body
                   end.
Proof.
  unfold build_request. intros Hb.
  destruct b2req as [[err|enc]|]; try discriminate;
    destruct (NewRequest_error verb url); by simplify_eq.
Qed.

(* makeRequest sent req. *)
Lemma makeRequest_sent {B : Type} (net : network) (g g' : Globals)
    (method verb url : string) (b2req : option (string + list Byte.byte))
    (b2resp : option ((string + list Byte.byte) -> string + B))
    (headers : gmap string string) (body : option (list Byte.byte))
    (req : Request) (result : option error * option B) :
  makeRequest' net g method verb url b2req b2resp headers body
  = (g', Some req, result) ->
  build_request' g method verb url b2req headers body = inr (g', req).
Proof.
  unfold makeRequest. intros Hreq.
  destruct (build_request _ _ _ _ _ _ _ _ _ _) as [err|[g1 req1]] eqn:Hb;
    [by simplify_eq|].
  destruct (net req1) as [[err|[[code header] rbody]]|];
    try (by simplify_eq).
  case_bool_decide; [by simplify_eq|].
  destruct b2resp as [decode|]; [|by simplify_eq].
  destruct (decode rbody); by simplify_eq.
Qed.

Lemma build_request_method (g g' : Globals) (method verb url : string)
    (b2req : option (string + list Byte.byte))
    (headers : gmap string string) (body : option (list Byte.byte))
    (req : Request) :
  own_keys_differ canon ->
  build_request' g method verb url b2req headers body = inr (g', req) ->
  Header_Get canon "X-Blazer-Method" (rq_Header req) = method.
Proof.
  intros (H1 & H2 & H3) Hb.
  apply build_request_inr in Hb as (_ & _ & _ & -> & _).
  destruct (FailSomeUploads g); simpl.
  - by rewrite Header_Get_Set_ne, Header_Get_Set.
  - by rewrite Header_Get_Set.
Qed.

(** X9: the request makeRequest sends carries the method name it was
    given in X-Blazer-Method and the incremented request counter in
    X-Blazer-Request-ID, whatever headers the caller passed, in whatever
    order the map yields them; X-Bz-Test-Mode is fail_some_uploads when
    FailSomeUploads is set; the counter reqID has grown by one (as an
    int64), and verb and url are the ones given. *)
Theorem makeRequest_stamps {B : Type} (net : network) (g g' : Globals)
    (method verb url : string) (b2req : option (string + list Byte.byte))
    (b2resp : option ((string + list Byte.byte) -> string + B))
    (headers : gmap string string) (body : option (list Byte.byte))
    (req : Request) (result : option error * option B) :
  own_keys_differ canon ->
  makeRequest' net g method verb url b2req b2resp headers body
  = (g', Some req, result) ->
  Header_Get canon "X-Blazer-Method" (rq_Header req) = method
  /\ Header_Get canon "X-Blazer-Request-ID" (rq_Header req)
     = fmt_d (wrap64 (reqID g + 1))
  /\ Header_Get canon "X-Bz-Test-Mode" (rq_Header req)
     = (if FailSomeUploads g then "fail_some_uploads"
        else Header_Get canon "X-Bz-Test-Mode" (set_headers canon range_map headers ∅))
  /\ reqID g' = wrap64 (reqID g + 1)
  /\ FailSomeUploads g' = FailSomeUploads g
  /\ rq_verb req = verb /\ rq_url req = url.
Proof.
  intros Hkeys Hreq. apply makeRequest_sent in Hreq.
  split; [by eapply build_request_method|].
  destruct Hkeys as (H1 & H2 & H3).
  apply build_request_inr in Hreq as (-> & Hv & Hu & -> & _).
  simpl. repeat (split; [|done]).
  destruct (FailSomeUploads g).
  - rewrite Header_Get_Set_ne, Header_Get_Set_ne, !Header_Get_Set by done.
    done.
  - rewrite Header_Get_Set_ne, Header_Get_Set by done.
    rewrite !Header_Get_Set_ne by done. done.
Qed.

(* A reply with a status other than 200 becomes the error of mkErr. *)
Lemma makeRequest_not_200 {B : Type} (net : network) (g g' : Globals)
    (method verb url : string) (b2req : option (string + list Byte.byte))
    (b2resp : option ((string + list Byte.byte) -> string + B))
    (headers : gmap string string) (body : option (list Byte.byte))
    (req : Request) (result : option error * option B)
    (code : Z) (header : Header) (rbody : string + list Byte.byte) :
  makeRequest' net g method verb url b2req b2resp headers body
  = (g', Some req, result) ->
  net req = Some (inr (code, header, rbody)) -> code <> 200 ->
  result = (Some (mkErr' (mk_Response code header rbody req)), None).
Proof.
  intros Hreq Hnet Hcode. pose proof (makeRequest_sent _ _ _ _ _ _ _ _ _ _ _ _ Hreq) as Hb.
  unfold makeRequest in Hreq. rewrite Hb, Hnet in Hreq.
  rewrite bool_decide_eq_true_2 in Hreq by done. by simplify_eq.
Qed.

(** X10: when the reply has a status other than 200 and its body
    cannot be read, or is not the JSON of an error message, or its
    Retry-After header is not a number, makeRequest returns that library
    error and not a b2err: Action answers Punt and Backoff 0 for it,
    whatever the status. *)
Theorem makeRequest_malformed_reply {B : Type} (net : network)
    (g g' : Globals) (method verb url : string)
    (b2req : option (string + list Byte.byte))
    (b2resp : option ((string + list Byte.byte) -> string + B))
    (headers : gmap string string) (body : option (list Byte.byte))
    (req : Request) (result : option error * option B)
    (code : Z) (header : Header) (rbody : string + list Byte.byte)
    (descr : string) :
  makeRequest' net g method verb url b2req b2resp headers body
  = (g', Some req, result) ->
  net req = Some (inr (code, header, rbody)) -> code <> 200 ->
  (rbody = inl descr
   \/ (exists data, rbody = inr data /\ Unmarshal_errMsg data = inl descr)
   \/ (exists data msg, rbody = inr data
         /\ Unmarshal_errMsg data = inr msg
         /\ Header_Get canon "Retry-After" header <> ""
         /\ ParseInt (Header_Get canon "Retry-After" header) = inl descr)) ->
  result = (Some (ErrOther descr), None)
  /\ Action (Some (ErrOther descr)) = Punt
  /\ Backoff (Some (ErrOther descr)) = 0.
Proof.
  intros Hreq Hnet Hcode Hbad.
  rewrite (makeRequest_not_200 _ _ _ _ _ _ _ _ _ _ _ _ _ _ _ Hreq Hnet Hcode).
  split; [|done]. f_equal. f_equal. unfold mkErr. simpl.
  destruct Hbad as [->|[(data & -> & ->)|(data & msg & -> & -> & Hne & Hp)]];
    try done.
  by rewrite bool_decide_eq_true_2, Hp.
Qed.

(** X11: when the reply has a status other than 200, a body that
    decodes to a message, and a Retry-After header that is absent or a
    number r (0 when absent), makeRequest returns the b2err with that
    message, the method name makeRequest was called with, r and the status;
    Action on it is Retry for r > 0, else AttemptNewUpload for a 5xx status
    of b2_upload_file or b2_upload_part, else decided by the status and the
    method; Backoff is r seconds. *)
Theorem makeRequest_b2err {B : Type} (net : network)
    (g g' : Globals) (method verb url : string)
    (b2req : option (string + list Byte.byte))
    (b2resp : option ((string + list Byte.byte) -> string + B))
    (headers : gmap string string) (body : option (list Byte.byte))
    (req : Request) (result : option error * option B)
    (code : Z) (header : Header) (data : list Byte.byte)
    (msg : string) (r : Z) :
  own_keys_differ canon ->
  makeRequest' net g method verb url b2req b2resp headers body
  = (g', Some req, result) ->
  net req = Some (inr (code, header, inr data)) -> code <> 200 ->
  Unmarshal_errMsg data = inr msg ->
  (Header_Get canon "Retry-After" header = "" /\ r = 0)
  \/ (Header_Get canon "Retry-After" header <> ""
      /\ ParseInt (Header_Get canon "Retry-After" header) = inr r) ->
  let e := mk_b2err msg method r code in
  result = (Some (ErrB2 e), None)
  /\ Action (Some (ErrB2 e))
     = (if bool_decide (0 < r) then Retry
        else if is_5xx code && is_upload method then AttemptNewUpload
        else by_status e)
  /\ Backoff (Some (ErrB2 e)) = wrap64 (r * Second).
Proof.
  intros Hkeys Hreq Hnet Hcode Hmsg Hretry e.
  rewrite (makeRequest_not_200 _ _ _ _ _ _ _ _ _ _ _ _ _ _ _ Hreq Hnet Hcode).
  split; [|split; [by rewrite Action_b2err|done]].
  f_equal. f_equal. unfold mkErr. simpl. rewrite Hmsg.
  rewrite (build_request_method _ _ _ _ _ _ _ _ _ Hkeys
             (makeRequest_sent _ _ _ _ _ _ _ _ _ _ _ _ Hreq)).
  destruct Hretry as [[Hr ->]|[Hr Hp]].
  - by rewrite bool_decide_eq_false_2 by (intros Hne; by apply Hne).
  - by rewrite bool_decide_eq_true_2, Hp.
Qed.

(** X12: makeRequest returns a nil error exactly when it built and
    sent the request, the reply arrived with status 200, and, with a b2resp
    to fill, the body decoded into it; the value in b2resp is then the
    decoded one.  Every other status, 201 or 206 included, is an error. *)
Theorem makeRequest_nil_iff {B : Type} (net : network)
    (g g' : Globals) (method verb url : string)
    (b2req : option (string + list Byte.byte))
    (b2resp : option ((string + list Byte.byte) -> string + B))
    (headers : gmap string string) (body : option (list Byte.byte))
    (req : option Request) (v : option B) :
  makeRequest' net g method verb url b2req b2resp headers body
  = (g', req, (None, v))
  <-> exists req' header rbody,
        req = Some req'
        /\ build_request' g method verb url b2req headers body
           = inr (g', req')
        /\ net req' = Some (inr (200, header, rbody))
        /\ match b2resp with
           | None => v = None
           | Some decode => exists val, decode rbody = inr val /\ v = Some val
           end.
Proof.
  unfold makeRequest. split.
  - intros Hreq.
    destruct (build_request _ _ _ _ _ _ _ _ _ _) as [err|[g1 req1]] eqn:Hb;
      [by simplify_eq|].
    destruct (net req1) as [[err|[[code header] rbody]]|] eqn:Hnet;
      try (by simplify_eq).
    case_bool_decide as Hcode; [by simplify_eq|].
    assert (code = 200) as -> by (destruct (decide (code = 200)); done).
    exists req1, header, rbody.
    destruct b2resp as [decode|].
    + destruct (decode rbody) as [err|val] eqn:Hdec; simplify_eq.
      repeat (split; [done|]). by exists val.
    + by simplify_eq.
  - intros (req' & header & rbody & -> & -> & Hnet & Hresp). rewrite Hnet.
    rewrite bool_decide_eq_false_2 by (intros Hne; by apply Hne).
    destruct b2resp as [decode|].
    + destruct Hresp as (val & -> & ->). done.
    + by subst.
Qed.

End HttpFacts.

(* ---------------- the calls of the API ---------------- *)

Section Wrappers.
Variable canon : string -> string.
Variable Unmarshal_errMsg : list Byte.byte -> string + string.
Variable ParseInt : string -> string + Z.
Variable NewRequest_error : string -> string -> option string.
Variable range_map : gmap string string -> list (string * string).
Context `{Marshal b2CreateBucketRequest} `{Decode string}.

Local Abbreviation makeRequest' :=
  (makeRequest canon Unmarshal_errMsg ParseInt NewRequest_error range_map).

(* With a b2resp to fill, makeRequest returns a value exactly when it
   returns no error. *)
Lemma makeRequest_value {B : Type} (net : network) (g g' : Globals)
    (method verb url : string) (b2req : option (string + list Byte.byte))
    (decode : (string + list Byte.byte) -> string + B)
    (headers : gmap string string) (body : option (list Byte.byte))
    (req : option Request) (err : option error) (v : option B) :
  makeRequest' net g method verb url b2req (Some decode) headers body
  = (g', req, (err, v)) ->
  (err = None <-> is_Some v).
Proof.
  unfold makeRequest. intros Hreq.
  destruct (build_request _ _ _ _ _ _ _ _ _ _) as [e|[g1 req1]];
    [simplify_eq; split; [done|by intros [? ?]]|].
  destruct (net req1) as [[e|[[code header] rbody]]|];
    try (simplify_eq; split; [done|by intros [? ?]]).
  case_bool_decide; [simplify_eq; split; [done|by intros [? ?]]|].
  destruct (decode rbody); simplify_eq; split; try done; by intros [? ?].
Qed.

(** X13: the request CreateBucket sends is a POST to
    apiURI/b2api/v1/b2_create_bucket whose body is the JSON of the account
    id, the name and a bucket type that is allPublic when that was asked
    for and allPrivate for every other string; CreateBucket returns a
    Bucket exactly when it returns no error, and the Bucket has the name
    asked for. *)
Theorem CreateBucket_result (net : network) (g g' : Globals) (b : B2)
    (name btype : string) (req : option Request) (bucket : option Bucket)
    (err : option error) :
  CreateBucket canon Unmarshal_errMsg ParseInt NewRequest_error range_map
    net g b
    name btype = (g', req, (bucket, err)) ->
  (forall rq, req = Some rq ->
     exists t enc,
       (btype = "allPublic" /\ t = "allPublic"
        \/ btype <> "allPublic" /\ t = "allPrivate")
       /\ json_Marshal (mk_CreateBucketReq (accountID b) name t) = inr enc
       /\ rq_body rq = Some enc
       /\ rq_verb rq = "POST"
       /\ rq_url rq = apiURI b +:+ "/b2api/v1/b2_create_bucket")
  /\ (err = None <-> is_Some bucket)
  /\ (forall bk, bucket = Some bk -> bk_Name bk = name).
Proof.
  unfold CreateBucket. intros Hcreate.
  set (t := if bool_decide (btype <> "allPublic") then "allPrivate"
            else btype) in Hcreate.
  assert (btype = "allPublic" /\ t = "allPublic"
          \/ btype <> "allPublic" /\ t = "allPrivate") as Ht.
  { unfold t. case_bool_decide as Hb; [by right|left].
    destruct (decide (btype = "allPublic")); done. }
  destruct (makeRequest _ _ _ _ _ _ _ _ _ _ _ _ _ _)
    as [[g1 req1] [err1 v1]] eqn:Hreq.
  pose proof (makeRequest_value _ _ _ _ _ _ _ _ _ _ _ _ _ Hreq) as Hval.
  assert (req = req1 /\ (err = None <-> is_Some bucket)
          /\ (forall bk, bucket = Some bk -> bk_Name bk = name))
    as (-> & Herr & Hname).
  { destruct Hval as [Hv1 Hv2].
    destruct err1 as [e|], v1 as [id|]; simplify_eq.
    - split; [done|]. split; [split; [done|by intros [? ?]]|done].
    - split; [done|]. split; [split; [done|by intros [? ?]]|done].
    - split; [done|]. split; [split; [by eauto|done]|by intros bk [= <-]].
    - by destruct (Hv1 eq_refl). }
  split; [|by split].
  intros rq ->. exists t.
  pose proof (makeRequest_sent _ _ _ _ _ _ _ _ _ _ _ _ _ _ _ _ _ Hreq) as Hb.
  pose proof Hb as Hb'.
  apply build_request_inr in Hb' as (_ & Hv & Hu & _ & Hbody).
  destruct (json_Marshal (mk_CreateBucketReq (accountID b) name t))
    as [e|enc] eqn:Hm.
  { unfold build_request in Hb. discriminate. }
  exists enc. split; [exact Ht|]. split; [done|]. split; [exact Hbody|].
  split; [exact Hv|]. rewrite Hu. reflexivity.
Qed.

(* The keys of the info headers differ from the fixed header keys. *)
Lemma info_key_fresh (k : string) :
  "X-Bz-Info-" +:+ k <> "Authorization"
  /\ "X-Bz-Info-" +:+ k <> "X-Bz-File-Name"
  /\ "X-Bz-Info-" +:+ k <> "Content-Type"
  /\ "X-Bz-Info-" +:+ k <> "Content-Length"
  /\ "X-Bz-Info-" +:+ k <> "X-Bz-Content-Sha1".
Proof. repeat split; simpl; discriminate. Qed.

Lemma info_key_inj (k k' : string) :
  "X-Bz-Info-" +:+ k = "X-Bz-Info-" +:+ k' -> k = k'.
Proof. intros Heq. simpl in Heq. by simplify_eq. Qed.

(** X14: the headers UploadFile passes on hold the five fixed entries
    (Authorization, X-Bz-File-Name, Content-Type, Content-Length,
    X-Bz-Content-Sha1) with the values of the call, whatever the info map
    holds, and for every key k exactly the entry of info under
    X-Bz-Info-k; there are 5 + len(info) headers. *)
Theorem UploadFile_headers_kept (token name contentType sha1 : string)
    (size : Z) (info : gmap string string) :
  range_map info ≡ₚ map_to_list info ->
  let h := UploadFile_headers range_map token name contentType sha1 size
             info in
  h !! "Authorization" = Some token
  /\ h !! "X-Bz-File-Name" = Some name
  /\ h !! "Content-Type" = Some contentType
  /\ h !! "Content-Length" = Some (fmt_d size)
  /\ h !! "X-Bz-Content-Sha1" = Some sha1
  /\ (forall k, h !! ("X-Bz-Info-" +:+ k) = info !! k)
  /\ stdpp.base.size h = (5 + stdpp.base.size info)%nat.
Proof.
  intros Hperm h. unfold UploadFile_headers in h.
  set (h0 := <["Authorization" := token]> _) in h.
  assert (NoDup (range_map info).*1) as Hnd.
  { rewrite Hperm. apply NoDup_fst_map_to_list. }
  assert (forall (l : list (string * string)) (m : gmap string string),
            NoDup l.*1 ->
            (forall k v, (k, v) ∈ l -> m !! ("X-Bz-Info-" +:+ k) = None) ->
            let m' := foldl (fun h kv => <[("X-Bz-Info-" +:+ kv.1) := kv.2]> h)
                        m l in
            (forall key, (forall k v, (k, v) ∈ l -> key <> "X-Bz-Info-" +:+ k) ->
               m' !! key = m !! key)
            /\ (forall k v, (k, v) ∈ l ->
                  m' !! ("X-Bz-Info-" +:+ k) = Some v)
            /\ stdpp.base.size m' = (stdpp.base.size m + length l)%nat)
    as Hfold.
  { induction l as [|[k v] l IH]; intros m Hl Hfresh; simpl.
    - split; [done|]. split; [|lia].
      intros k v Hin. by apply elem_of_nil in Hin.
    - csimpl in Hl. apply NoDup_cons in Hl as [Hk Hl].
      assert (forall k' v', (k', v') ∈ l -> k' <> k) as Hne.
      { intros k' v' Hin ->. apply Hk. apply list_elem_of_fmap.
        by exists (k, v'). }
      destruct (IH (<[("X-Bz-Info-" +:+ k) := v]> m) Hl) as (H1 & H2 & H3).
      { intros k' v' Hin. rewrite lookup_insert_ne.
        - apply (Hfresh k' v'). by right.
        - intros Heq. apply info_key_inj in Heq. by eapply Hne. }
      split; [|split].
      + intros key Hkey. rewrite H1.
        * rewrite lookup_insert_ne; [done|]. intros <-.
          by apply (Hkey k v); [left|].
        * intros k' v' Hin. apply (Hkey k' v'). by right.
      + intros k' v' Hin. apply elem_of_cons in Hin as [[= -> ->]|Hin];
          [|by apply H2].
        rewrite H1; [by rewrite lookup_insert_eq|].
        intros k' v' Hin Heq. apply info_key_inj in Heq.
        by eapply Hne.
      + rewrite H3, map_size_insert_None; [simpl; lia|].
        apply (Hfresh k v). by left. }
  assert (forall k, h0 !! ("X-Bz-Info-" +:+ k) = None) as Hnone.
  { intros k. destruct (info_key_fresh k) as (H1 & H2 & H3 & H4 & H5).
    unfold h0. by rewrite !lookup_insert_ne, lookup_empty. }
  destruct (Hfold (range_map info) h0 Hnd) as (Hkeep & Hinfo & Hsize);
    [by eauto|].
  fold h in Hkeep, Hinfo, Hsize.
  assert (forall key, (forall k, key <> "X-Bz-Info-" +:+ k) ->
            h !! key = h0 !! key) as Hkeep'.
  { intros key Hkey. apply Hkeep. intros k v _. apply Hkey. }
  split; [rewrite Hkeep'; [done|intros k; apply not_eq_sym, info_key_fresh]|].
  split; [rewrite Hkeep'; [done|intros k; apply not_eq_sym, info_key_fresh]|].
  split; [rewrite Hkeep'; [done|intros k; apply not_eq_sym, info_key_fresh]|].
  split; [rewrite Hkeep'; [done|intros k; apply not_eq_sym, info_key_fresh]|].
  split; [rewrite Hkeep'; [done|intros k; apply not_eq_sym, info_key_fresh]|].
  split.
  - intros k. destruct (info !! k) as [v|] eqn:Hk.
    + apply Hinfo. rewrite Hperm. by apply elem_of_map_to_list.
    + rewrite Hkeep; [apply Hnone|].
      intros k' v' Hin Heq. apply info_key_inj in Heq as <-.
      rewrite Hperm in Hin. apply elem_of_map_to_list in Hin. congruence.
  - rewrite Hsize, (Permutation_length Hperm), length_map_to_list.
    unfold h0.
    rewrite !map_size_insert_None, map_size_empty; [lia|..];
      by rewrite ?lookup_insert_ne, lookup_empty.
Qed.

(** X15: UploadPart on a reply with status 200 records the digest
    under the part number and adds the size, returning the size and a nil
    error; on a reply with a 5xx status, an error message in the body and
    no Retry-After it leaves the LargeFile as it was and returns 0 and a
    b2err of method b2_upload_part, for which Action answers
    AttemptNewUpload. *)
Theorem UploadPart_call_outcome (net : network) (g g' : Globals)
    (url token sha1 : string) (r : list Byte.byte) (size index : Z)
    (l : LargeFile) (rq : Request)
    (res : option LargeFile * (Z * option error))
    (code : Z) (header : Header) (rbody : string + list Byte.byte) :
  own_keys_differ canon -> mu l = false ->
  UploadPart_call canon Unmarshal_errMsg ParseInt NewRequest_error range_map
    net g url token sha1 r size index l = (g', Some rq, res) ->
  net rq = Some (inr (code, header, rbody)) ->
  (code = 200 ->
     res = (Some (mk_LargeFile (lf_id l) false (wrap64 (lf_size l + size))
                    (<[index := sha1]> (hashes l))),
            (size, None)))
  /\ (500 <= code < 600 ->
      forall data msg,
        rbody = inr data -> Unmarshal_errMsg data = inr msg ->
        Header_Get canon "Retry-After" header = "" ->
        let err := ErrB2 (mk_b2err msg "b2_upload_part" 0 code) in
        res = (Some l, (0, Some err))
        /\ Action (Some err) = AttemptNewUpload).
Proof.
  intros Hkeys Hmu Hcall Hnet. unfold UploadPart_call in Hcall.
  destruct (makeRequest _ _ _ _ _ _ _ _ _ _ _ _ _ _)
    as [[g1 req1] [err1 v1]] eqn:Hreq.
  injection Hcall as -> -> <-.
  split.
  - intros ->.
    pose proof (makeRequest_sent _ _ _ _ _ _ _ _ _ _ _ _ _ _ _ _ _ Hreq) as Hb.
    unfold makeRequest in Hreq. rewrite Hb, Hnet in Hreq.
    simpl in Hreq. injection Hreq as <- _.
    by apply UploadPart_run_ok.
  - intros Hcode data msg -> Hmsg Hretry err.
    assert (code <> 200) as Hne by lia.
    pose proof (makeRequest_not_200 _ _ _ _ _ _ _ _ _ _ _ _ _ _ _ _ _ _ _ _
                  Hreq Hnet Hne) as Herr.
    injection Herr as -> _.
    assert (mkErr canon Unmarshal_errMsg ParseInt
              (mk_Response code header (inr data) rq) = err) as ->.
    { assert (Header_Get canon "X-Blazer-Method" (rq_Header rq)
              = "b2_upload_part") as Hm.
      { eapply build_request_method; [exact Hkeys|].
        eapply makeRequest_sent. exact Hreq. }
      unfold mkErr. simpl. rewrite Hmsg, Hretry, Hm. done. }
    split; [done|]. unfold err. rewrite Action_b2err. simpl.
    unfold is_5xx. rewrite !bool_decide_eq_true_2 by lia. done.
Qed.

End Wrappers.

(* ---------------- a large-file session ---------------- *)

Lemma upload_parts_ok (parts : list (Z * string * Z)) :
  forall l, mu l = false ->
    upload_parts parts l
    = Some (mk_LargeFile (lf_id l) false
              (if decide (parts = []) then lf_size l
               else wrap64 (lf_size l + total_size parts))
              (foldl (fun m p => <[p.1.1 := p.1.2]> m) (hashes l) parts)).
Proof.
  induction parts as [|[[index sha1] size] parts IH]; intros l Hmu.
  - simpl. destruct l; simpl in *. by subst.
  - cbn [upload_parts]. rewrite UploadPart_run_ok by done.
    cbn [fst]. rewrite IH by done. simpl. do 2 f_equal.
    destruct (decide (parts = [])) as [->|Hne]; simpl.
    + by rewrite Z.add_0_r.
    + rewrite wrap64_add. f_equal. lia.
Qed.

Lemma record_parts_lookup (parts : list (Z * string * Z)) :
  forall (m : gmap Z string),
    NoDup parts.*1.*1 ->
    let m' := foldl (fun m p => <[p.1.1 := p.1.2]> m) m parts in
    (forall index sha1 size, (index, sha1, size) ∈ parts ->
       m' !! index = Some sha1)
    /\ (forall k, k ∉ parts.*1.*1 -> m' !! k = m !! k).
Proof.
  induction parts as [|[[index sha1] size] parts IH]; intros m Hnd; simpl.
  - split; [|done]. intros i s z Hin. by apply elem_of_nil in Hin.
  - csimpl in Hnd. apply NoDup_cons in Hnd as [Hnot Hnd].
    destruct (IH (<[index := sha1]> m) Hnd) as [H1 H2].
    split.
    + intros i s z Hin. apply elem_of_cons in Hin as [[= -> -> ->]|Hin].
      * by rewrite H2, lookup_insert_eq.
      * by eapply H1.
    + intros k Hk. apply not_elem_of_cons in Hk as [Hne Hk].
      rewrite H2 by done. by rewrite lookup_insert_ne.
Qed.

(** X16: after the parts 1..K of a new large file were uploaded, each
    once and in any order, with sizes that sum to an int64,
    FinishLargeFile sends one request with the file id and K digests, the
    digest of part p at position p - 1, whatever the order in which the map
    yields the parts; the File it returns on success has the sum of the
    part sizes as its Size. *)
Theorem upload_then_finish
    (net : b2FinishLargeFileRequest -> error + b2FinishLargeFileResponse)
    (ID : string) (parts : list (Z * string * Z))
    (entries : list (Z * string)) (l : LargeFile) :
  parts.*1.*1 ≡ₚ seqZ 1 (Z.of_nat (length parts)) ->
  Forall (fun p => 0 <= p.2) parts -> total_size parts <= max_int64 ->
  upload_parts parts (new_LargeFile ID) = Some l ->
  entries ≡ₚ map_to_list (hashes l) ->
  exists Hashes,
    length Hashes = length parts
    /\ (forall index sha1 size, (index, sha1, size) ∈ parts ->
          Hashes !! Z.to_nat (index - 1) = Some sha1)
    /\ FinishLargeFile net entries l
       = ([mk_FinishReq ID Hashes],
          match net (mk_FinishReq ID Hashes) with
          | inl err => Returned (None, Some err)
          | inr b2resp =>
              Returned (Some (mk_File (resp_Name b2resp) (total_size parts)
                                EmptyString (resp_FileID b2resp)), None)
          end).
Proof.
  intros Hperm Hpos Hmax Hup Hentries.
  rewrite upload_parts_ok in Hup by done. injection Hup as <-.
  simpl in *.
  set (m := foldl (fun m p => <[p.1.1 := p.1.2]> m) ∅ parts) in *.
  assert (NoDup parts.*1.*1) as Hnd by (rewrite Hperm; apply NoDup_seqZ).
  destruct (record_parts_lookup parts ∅ Hnd) as [Hin Hout]. fold m in Hin, Hout.
  assert (forall k, is_Some (m !! k) <-> 1 <= k <= Z.of_nat (length parts))
    as Hkeys.
  { intros k. destruct (decide (k ∈ parts.*1.*1)) as [Hk|Hk].
    - split.
      + intros _. rewrite Hperm in Hk. apply elem_of_seqZ in Hk. lia.
      + intros _. apply list_elem_of_fmap in Hk as ([i s] & -> & Hk).
        apply list_elem_of_fmap in Hk as ([[i' s'] z] & [= <- <-] & Hk).
        simpl. rewrite (Hin _ _ _ Hk). by eexists.
    - rewrite (Hout k Hk), lookup_empty. split; [by intros [? ?]|].
      intros Hr. exfalso. apply Hk. rewrite Hperm. apply elem_of_seqZ. lia. }
  assert (size m = length parts) as Hsize.
  { rewrite <- size_dom.
    assert (dom m = list_to_set (seqZ 1 (Z.of_nat (length parts)))) as ->.
    { apply set_eq. intros k.
      rewrite elem_of_dom, Hkeys, elem_of_list_to_set, elem_of_seqZ. lia. }
    rewrite size_list_to_set by apply NoDup_seqZ. rewrite length_seqZ. lia. }
  assert (dense m) as Hdense.
  { intros p. rewrite Hsize. apply Hkeys. }
  assert (0 <= total_size parts) as Htot.
  { clear -Hpos. induction Hpos as [|p ps Hp _ IH]; simpl; lia. }
  exists (manifest m).
  split; [by rewrite manifest_length|]. split.
  - intros index sha1 sz Hp.
    rewrite manifest_lookup, (Hin _ _ _ Hp); [done|].
    rewrite Hsize. apply Hkeys. rewrite (Hin _ _ _ Hp). by eexists.
  - unfold FinishLargeFile. simpl.
    rewrite (fill_hashes_dense m entries Hentries Hdense).
    destruct (net _) as [err|b2resp]; [done|].
    do 4 f_equal.
    destruct (decide (parts = [])) as [->|_]; [done|].
    rewrite Z.add_0_l, wrap64_id; [done|].
    unfold is_int64, min_int64, max_int64 in *. lia.
Qed.

(** X17: when the record-keeping of two UploadPart calls runs
    interleaved on a LargeFile whose mutex is free, the only interleavings
    that run are the two in which one call's Lock..Unlock block comes
    wholly before the other's; both digests are stored (the later call's
    for equal part numbers), the size has grown by both sizes, every write
    happened under the mutex, and the mutex is free again. *)
Theorem UploadPart_interleaved (sha_a sha_b : string)
    (size_a size_b index_a index_b : Z) (os : list op) (l l' : LargeFile) :
  mu l = false ->
  interleave (UploadPart_record sha_a size_a index_a)
    (UploadPart_record sha_b size_b index_b) os ->
  run_ops os l = Some l' ->
  ((os = UploadPart_record sha_a size_a index_a
           ++ UploadPart_record sha_b size_b index_b
    /\ hashes l' = <[index_b := sha_b]> (<[index_a := sha_a]> (hashes l)))
   \/ (os = UploadPart_record sha_b size_b index_b
              ++ UploadPart_record sha_a size_a index_a
       /\ hashes l' = <[index_a := sha_a]> (<[index_b := sha_b]> (hashes l))))
  /\ writes_locked false os = true
  /\ mu l' = false /\ lf_id l' = lf_id l
  /\ lf_size l' = wrap64 (lf_size l + size_a + size_b).
Proof.
  intros Hmu Hil Hrun. destruct l as [id m sz hs]. simpl in Hmu. subst m.
  unfold UploadPart_record in *.
  repeat match goal with
         | H : interleave _ _ _ |- _ =>
             inversion H; clear H; subst; simpl in Hrun; try discriminate
         end.
  all: injection Hrun as <-; simpl.
  all: rewrite wrap64_add.
  - split; [by left|]. repeat (split; [done|]). done.
  - split; [by right|]. repeat (split; [done|]). f_equal. lia.
Qed.

(* ---------------- DownloadFileByName ---------------- *)

Lemma prefix_app (p s : string) : String.prefix p (p +:+ s) = true.
Proof.
  induction p as [|a p IH]; simpl; [by destruct s|].
  by destruct (Ascii.ascii_dec a a).
Qed.

Lemma prefix_split (p s : string) :
  String.prefix p s = true -> exists rest, s = p +:+ rest.
Proof.
  revert s. induction p as [|a p IH]; intros s Hp.
  - by exists s.
  - destruct s as [|b s]; [discriminate|]. simpl in Hp.
    destruct (Ascii.ascii_dec a b) as [->|]; [|discriminate].
    destruct (IH s Hp) as [rest ->]. by exists rest.
Qed.

Lemma substring_all (s : string) :
  String.substring 0 (String.length s) s = s.
Proof. induction s as [|a s IH]; simpl; [done|by rewrite IH]. Qed.

Lemma TrimPrefix_app (p s : string) : TrimPrefix (p +:+ s) p = s.
Proof.
  unfold TrimPrefix, HasPrefix. rewrite prefix_app.
  replace (String.length (p +:+ s) - String.length p)%nat
    with (String.length s).
  - induction p as [|a p IH]; simpl; [apply substring_all|exact IH].
  - induction p as [|a p IH]; simpl; [by rewrite Nat.sub_0_r|exact IH].
Qed.

Section DownloadFacts.
Variable canon : string -> string.
Variable Unmarshal_errMsg : list Byte.byte -> string + string.
Variable ParseInt : string -> string + Z.
Variable NewRequest_error : string -> string -> option string.
Variable range_keys : Header -> list string.

(** X18: the request DownloadFileByName sends is a GET of
    downloadURI/file/bucket/name whose Range header is mkRange(offset,
    size), absent for offset 0 and size 0; the request counter grows by
    one; a reply with a status other than 200 and 206 gives the error of
    mkErr and no FileReader; a reply with 200 or 206 gives the error of
    ParseInt when Content-Length is not a number, and else a FileReader
    with the body, that length, the content type, the SHA1 and the info. *)
Theorem DownloadFileByName_outcome (net : network) (g g' : Globals)
    (b2 : B2) (b : Bucket) (name : string) (offset size : Z)
    (rq : Request) (fr : option FileReader) (err : option error)
    (code : Z) (header : Header) (rbody : string + list Byte.byte) :
  canon "Range" <> canon "Authorization" ->
  canon "Range" <> canon "X-Blazer-Request-ID" ->
  canon "Range" <> canon "X-Blazer-Method" ->
  DownloadFileByName canon Unmarshal_errMsg ParseInt NewRequest_error
    range_keys net g b2 b name offset size = (g', Some rq, (fr, err)) ->
  net rq = Some (inr (code, header, rbody)) ->
  rq_verb rq = "GET"
  /\ rq_url rq = downloadURI b2 +:+ "/file/" +:+ bk_Name b +:+ "/" +:+ name
  /\ Header_Get canon "Range" (rq_Header rq) = mkRange offset size
  /\ reqID g' = wrap64 (reqID g + 1)
  /\ (code <> 200 -> code <> 206 ->
      fr = None
      /\ err = Some (mkErr canon Unmarshal_errMsg ParseInt
                       (mk_Response code header rbody rq)))
  /\ (code = 200 \/ code = 206 ->
      match ParseInt (Header_Get canon "Content-Length" header) with
      | inl descr => fr = None /\ err = Some (ErrOther descr)
      | inr clen =>
          err = None
          /\ fr = Some (mk_FileReader rbody clen
                          (Header_Get canon "Content-Type" header)
                          (Header_Get canon "X-Bz-Content-Sha1" header)
                          (response_info canon range_keys header))
      end).
Proof.
  intros H1 H2 H3 Hdl Hnet. unfold DownloadFileByName in Hdl.
  destruct (NewRequest_error "GET" _) as [e|]; [discriminate|].
  set (h := if bool_decide (mkRange offset size <> "") then _ else _) in Hdl.
  set (req := mk_Request "GET" _ None h) in Hdl.
  assert (rq = req /\ g' = mk_Globals (wrap64 (reqID g + 1))
                            (FailSomeUploads g)) as [-> ->].
  { destruct (net req) as [[e|[[c hd] rb]]|]; try (by simplify_eq).
    destruct (_ && _); [by simplify_eq|].
    destruct (ParseInt _); by simplify_eq. }
  rewrite Hnet in Hdl.
  split; [done|]. split; [done|]. split.
  { unfold req. cbn [rq_Header]. unfold h.
    destruct (decide (mkRange offset size = "")) as [Hr|Hr].
    - rewrite bool_decide_eq_false_2 by (intros Hne; by apply Hne).
      rewrite !Header_Get_Set_ne by done.
      unfold Header_Get. by rewrite lookup_empty, Hr.
    - rewrite bool_decide_eq_true_2 by done. by rewrite Header_Get_Set. }
  split; [done|]. split.
  - intros Hc1 Hc2. rewrite !bool_decide_eq_true_2 in Hdl by done.
    simpl in Hdl. by simplify_eq.
  - intros Hc.
    assert (bool_decide (code <> 200) && bool_decide (code <> 206) = false)
      as Hb.
    { destruct Hc as [-> | ->].
      - by rewrite bool_decide_eq_false_2 by (intros Hne; by apply Hne).
      - rewrite (bool_decide_eq_false_2 (206 <> 206))
          by (intros Hne; by apply Hne).
        apply andb_false_r. }
    rewrite Hb in Hdl.
    destruct (ParseInt _) as [descr|clen]; by simplify_eq.
Qed.

Lemma response_info_fold (header : Header) (keys : list string) :
  forall (m : gmap string string) (name : string),
    foldl (fun info key =>
             if HasPrefix key "X-Bz-Info-"
             then <[TrimPrefix key "X-Bz-Info-"
                    := Header_Get canon key header]> info
             else info) m keys !! name
    = if decide ("X-Bz-Info-" +:+ name ∈ keys)
      then Some (Header_Get canon ("X-Bz-Info-" +:+ name) header)
      else m !! name.
Proof.
  induction keys as [|key keys IH]; intros m name.
  - cbn [foldl]. by rewrite decide_False by apply not_elem_of_nil.
  - cbn [foldl]. rewrite IH.
    destruct (decide (_ ∈ keys)) as [Hin|Hnin].
    + rewrite decide_True; [done|by right].
    + destruct (decide ("X-Bz-Info-" +:+ name = key)) as [<-|Hne].
      * rewrite decide_True by (by left).
        unfold HasPrefix at 1. rewrite prefix_app, TrimPrefix_app.
        by rewrite lookup_insert_eq.
      * rewrite decide_False
          by (intros Hin; apply elem_of_cons in Hin as [?|?]; done).
        unfold HasPrefix at 1.
        destruct (String.prefix "X-Bz-Info-" key) eqn:Hp; [|done].
        apply prefix_split in Hp as [rest ->]. rewrite TrimPrefix_app.
        rewrite lookup_insert_ne; [done|]. by intros ->.
Qed.

(** X19: the Info of a FileReader has, for every name, the first value
    of the reply's header X-Bz-Info-name (the empty string for an empty
    value list), and no entry when the reply has no such header; the keys
    of the reply's header being in canonical form. *)
Theorem response_info_lookup (header : Header) (name : string) :
  range_keys header ≡ₚ (map_to_list header).*1 ->
  (forall key, is_Some (header !! key) -> canon key = key) ->
  response_info canon range_keys header !! name
  = (fun vs => default "" (head vs))
      <$> header !! ("X-Bz-Info-" +:+ name).
Proof.
  intros Hperm Hcanon. unfold response_info. rewrite response_info_fold.
  destruct (header !! ("X-Bz-Info-" +:+ name)) as [vs|] eqn:Hk.
  - rewrite decide_True.
    + unfold Header_Get. rewrite Hcanon by (by eexists). rewrite Hk.
      by destruct vs.
    + rewrite Hperm. apply list_elem_of_fmap.
      exists ("X-Bz-Info-" +:+ name, vs). split; [done|].
      by apply elem_of_map_to_list.
  - rewrite decide_False; [by rewrite lookup_empty|].
    rewrite Hperm. intros Hin.
    apply list_elem_of_fmap in Hin as ([k vs] & Heq & Hin).
    apply elem_of_map_to_list in Hin. simpl in Heq. subst k. congruence.
Qed.

End DownloadFacts.

(* ---------------- the sample network ---------------- *)

Lemma sample_keys_differ : own_keys_differ (fun k => k).
Proof. repeat split; discriminate. Qed.

Lemma makeRequest_stamps_witness :
  exists g' req result,
    sample_makeRequest (B := unit) net_503 (mk_Globals 41 false)
      "b2_delete_bucket" "POST" "https://api/b2_delete_bucket"
      (Some (inr [])) None {["X-Blazer-Method" := "forged"]} None
    = (g', Some req, result)
    /\ Header_Get (fun k => k) "X-Blazer-Method" (rq_Header req)
       = "b2_delete_bucket"
    /\ Header_Get (fun k => k) "X-Blazer-Request-ID" (rq_Header req) = "42".
Proof.
  destruct (sample_makeRequest (B := unit) net_503 (mk_Globals 41 false)
              "b2_delete_bucket" "POST" "https://api/b2_delete_bucket"
              (Some (inr [])) None {["X-Blazer-Method" := "forged"]} None)
    as [[g' [req|]] result] eqn:Hreq; [|vm_compute in Hreq; discriminate].
  exists g', req, result. split; [reflexivity|].
  destruct (makeRequest_stamps _ _ _ _ _ _ _ _ _ _ _ _ _ _ _ _ _
              sample_keys_differ Hreq) as (Hm & Hid & _).
  split; [exact Hm|exact Hid].
Defined.

Lemma makeRequest_malformed_reply_witness :
  exists g' req,
    sample_makeRequest (B := unit) net_broken (mk_Globals 0 false)
      "b2_upload_part" "POST" "https://pod/upload" None None ∅ (Some [])
    = (g', Some req, (Some (ErrOther "unexpected EOF"), None))
    /\ Action (Some (ErrOther "unexpected EOF")) = Punt.
Proof.
  destruct (sample_makeRequest (B := unit) net_broken (mk_Globals 0 false)
              "b2_upload_part" "POST" "https://pod/upload" None None ∅
              (Some []))
    as [[g' [req|]] result] eqn:Hreq; [|vm_compute in Hreq; discriminate].
  exists g', req.
  destruct (makeRequest_malformed_reply _ _ _ _ _ _ _ _ _ _ _ _ _ _ _ _ _
              503 ∅ (inl "unexpected EOF") "unexpected EOF" Hreq eq_refl)
    as (-> & Ha & _).
  - discriminate.
  - by left.
  - split; [reflexivity|exact Ha].
Defined.

Lemma makeRequest_b2err_witness :
  exists g' req,
    sample_makeRequest (B := unit) net_503 (mk_Globals 0 false)
      "b2_upload_part" "POST" "https://pod/upload" None None ∅ (Some [])
    = (g', Some req,
       (Some (ErrB2 (mk_b2err "busy" "b2_upload_part" 30 503)), None))
    /\ Action (Some (ErrB2 (mk_b2err "busy" "b2_upload_part" 30 503))) = Retry
    /\ Backoff (Some (ErrB2 (mk_b2err "busy" "b2_upload_part" 30 503)))
       = 30000000000.
Proof.
  destruct (sample_makeRequest (B := unit) net_503 (mk_Globals 0 false)
              "b2_upload_part" "POST" "https://pod/upload" None None ∅
              (Some []))
    as [[g' [req|]] result] eqn:Hreq; [|vm_compute in Hreq; discriminate].
  exists g', req.
  destruct (makeRequest_b2err _ _ _ _ _ _ _ _ _ _ _ _ _ _ _ _ _
              503 {["Retry-After" := ["30"]]} [] "busy" 30
              sample_keys_differ Hreq eq_refl)
    as (-> & Ha & Hb).
  - discriminate.
  - reflexivity.
  - right. split; [discriminate|reflexivity].
  - split; [reflexivity|]. split; [exact Ha|exact Hb].
Defined.

Lemma makeRequest_nil_iff_witness :
  exists g' req,
    sample_makeRequest (B := unit) net_200 (mk_Globals 0 false)
      "b2_delete_bucket" "POST" "https://api/b2_delete_bucket"
      (Some (inr [])) None ∅ None
    = (g', Some req, (None, None))
    /\ net_200 req = Some (inr (200, ∅, inr [])).
Proof.
  destruct (sample_makeRequest (B := unit) net_200 (mk_Globals 0 false)
              "b2_delete_bucket" "POST" "https://api/b2_delete_bucket"
              (Some (inr [])) None ∅ None)
    as [[g' [req|]] [[err|] [v|]]] eqn:Hreq;
    try (vm_compute in Hreq; discriminate).
  exists g', req. split; [reflexivity|].
  apply makeRequest_nil_iff in Hreq
    as (req' & header & rbody & [= <-] & _ & Hnet & _).
  reflexivity.
Defined.

Lemma CreateBucket_result_witness :
  exists g' rq bucket t enc,
    CreateBucket (fun k => k) (fun _ => inr "busy") ParseInt_30
      (fun _ _ => None) map_to_list
      (H := fun req => inr []) (H0 := fun _ => inr "bucket-1")
      net_200 (mk_Globals 0 false)
      (mk_B2 "acct" "token" "https://api" "https://dl" 100)
      "photos" "public"
    = (g', Some rq, (Some bucket, None))
    /\ t = "allPrivate" /\ rq_body rq = Some enc /\ bk_Name bucket = "photos".
Proof.
  destruct (CreateBucket (fun k => k) (fun _ => inr "busy") ParseInt_30
              (fun _ _ => None) map_to_list
              (H := fun req => inr []) (H0 := fun _ => inr "bucket-1")
              net_200 (mk_Globals 0 false)
              (mk_B2 "acct" "token" "https://api" "https://dl" 100)
              "photos" "public")
    as [[g' [rq|]] [[bucket|] [err|]]] eqn:Hcreate;
    try (vm_compute in Hcreate; discriminate).
  destruct (CreateBucket_result _ _ _ _ _ _ _ _ _ _ _ _ _ _ Hcreate)
    as (Hreq & _ & Hname).
  destruct (Hreq rq eq_refl) as (t & enc & [[Hb _]|[_ Ht]] & _ & Hbody & _);
    [discriminate|].
  exists g', rq, bucket, t, enc. split; [reflexivity|].
  split; [exact Ht|]. split; [exact Hbody|]. by apply Hname.
Defined.

Lemma UploadFile_headers_kept_witness :
  UploadFile_headers map_to_list "token" "a.txt" "text/plain" "da39" 3
    {["Authorization" := "forged"]} !! "Authorization" = Some "token"
  /\ UploadFile_headers map_to_list "token" "a.txt" "text/plain" "da39" 3
       {["Authorization" := "forged"]} !! "X-Bz-Info-Authorization"
     = Some "forged".
Proof.
  destruct (UploadFile_headers_kept map_to_list "token" "a.txt" "text/plain"
              "da39" 3 {["Authorization" := "forged"]})
    as (Ha & _ & _ & _ & _ & Hinfo & _).
  - reflexivity.
  - split; [exact Ha|]. exact (Hinfo "Authorization").
Defined.

Lemma UploadPart_call_outcome_witness :
  exists g' rq,
    UploadPart_call (fun k => k) (fun _ => inr "busy") ParseInt_30
      (fun _ _ => None) map_to_list net_500 (mk_Globals 0 false)
      "https://pod/upload" "token" "sha-one" [] 5 1 (new_LargeFile "f")
    = (g', Some rq,
       (Some (new_LargeFile "f"),
        (0, Some (ErrB2 (mk_b2err "busy" "b2_upload_part" 0 500)))))
    /\ Action (Some (ErrB2 (mk_b2err "busy" "b2_upload_part" 0 500)))
       = AttemptNewUpload.
Proof.
  destruct (UploadPart_call (fun k => k) (fun _ => inr "busy") ParseInt_30
              (fun _ _ => None) map_to_list net_500 (mk_Globals 0 false)
              "https://pod/upload" "token" "sha-one" [] 5 1
              (new_LargeFile "f"))
    as [[g' [rq|]] res] eqn:Hcall; [|vm_compute in Hcall; discriminate].
  exists g', rq.
  destruct (UploadPart_call_outcome _ _ _ _ _ _ _ _ _ _ _ _ _ _
              (new_LargeFile "f") _ _
              500 ∅ (inr []) sample_keys_differ eq_refl Hcall eq_refl)
    as [_ H5xx].
  destruct (H5xx ltac:(lia) [] "busy" eq_refl eq_refl eq_refl) as [-> Ha].
  split; [reflexivity|exact Ha].
Defined.

Lemma upload_then_finish_witness :
  exists l Hashes,
    upload_parts parts_2_1 (new_LargeFile "f") = Some l
    /\ Hashes !! 0%nat = Some "sha-one" /\ Hashes !! 1%nat = Some "sha-two"
    /\ FinishLargeFile (fun _ => inr (mk_FinishResp "big" "id-9"))
         (map_to_list (hashes l)) l
       = ([mk_FinishReq "f" Hashes],
          Returned (Some (mk_File "big" 12 EmptyString "id-9"), None)).
Proof.
  destruct (upload_parts parts_2_1 (new_LargeFile "f")) as [l|] eqn:Hup;
    [|vm_compute in Hup; discriminate].
  destruct (upload_then_finish (fun _ => inr (mk_FinishResp "big" "id-9"))
              "f" parts_2_1 (map_to_list (hashes l)) l)
    as (Hashes & _ & Hlookup & Hfinish).
  - simpl. apply Permutation_swap.
  - repeat constructor; simpl; lia.
  - vm_compute. discriminate.
  - exact Hup.
  - reflexivity.
  - exists l, Hashes. split; [reflexivity|].
    split; [apply (Hlookup 1 "sha-one" 5); set_solver|].
    split; [apply (Hlookup 2 "sha-two" 7); set_solver|exact Hfinish].
Defined.

Lemma UploadPart_interleaved_witness :
  lf_size (default (new_LargeFile "f")
             (run_ops (UploadPart_record "sha-two" 7 2
                         ++ UploadPart_record "sha-one" 5 1)
                (new_LargeFile "f")))
  = wrap64 (0 + 5 + 7).
Proof.
  destruct (run_ops (UploadPart_record "sha-two" 7 2
                       ++ UploadPart_record "sha-one" 5 1)
              (new_LargeFile "f")) as [l'|] eqn:Hrun;
    [|vm_compute in Hrun; discriminate].
  simpl.
  apply (UploadPart_interleaved "sha-one" "sha-two" 5 7 1 2
           (UploadPart_record "sha-two" 7 2 ++ UploadPart_record "sha-one" 5 1)
           (new_LargeFile "f") l' eq_refl); [|exact Hrun].
  unfold UploadPart_record. simpl.
  do 4 apply interleave_r. do 4 apply interleave_l. apply interleave_nil.
Defined.

Lemma DownloadFileByName_outcome_witness :
  exists g' rq fr,
    DownloadFileByName (fun k => k) (fun _ => inr "busy")
      (fun s => if bool_decide (s = "5") then inr 5 else inl "invalid syntax")
      (fun _ _ => None) (fun h => (map_to_list h).*1)
      net_206 (mk_Globals 0 false)
      (mk_B2 "acct" "token" "https://api" "https://dl" 100)
      (mk_Bucket "photos" "bucket-1") "a.txt" 10 5
    = (g', Some rq, (Some fr, None))
    /\ Header_Get (fun k => k) "Range" (rq_Header rq) = "bytes=10-14"
    /\ ContentLength fr = 5.
Proof.
  destruct (DownloadFileByName (fun k => k) (fun _ => inr "busy")
      (fun s => if bool_decide (s = "5") then inr 5 else inl "invalid syntax")
      (fun _ _ => None) (fun h => (map_to_list h).*1)
      net_206 (mk_Globals 0 false)
      (mk_B2 "acct" "token" "https://api" "https://dl" 100)
      (mk_Bucket "photos" "bucket-1") "a.txt" 10 5)
    as [[g' [rq|]] [[fr|] [err|]]] eqn:Hdl;
    try (vm_compute in Hdl; discriminate).
  exists g', rq, fr. split; [reflexivity|].
  destruct (DownloadFileByName_outcome (fun k => k)
              _ _ _ _ _ _ _ _ _ _ _ _ _ _ _
              206 {["Content-Length" := ["5"]]} (inr [])
              ltac:(cbv beta; discriminate) ltac:(cbv beta; discriminate)
              ltac:(cbv beta; discriminate) Hdl eq_refl)
    as (_ & _ & Hrange & _ & _ & Hok).
  split; [exact Hrange|].
  specialize (Hok (or_intror eq_refl)). simpl in Hok.
  destruct Hok as [_ Hfr]. by injection Hfr as ->.
Defined.

Lemma response_info_lookup_witness :
  response_info (fun k => k) (fun h => (map_to_list h).*1) info_header
    !! "Color" = Some "blue".
Proof.
  rewrite (response_info_lookup (fun k => k) (fun h => (map_to_list h).*1)
             info_header "Color"); [reflexivity|reflexivity|done].
Defined.

(* ---------------- UploadFile ---------------- *)

Section UploadFileFacts.
Variable canon : string -> string.
Variable Unmarshal_errMsg : list Byte.byte -> string + string.
Variable ParseInt : string -> string + Z.
Variable NewRequest_error : string -> string -> option string.
Variable range_map : gmap string string -> list (string * string).
Context `{Decode string}.

(** X21: the request UploadFile sends is a POST to the upload URL with the
    bytes of the file as its body; on a reply with status 200 it returns the
    File with the name and size of the call and the file id of the reply,
    or the decoding error; on a reply with a 5xx status, an error message
    in the body and no Retry-After it returns no File and a b2err of method
    b2_upload_file, for which Action answers AttemptNewUpload. *)
Theorem UploadFile_outcome (net : network) (g g' : Globals)
    (uri token : string) (r : list Byte.byte) (size : Z)
    (name contentType sha1 : string) (info : gmap string string)
    (rq : Request) (file : option File) (err : option error)
    (code : Z) (header : Header) (rbody : string + list Byte.byte) :
  own_keys_differ canon ->
  UploadFile canon Unmarshal_errMsg ParseInt NewRequest_error range_map
    net g uri token r size name contentType sha1 info
  = (g', Some rq, (file, err)) ->
  net rq = Some (inr (code, header, rbody)) ->
  rq_verb rq = "POST" /\ rq_url rq = uri /\ rq_body rq = Some r
  /\ (code = 200 ->
      match json_Decode rbody with
      | inl descr => file = None /\ err = Some (ErrOther descr)
      | inr FileID =>
          file = Some (mk_File name size EmptyString FileID) /\ err = None
      end)
  /\ (500 <= code < 600 ->
      forall data msg,
        rbody = inr data -> Unmarshal_errMsg data = inr msg ->
        Header_Get canon "Retry-After" header = "" ->
        let e := ErrB2 (mk_b2err msg "b2_upload_file" 0 code) in
        file = None /\ err = Some e /\ Action (Some e) = AttemptNewUpload).
Proof.
  intros Hkeys Hup Hnet. unfold UploadFile in Hup.
  destruct (makeRequest _ _ _ _ _ _ _ _ _ _ _ _ _ _)
    as [[g1 req1] [err1 v1]] eqn:Hreq.
  assert (g1 = g' /\ req1 = Some rq) as [-> ->]
    by (destruct err1, v1; by simplify_eq).
  pose proof (makeRequest_sent _ _ _ _ _ _ _ _ _ _ _ _ _ _ _ _ _ Hreq) as Hb.
  pose proof Hb as Hb'.
  apply build_request_inr in Hb' as (_ & Hv & Hu & _ & Hbody).
  split; [exact Hv|]. split; [exact Hu|]. split; [exact Hbody|]. split.
  - intros ->. unfold makeRequest in Hreq. rewrite Hb, Hnet in Hreq.
    simpl in Hreq.
    destruct (json_Decode rbody) as [descr|FileID]; by simplify_eq.
  - intros Hcode data msg -> Hmsg Hretry e.
    assert (code <> 200) as Hne by lia.
    pose proof (makeRequest_not_200 _ _ _ _ _ _ _ _ _ _ _ _ _ _ _ _ _ _ _ _
                  Hreq Hnet Hne) as Herr.
    injection Herr as -> ->.
    assert (mkErr canon Unmarshal_errMsg ParseInt
              (mk_Response code header (inr data) rq) = e) as Heq.
    { assert (Header_Get canon "X-Blazer-Method" (rq_Header rq)
              = "b2_upload_file") as Hm
        by (eapply build_request_method; [exact Hkeys|exact Hb]).
      unfold mkErr. simpl. rewrite Hmsg, Hretry, Hm. done. }
    rewrite Heq in Hup. injection Hup as <- <-.
    split; [done|]. split; [done|]. unfold e. rewrite Action_b2err. simpl.
    unfold is_5xx. rewrite !bool_decide_eq_true_2 by lia. done.
Qed.
End UploadFileFacts.

Lemma UploadFile_outcome_witness :
  exists g' rq,
    UploadFile (fun k => k) (fun _ => inr "busy") ParseInt_30
      (fun _ _ => None) map_to_list (H := fun _ => inr "file-7")
      net_200 (mk_Globals 0 false) "https://pod/upload" "token" [] 0
      "a.txt" "text/plain" "da39" ∅
    = (g', Some rq, (Some (mk_File "a.txt" 0 EmptyString "file-7"), None))
    /\ rq_body rq = Some [].
Proof.
  destruct (UploadFile (fun k => k) (fun _ => inr "busy") ParseInt_30
              (fun _ _ => None) map_to_list (H := fun _ => inr "file-7")
              net_200 (mk_Globals 0 false) "https://pod/upload" "token" [] 0
              "a.txt" "text/plain" "da39" ∅)
    as [[g' [rq|]] [file err]] eqn:Hup; [|vm_compute in Hup; discriminate].
  exists g', rq.
  destruct (UploadFile_outcome (fun k => k) _ _ _ _ _ _ _ _ _ _ _ _ _ _ _ _
              _ _ 200 ∅ (inr []) sample_keys_differ Hup eq_refl)
    as (_ & _ & Hbody & H200 & _).
  destruct (H200 eq_refl) as [-> ->]. split; [reflexivity|exact Hbody].
Defined.

End BaseFacts.

Module B2Facts.
Import Go GoFacts Base B2.

(* ---------------- thread: the range of a claimed chunk ---------------- *)

(* Without wrap-around the goroutine computes the clamped range. *)
Lemma thread_request_no_wrap (r : Reader) (i : Z) :
  0 <= i -> 1 <= csize r -> is_int64 (rd_size r) ->
  (i + 1) * csize r <= max_int64 ->
  thread_request r i = clamped_request (csize r) (rd_size r) i
  /\ (i * csize r >= rd_size r -> thread_request r i = None).
Proof.
  unfold is_int64, min_int64, max_int64. intros Hi Hcs Hsz Hmax.
  assert (thread_request r i = clamped_request (csize r) (rd_size r) i)
    as Heq.
  { unfold thread_request, clamped_request.
    rewrite (wrap64_id (i * csize r))
      by (unfold is_int64, min_int64, max_int64; nia).
    case_bool_decide; [reflexivity|].
    rewrite (wrap64_id (i * csize r + csize r))
      by (unfold is_int64, min_int64, max_int64; nia).
    case_bool_decide.
    - rewrite wrap64_id by (unfold is_int64, min_int64, max_int64; nia).
      f_equal. f_equal. lia.
    - f_equal. f_equal. lia. }
  split; [exact Heq|]. rewrite Heq. unfold clamped_request.
  intros Hge. by rewrite bool_decide_eq_true_2.
Qed.

(** C8, as stated, fails: with chunks of 2^62 bytes on an object of
    2^63 - 1 bytes, offset + size of chunk 1 wraps around, the clamp does
    not fire and the goroutine requests 2^62 bytes where 2^62 - 1 remain,
    one byte past the object's end. *)
Lemma thread_request_wraps :
  thread_request huge_chunks 1 = Some (2 ^ 62, 2 ^ 62)
  /\ clamped_request (csize huge_chunks) (rd_size huge_chunks) 1
     = Some (2 ^ 62, 2 ^ 62 - 1)
  /\ 2 ^ 62 + 2 ^ 62 > rd_size huge_chunks.
Proof. vm_compute. repeat split. Qed.

(** C8 (amended): for every claimed chunk index i whose nominal end
    (i + 1) * chunkSize fits a signed 64-bit integer, the goroutine computes
    offset i * chunkSize; at or beyond the total size it returns without a
    request, otherwise it requests min(chunkSize, totalSize - offset) bytes,
    at least one and never past the object's end. *)
Theorem thread_request_clamped (r : Reader) (i : Z) :
  0 <= i -> 1 <= csize r -> is_int64 (rd_size r) ->
  (i + 1) * csize r <= max_int64 ->
  thread_request r i = clamped_request (csize r) (rd_size r) i
  /\ (i * csize r >= rd_size r -> thread_request r i = None)
  /\ (forall offset size, thread_request r i = Some (offset, size) ->
        offset = i * csize r /\ size = Z.min (csize r) (rd_size r - offset)
        /\ 1 <= size /\ offset + size <= rd_size r).
Proof.
  unfold is_int64, min_int64, max_int64. intros Hi Hcs Hsz Hmax.
  assert (thread_request r i = clamped_request (csize r) (rd_size r) i)
    as Heq.
  { unfold thread_request, clamped_request.
    rewrite (wrap64_id (i * csize r))
      by (unfold is_int64, min_int64, max_int64; nia).
    case_bool_decide; [reflexivity|].
    rewrite (wrap64_id (i * csize r + csize r))
      by (unfold is_int64, min_int64, max_int64; nia).
    case_bool_decide.
    - rewrite wrap64_id by (unfold is_int64, min_int64, max_int64; nia).
      f_equal. f_equal. lia.
    - f_equal. f_equal. lia. }
  split; [exact Heq|]. rewrite Heq. unfold clamped_request. split.
  - intros Hge. by rewrite bool_decide_eq_true_2.
  - intros offset size. case_bool_decide; [discriminate|].
    intros [= <- <-]. lia.
Qed.

Lemma thread_request_clamped_witness :
  thread_request (init_Do (NewReader 25000000 10000000 3)) 2
  = Some (20000000, 5000000).
Proof.
  destruct (thread_request_clamped (init_Do (NewReader 25000000 10000000 3)) 2)
    as (H & _ & _).
  - lia.
  - vm_compute. discriminate.
  - vm_compute. split; discriminate.
  - vm_compute. discriminate.
  - rewrite H. reflexivity.
Defined.

(* The 25,000,000-byte object in chunks of 10,000,000. *)
Example thread_request_25M :
  let r := init_Do (NewReader 25000000 10000000 3) in
  thread_request r <$> [0; 1; 2; 3]
  = [Some (0, 10000000); Some (10000000, 10000000);
     Some (20000000, 5000000); None].
Proof. reflexivity. Qed.

(* ---------------- initFunc and the once-guard ---------------- *)

Lemma initFunc_loop_eq (n : nat) :
  forall r : Reader,
    initFunc_loop n r
    = set_threads (threads r ++ replicate n AtPool)
        (set_heap (heap r ++ replicate n [])
           (set_chbuf (mk_chan (queue (chbuf r) ++ seq (length (heap r)) n)
                         (cap (chbuf r)) (closed (chbuf r))) r)).
Proof.
  induction n as [|n IH]; intros r.
  - destruct r as [? ? ? ? ? ? ? ? [q c cl] ? ? ? ? ? ?]. simpl.
    unfold set_threads, set_heap, set_chbuf. simpl.
    by rewrite !app_nil_r.
  - simpl. rewrite IH.
    destruct r as [? ? ? ? ? ? ? ? [q c cl] ? ? ? ? ? ?].
    unfold set_threads, set_heap, set_chbuf, send_new_Buffer, thread. simpl.
    rewrite <- !app_assoc, length_app. simpl.
    by replace (length heap0 + 1)%nat with (S (length heap0)) by lia.
Qed.

Lemma initFunc_eq (r : Reader) :
  let n := Z.to_nat (workers r) in
  initFunc r
  = mk_Reader (ConcurrentDownloads r) (chunk_size r) (canceled r) (rd_size r)
      (chunk_size r) (read r) (chwid r) (chrid r)
      (mk_chan (seq (length (heap r)) n) (workers r) false)
      (init r) (chunks r) (err r)
      (heap r ++ replicate n []) (threads r ++ replicate n AtPool) (caller r).
Proof.
  unfold initFunc, workers, chunk_size. rewrite initFunc_loop_eq.
  destruct r as [? ? ? ? ? ? ? ? [q c cl] ? ? ? ? ? ?]. simpl.
  repeat case_bool_decide; reflexivity.
Qed.

Lemma workers_pos (r : Reader) : 1 <= workers r.
Proof. unfold workers. case_bool_decide; lia. Qed.

Lemma chunk_size_pos (r : Reader) : 1 <= chunk_size r.
Proof. unfold chunk_size. case_bool_decide; lia. Qed.


Ltac step_inv H :=
  unfold step, curChunk, Read_finish, Buffer_Read, getErr, setErr, Close,
    init_Do, set_thread in H;
  repeat (case_match; simplify_eq/=); simplify_eq/=;
  repeat match goal with
         | H : _ <$> _ = Some _ |- _ =>
             apply fmap_Some in H as (? & ? & ?); simplify_eq/=
         | H : _ <$> _ = None |- _ => apply fmap_None in H
         end.

Ltac not_in_events :=
  let Hin := fresh in
  intros Hin;
  repeat (apply elem_of_cons in Hin as [Hin|Hin]; [discriminate|]);
  by apply elem_of_nil in Hin.

Lemma step_initialised (object : bytes) (size cs cd : Z) (a : action)
    (r r' : Reader) (evs : list event) :
  initialised size cs cd r -> step object a r = Some (evs, r') ->
  initialised size cs cd r' /\ EvInit ∉ evs.
Proof.
  unfold initialised. intros (Hi & Ht & Hh & Hc & Hcs & HCS & Hcd & Hsz) Hstep.
  destruct a.
  { simpl in Hstep. unfold init_Do in Hstep. rewrite Hi in Hstep.
    destruct (caller r); simplify_eq. simpl.
    split; [repeat split; assumption|]. apply not_elem_of_nil. }
  all: step_inv Hstep.
  all: rewrite ?length_insert, ?length_alter; simpl.
  all: try (split; [repeat split; assumption|]).
  all: try not_in_events.
Qed.


Lemma initFunc_initialised (size cs cd : Z) (r : Reader) (plen : nat) :
  untouched size cs cd r ->
  initialised size cs cd (set_caller (InRead plen) (set_init true (initFunc r))).
Proof.
  intros Hr. rewrite initFunc_eq. unfold initialised.
  destruct Hr as [-> | ->]; simpl;
    rewrite !length_replicate; repeat split.
Qed.

Lemma step_untouched (object : bytes) (size cs cd : Z) (a : action)
    (r r' : Reader) (evs : list event) :
  untouched size cs cd r -> step object a r = Some (evs, r') ->
  (untouched size cs cd r' /\ evs = [])
  \/ (evs = [EvInit] /\ initialised size cs cd r').
Proof.
  intros Hr Hstep.
  destruct a as [plen|vd| |i|i|i|i f|i].
  - right. destruct Hr as [-> | ->]; simpl in Hstep; simplify_eq.
    + split; [reflexivity|]. apply initFunc_initialised. by left.
    + split; [reflexivity|]. apply initFunc_initialised. by right.
  - destruct Hr as [-> | ->]; discriminate.
  - left. simpl in Hstep. simplify_eq. split; [|reflexivity].
    destruct Hr as [-> | ->]; right; reflexivity.
  - destruct Hr as [-> | ->]; discriminate.
  - destruct Hr as [-> | ->]; discriminate.
  - destruct Hr as [-> | ->]; discriminate.
  - destruct Hr as [-> | ->]; discriminate.
  - destruct Hr as [-> | ->]; discriminate.
Qed.

Lemma run_initialised (object : bytes) (size cs cd : Z) (sched : list action) :
  forall (r r' : Reader) (tr : list event),
    initialised size cs cd r -> run object sched r = Some (tr, r') ->
    initialised size cs cd r' /\ EvInit ∉ tr.
Proof.
  induction sched as [|a sched IH]; intros r r' tr Hr Hrun; simpl in Hrun.
  - simplify_eq. split; [assumption|apply not_elem_of_nil].
  - destruct (step object a r) as [[evs r1]|] eqn:Hstep; [|discriminate].
    destruct (run object sched r1) as [[evs' r2]|] eqn:Hrun'; [|discriminate].
    simplify_eq.
    destruct (step_initialised _ _ _ _ _ _ _ _ Hr Hstep) as [Hr1 Hevs].
    destruct (IH _ _ _ Hr1 Hrun') as [Hr2 Hevs'].
    split; [assumption|]. rewrite elem_of_app. tauto.
Qed.

Lemma run_untouched (object : bytes) (size cs cd : Z) (sched : list action) :
  forall (r r' : Reader) (tr : list event),
    untouched size cs cd r -> run object sched r = Some (tr, r') ->
    (untouched size cs cd r' /\ tr = [])
    \/ (exists tr', tr = EvInit :: tr' /\ (EvInit ∉ tr')
        /\ initialised size cs cd r').
Proof.
  induction sched as [|a sched IH]; intros r r' tr Hr Hrun; simpl in Hrun.
  - simplify_eq. by left.
  - destruct (step object a r) as [[evs r1]|] eqn:Hstep; [|discriminate].
    destruct (run object sched r1) as [[evs' r2]|] eqn:Hrun'; [|discriminate].
    simplify_eq.
    destruct (step_untouched _ _ _ _ _ _ _ _ Hr Hstep) as [[Hr1 ->]|[-> Hr1]].
    + exact (IH _ _ _ Hr1 Hrun').
    + right. destruct (run_initialised _ _ _ _ _ _ _ _ Hr1 Hrun') as [Hr2 Hevs].
      exists evs'. split; [reflexivity|]. split; assumption.
Qed.

(** C9: in every session, initFunc runs exactly once, on the first Read:
    the first event of every trace is that initialisation and it never
    occurs again; init.Do on an initialised Reader changes nothing.  It
    leaves exactly cr goroutines, all at the top of their loop, and cr empty
    buffers queued in a channel of capacity cr, where cr is
    ConcurrentDownloads, or 1 when that is below 1, and it sets the chunk
    size to ChunkSize, or to 10,000,000 when that is below 1; no later step
    changes the number of goroutines or of buffers. *)
Theorem init_exactly_once (object : bytes) (size cs cd : Z)
    (sched : list action) (tr : list event) (r : Reader) :
  run object sched (NewReader size cs cd) = Some (tr, r) ->
  let r0 := NewReader size cs cd in
  let cr := Z.to_nat (workers r0) in
  workers r0 = (if bool_decide (cd < 1) then 1 else cd)
  /\ chunk_size r0 = (if bool_decide (cs < 1) then 10000000 else cs)
  /\ init_Do r0
     = mk_Reader cd (chunk_size r0) false size (chunk_size r0) 0 0 0
         (mk_chan (seq 0 cr) (workers r0) false) true ∅ None
         (replicate cr []) (replicate cr AtPool) Idle
  /\ (init r = true -> init_Do r = r)
  /\ (if init r
      then (exists tr', tr = EvInit :: tr' /\ (EvInit ∉ tr'))
           /\ length (threads r) = cr /\ length (heap r) = cr
           /\ cap (chbuf r) = workers r0 /\ csize r = chunk_size r0
      else tr = [] /\ threads r = [] /\ heap r = []
           /\ queue (chbuf r) = []).
Proof.
  intros Hrun r0 cr.
  split; [reflexivity|]. split; [reflexivity|]. split.
  { unfold init_Do. simpl. rewrite initFunc_eq. reflexivity. }
  split.
  { intros Hi. unfold init_Do. by rewrite Hi. }
  destruct (run_untouched object size cs cd sched _ _ _ (or_introl eq_refl) Hrun)
    as [[Hr ->]|(tr' & -> & Htr' & Hr)].
  - destruct Hr as [-> | ->]; simpl; repeat split.
  - destruct Hr as (-> & Ht & Hh & Hc & Hcs & _). eauto 10.
Qed.

Lemma init_exactly_once_witness :
  exists tr r,
    run five_bytes
      [ARead 1; ATake 0; AClaim 0; AFetch 0 None; AStore 0; AReturn false;
       ARead 1]
      (NewReader 5 0 0) = Some (tr, r)
    /\ init r = true
    /\ length (threads r) = 1%nat /\ length (heap r) = 1%nat
    /\ csize r = 10000000.
Proof.
  destruct (run five_bytes
      [ARead 1; ATake 0; AClaim 0; AFetch 0 None; AStore 0; AReturn false;
       ARead 1] (NewReader 5 0 0)) as [[tr r]|] eqn:Hrun;
    [|vm_compute in Hrun; discriminate].
  exists tr, r. split; [reflexivity|].
  pose proof (init_exactly_once _ _ _ _ _ _ _ Hrun) as (_ & _ & _ & _ & H).
  assert (init r = true) as Hi by (vm_compute in Hrun; by simplify_eq).
  rewrite Hi in H. destruct H as (_ & Ht & Hh & _ & Hcs).
  repeat split; assumption.
Defined.

(* ---------------- the latched error ---------------- *)

Lemma setErr_latched (e e2 : error) (r : Reader) :
  err r = Some e -> setErr e2 r = r.
Proof. intros He. unfold setErr. by rewrite He. Qed.

Lemma setErr_first (e : error) (r : Reader) :
  err r = None -> err (setErr e r) = Some e.
Proof. intros He. unfold setErr. by rewrite He. Qed.

Lemma step_latched (object : bytes) (e : error) (a : action)
    (r r' : Reader) (evs : list event) :
  err r = Some e -> step object a r = Some (evs, r') ->
  err r' = Some e
  /\ (canceled r = true -> canceled r' = true)
  /\ Forall (after_latch e r') evs.
Proof.
  intros He Hstep. destruct a.
  { simpl in Hstep. destruct (caller r); simplify_eq. unfold init_Do.
    destruct (init r) eqn:Hi; simpl.
    - split; [exact He|]. split; [intros H; exact H|constructor].
    - rewrite initFunc_eq. simpl.
      split; [exact He|]. split; [intros H; exact H|repeat constructor]. }
  all: step_inv Hstep.
  all: split; [done|]; (split; [let Hc := fresh in intros Hc; try exact Hc; reflexivity|]).
  all: repeat (apply Forall_cons_2 || apply Forall_nil_2); simpl; auto.
Qed.

Lemma after_latch_mono (e : error) (r r' : Reader) (ev : event) :
  (canceled r = true -> canceled r' = true) ->
  after_latch e r ev -> after_latch e r' ev.
Proof.
  intros Hc. destruct ev; simpl; try tauto.
Qed.

Lemma step_latched_caller (object : bytes) (e : error) (a : action)
    (r r' : Reader) (evs : list event) :
  err r = Some e -> step object a r = Some (evs, r') ->
  caller r <> Crashed -> caller r' <> Crashed.
Proof.
  intros He Hstep Hc. destruct a.
  { simpl in Hstep. destruct (caller r); simplify_eq. simpl. discriminate. }
  all: step_inv Hstep; try discriminate; try assumption.
Qed.

Lemma run_latched (object : bytes) (e : error) (sched : list action) :
  forall (r r' : Reader) (tr : list event),
    err r = Some e -> run object sched r = Some (tr, r') ->
    err r' = Some e
    /\ (canceled r = true -> canceled r' = true)
    /\ Forall (after_latch e r') tr
    /\ (caller r <> Crashed -> caller r' <> Crashed).
Proof.
  induction sched as [|a sched IH]; intros r r' tr He Hrun; simpl in Hrun.
  - simplify_eq. split; [assumption|]. split; [tauto|].
    split; [constructor|tauto].
  - destruct (step object a r) as [[evs r1]|] eqn:Hstep; [|discriminate].
    destruct (run object sched r1) as [[evs' r2]|] eqn:Hrun'; [|discriminate].
    simplify_eq.
    destruct (step_latched _ _ _ _ _ _ He Hstep) as (He1 & Hc1 & Hevs).
    pose proof (step_latched_caller _ _ _ _ _ _ He Hstep) as Hcr.
    destruct (IH _ _ _ He1 Hrun') as (He2 & Hc2 & Hevs' & Hcr').
    split; [assumption|]. split; [tauto|]. split; [|tauto].
    apply Forall_app. split; [|assumption].
    eapply Forall_impl; [exact Hevs|]. intros ev. by apply after_latch_mono.
Qed.

(* With an error latched, the Read in progress leaves curChunk by the
   chunk channel: the loop test of curChunk's goroutine sees the error. *)
Lemma Read_leaves_latched (object : bytes) (e : error) (plen : nat)
    (r : Reader) :
  err r = Some e -> caller r = InRead plen ->
  step object (AReturn false) r
  = Some ([EvReturn [] (Some e)], set_caller Idle r).
Proof.
  intros He Hc. unfold step. rewrite Hc. unfold curChunk, getErr.
  rewrite He. by destruct (chunks r !! chrid r).
Qed.

Lemma Read_enters (object : bytes) (plen : nat) (r : Reader) :
  caller r = Idle ->
  step object (ARead plen) r
  = Some (if init r then [] else [EvInit],
          set_caller (InRead plen) (init_Do r)).
Proof. intros Hc. unfold step. by rewrite Hc. Qed.

(** C7 (amended): the session error is a write-once latch: once an error
    is recorded no later setErr changes it, whatever the session does next.
    Every Read that returns afterwards returns no bytes and that first
    error, or the context's cancellation error when the session has been
    canceled; no such Read panics, so Read can be called again.  And every
    Read called after the error was recorded does return: it enters, and
    whatever the other goroutines have done meanwhile it can leave curChunk
    by the chunk channel at once, with no bytes and that error, the Reader
    unchanged. *)
Theorem err_latched (object : bytes) (e : error) (sched : list action) :
  forall (r r' : Reader) (tr : list event),
    err r = Some e -> run object sched r = Some (tr, r') ->
    err r' = Some e
    /\ (forall e2, setErr e2 r' = r')
    /\ (canceled r = true -> canceled r' = true)
    /\ Forall (after_latch e r') tr
    /\ (caller r <> Crashed -> caller r' <> Crashed)
    /\ (caller r' = Idle ->
        forall plen, exists r1,
          step object (ARead plen) r'
          = Some (if init r' then [] else [EvInit], r1)
          /\ step object (AReturn false) r1
             = Some ([EvReturn [] (Some e)], set_caller Idle r1))
    /\ (caller r = Idle ->
        forall plen, caller r' = InRead plen ->
          step object (AReturn false) r'
          = Some ([EvReturn [] (Some e)], set_caller Idle r')).
Proof.
  intros r r' tr He Hrun.
  destruct (run_latched _ _ _ _ _ _ He Hrun) as (He' & Hc & Htr & Hcr).
  split; [assumption|].
  split; [intros e2; by apply (setErr_latched e)|].
  split; [assumption|]. split; [assumption|]. split; [assumption|].
  split.
  - intros Hidle plen. eexists. split; [by apply Read_enters|].
    apply (Read_leaves_latched _ _ plen); [|reflexivity].
    destruct (step_latched object e (ARead plen) r' _ _ He'
                (Read_enters object plen r' Hidle)) as (He1 & _).
    exact He1.
  - intros _ plen Hin. by apply (Read_leaves_latched _ _ plen).
Qed.


(** C7, as stated, fails: after the error "boom" is latched and the Reader
    is closed, the next Read returns the context's cancellation error, not
    the latched one (which is still recorded). *)
Lemma Read_after_Close_not_latched :
  exists r,
    run five_bytes latch_then_close (NewReader 5 2 1)
    = Some ([EvInit; EvRequest 0 2; EvReturn [] (Some (ErrOther "boom"));
             EvReturn [] (Some ErrCanceled)], r)
    /\ err r = Some (ErrOther "boom")
    /\ ~ returns_latched (ErrOther "boom") (EvReturn [] (Some ErrCanceled)).
Proof.
  eexists. split; [vm_compute; reflexivity|]. split; [reflexivity|].
  simpl. discriminate.
Qed.

Lemma err_latched_witness :
  exists tr r',
    run five_bytes [ARead 1; AReturn false; ATake 0; AClaim 0; AClose;
                    ARead 3] latched_idle
    = Some (tr, r')
    /\ err r' = Some (ErrOther "boom")
    /\ Forall (after_latch (ErrOther "boom") r') tr
    /\ step five_bytes (AReturn false) r'
       = Some ([EvReturn [] (Some (ErrOther "boom"))], set_caller Idle r').
Proof.
  destruct (run five_bytes [ARead 1; AReturn false; ATake 0; AClaim 0;
                            AClose; ARead 3]
              latched_idle) as [[tr r']|] eqn:Hrun;
    [|vm_compute in Hrun; discriminate].
  assert (Hc : caller r' = InRead 3).
  { pose proof Hrun as H. vm_compute in H. injection H as _ <-. reflexivity. }
  exists tr, r'. split; [reflexivity|].
  destruct (err_latched five_bytes (ErrOther "boom") _ latched_idle r' tr
              eq_refl Hrun) as (He & _ & _ & Htr & _ & _ & Hret).
  split; [assumption|]. split; [assumption|].
  exact (Hret eq_refl 3%nat Hc).
Defined.

(* ---------------- ownership of buffers and chunk indices ---------------- *)

(* generic list facts *)
Section ListFacts.
Context {A B : Type}.
Implicit Types (l : list A) (f : A -> option B).

Lemma omap_insert_split f l i x y :
  l !! i = Some x ->
  exists pre post : list B,
    omap f l = pre ++ opt_list (f x) ++ post
    /\ omap f (<[i := y]> l) = pre ++ opt_list (f y) ++ post.
Proof.
  revert i. induction l as [|a l IH]; intros i Hi; [done|].
  destruct i as [|i]; csimpl in *.
  - simplify_eq. exists [], (omap f l). split.
    + destruct (f x); reflexivity.
    + destruct (f y); reflexivity.
  - destruct (IH i Hi) as (pre & post & H1 & H2).
    destruct (f a) as [b|]; csimpl.
    + exists (b :: pre), post. simpl. by rewrite H1, H2.
    + exists pre, post. by rewrite H1, H2.
Qed.

Lemma omap_lookup_elem f l i x b :
  l !! i = Some x -> f x = Some b -> b ∈ omap f l.
Proof.
  intros Hi Hf. apply list_elem_of_omap. exists x. split; [|done].
  by apply list_elem_of_lookup_2 in Hi.
Qed.

Lemma omap_NoDup_lookup f l i j x y b :
  NoDup (omap f l) -> l !! i = Some x -> l !! j = Some y ->
  f x = Some b -> f y = Some b -> i = j.
Proof.
  revert i j. induction l as [|a l IH]; intros i j Hnd Hi Hj Hx Hy; [done|].
  csimpl in Hnd. destruct i as [|i], j as [|j]; csimpl in *; simplify_eq.
  - reflexivity.
  - rewrite Hx in Hnd. apply NoDup_cons in Hnd as [Hnot _].
    exfalso. apply Hnot. by eapply omap_lookup_elem.
  - rewrite Hy in Hnd. apply NoDup_cons in Hnd as [Hnot _].
    exfalso. apply Hnot. by eapply omap_lookup_elem.
  - f_equal. apply IH; try assumption.
    destruct (f a); [by apply NoDup_cons in Hnd as [_ ?]|assumption].
Qed.
End ListFacts.


Lemma total_insert f l i x y :
l !! i = Some x -> total f (<[i := y]> l) = total f l - f x + f y.
Proof.
revert i. induction l as [|a l IH]; intros i Hi; [done|].
destruct i as [|i]; simpl in *.
- simplify_eq. lia.
- rewrite (IH i Hi). lia.
Qed.

Lemma total_bounds f l lo hi :
(forall g, lo <= f g <= hi) ->
lo * Z.of_nat (length l) <= total f l <= hi * Z.of_nat (length l).
Proof.
intros Hf. induction l as [|a l IH]; simpl; [lia|].
specialize (Hf a). lia.
Qed.

Lemma total_replicate f g n : total f (replicate n g) = Z.of_nat n * f g.
Proof. induction n as [|n IH]; simpl; [lia|]. rewrite IH. lia. Qed.

Lemma NoDup_bounded_length (l : list nat) (n : nat) :
NoDup l -> Forall (fun b => (b < n)%nat) l -> (length l <= n)%nat.
Proof.
intros Hnd Hall.
assert (l ⊆+ seq 0 n) as Hsub.
{ apply NoDup_submseteq; [assumption|]. intros b Hb.
  rewrite Forall_forall in Hall. apply elem_of_seq. specialize (Hall b Hb). lia. }
apply submseteq_length in Hsub. by rewrite length_seq in Hsub.
Qed.

Lemma filter_succ_delete (m : gmap Z nat) (c : Z) :
filter (fun kv : Z * nat => c + 1 <= kv.1) m
= delete c (filter (fun kv : Z * nat => c <= kv.1) m).
Proof.
apply map_eq. intros k.
destruct (decide (k = c)) as [->|Hne].
- rewrite lookup_delete_eq. apply map_lookup_filter_None. right.
  intros x _. simpl. lia.
- rewrite lookup_delete_ne by done.
  destruct (m !! k) as [b|] eqn:Hk.
  + destruct (decide (c <= k)).
    * rewrite !(map_lookup_filter_Some_2 _ _ k b); simpl; (done || lia).
    * rewrite !(proj2 (map_lookup_filter_None _ _ k)); try done.
      all: right; intros x _; simpl; lia.
  + rewrite !(proj2 (map_lookup_filter_None _ _ k)); try done.
    all: by left.
Qed.

Section Own.
Variables (object : bytes) (size cs cd : Z).
Hypothesis Hfits : fits size cs cd.

Local Abbreviation r0 := (NewReader size cs cd).

Lemma Inv_own_first (r : Reader) (plen : nat) :
  untouched size cs cd r ->
  Inv_own size cs cd (set_caller (InRead plen) (set_init true (initFunc r))).
Proof.
  intros Hr. pose proof (initFunc_initialised size cs cd r plen Hr) as Hi.
  destruct Hfits as [Hsz Hmax].
  pose proof (workers_pos r0). pose proof (chunk_size_pos r0).
  assert (forall n, omap held (replicate n AtPool) = []) as Hheld
    by (induction n; [done|by csimpl]).
  assert (forall n, omap in_flight (replicate n AtPool) = []) as Hfly
    by (induction n; [done|by csimpl]).
  split; [exact Hi|..]; rewrite initFunc_eq; unfold owned, unconsumed; simpl.
  all: destruct Hr as [-> | ->]; simpl.
  all: rewrite ?Hheld, ?Hfly, ?map_filter_empty, ?map_to_list_empty,
         ?total_replicate, ?app_nil_r, ?length_replicate; simpl.
  all: try apply NoDup_seq; try apply NoDup_nil_2; try done; try lia.
  all: try (apply Forall_forall; intros b Hb; apply elem_of_seq in Hb;
            fold (workers r0); lia).
  all: try (intros id Hid; by apply elem_of_nil in Hid).
  all: try (fold (chunk_size r0); lia).
  all: try (pose proof (chunk_size_pos (Close r0)); nia).
Qed.

Lemma total_gone_bounds (ts : list goroutine) :
  0 <= total gone ts <= Z.of_nat (length ts).
Proof.
  pose proof (total_bounds gone ts 0 1) as H.
  assert (forall g, 0 <= gone g <= 1) as Hg by (intros []; simpl; lia).
  specialize (H Hg). lia.
Qed.

(* A step that hands buffers and chunk ids on, or drops some, and leaves
   the chunk map and the counters alone. *)
Lemma Inv_own_frame (r r' : Reader) (dropped : list nat) (left : list Z) :
  Inv_own size cs cd r ->
  initialised size cs cd r' ->
  length (heap r') = length (heap r) ->
  owned r ≡ₚ dropped ++ owned r' ->
  omap in_flight (threads r) ≡ₚ left ++ omap in_flight (threads r') ->
  chunks r' = chunks r -> chrid r' = chrid r -> chwid r' = chwid r ->
  total gone (threads r) <= total gone (threads r') ->
  Inv_own size cs cd r'.
Proof.
  intros [Hi Hnd Hv Hfnd Hfly Hmap Hord Hbound] Hi' Hheap Hown Hleft
    Hch Hrid Hwid Hgone.
  assert (csize r' = csize r) as Hcs.
  { destruct Hi as (_ & _ & _ & _ & -> & _).
    by destruct Hi' as (_ & _ & _ & _ & -> & _). }
  pose proof (chunk_size_pos r0) as Hpos.
  assert (csize r = chunk_size r0) as Hcsr by apply Hi.
  split; try assumption.
  - rewrite Hown in Hnd. by apply NoDup_app in Hnd as (_ & _ & ?).
  - rewrite Hown in Hv. rewrite Hheap. by apply Forall_app in Hv as [_ ?].
  - rewrite Hleft in Hfnd. by apply NoDup_app in Hfnd as (_ & _ & ?).
  - intros id Hid. rewrite Hch, Hrid, Hwid, Hcs. apply Hfly.
    rewrite Hleft. apply elem_of_app. by right.
  - intros k b. rewrite Hch, Hwid, Hcs. apply Hmap.
  - by rewrite Hrid, Hwid.
  - rewrite Hwid, Hcs. nia.
Qed.

Lemma perm_NoDup_drop {A} (l d l' : list A) :
  NoDup l -> l ≡ₚ d ++ l' -> NoDup l'.
Proof. intros Hnd Hp. rewrite Hp in Hnd. by apply NoDup_app in Hnd as (_ & _ & ?). Qed.

Lemma perm_Forall_drop {A} (P : A -> Prop) (l d l' : list A) :
  Forall P l -> l ≡ₚ d ++ l' -> Forall P l'.
Proof. intros Hall Hp. rewrite Hp in Hall. by apply Forall_app in Hall as [_ ?]. Qed.

Lemma thread_swap (ts : list goroutine) (i : nat) (g g' : goroutine) :
  ts !! i = Some g ->
  exists (hp hq : list nat) (fp fq : list Z),
    omap held ts = hp ++ opt_list (held g) ++ hq
    /\ omap held (<[i := g']> ts) = hp ++ opt_list (held g') ++ hq
    /\ omap in_flight ts = fp ++ opt_list (in_flight g) ++ fq
    /\ omap in_flight (<[i := g']> ts) = fp ++ opt_list (in_flight g') ++ fq
    /\ total gone (<[i := g']> ts) = total gone ts - gone g + gone g'.
Proof.
  intros Hi.
  destruct (omap_insert_split held ts i g g' Hi) as (hp & hq & H1 & H2).
  destruct (omap_insert_split in_flight ts i g g' Hi) as (fp & fq & H3 & H4).
  exists hp, hq, fp, fq. repeat split; try assumption.
  by apply total_insert.
Qed.

Lemma Inv_own_wid (r : Reader) :
  Inv_own size cs cd r ->
  csize r = chunk_size r0 /\ 1 <= csize r /\ rd_size r = size
  /\ 0 <= chwid r /\ (chwid r + 1) * csize r <= max_int64 + csize r
  /\ is_int64 (chwid r + 1) /\ is_int64 (chrid r + 1).
Proof.
  intros [Hi _ _ _ _ _ Hord Hbound].
  destruct Hi as (_ & Hlen & _ & _ & Hcs & _ & _ & Hsz).
  destruct Hfits as [Hsz0 Hmax].
  pose proof (chunk_size_pos r0) as Hpos.
  pose proof (workers_pos r0) as Hw.
  pose proof (total_gone_bounds (threads r)) as Hg.
  rewrite Hlen in Hg. rewrite Hcs in *.
  unfold is_int64, min_int64, max_int64 in *.
  repeat split; try lia; try nia.
Qed.

Lemma total_gone_live (ts : list goroutine) (i : nat) (g : goroutine) :
  ts !! i = Some g -> gone g = 0 ->
  total gone ts <= Z.of_nat (length ts) - 1.
Proof.
  intros Hi Hg. pose proof (total_insert gone ts i g Gone Hi) as Hins.
  pose proof (total_gone_bounds (<[i := Gone]> ts)) as Hb.
  rewrite length_insert in Hb. simpl in Hins. lia.
Qed.

(* A goroutine that has not returned claims an index whose chunk end fits
   an int64. *)
Lemma Inv_own_claim_fits (r : Reader) (i : nat) (g : goroutine) :
  Inv_own size cs cd r -> threads r !! i = Some g -> gone g = 0 ->
  (chwid r + 1) * csize r <= max_int64.
Proof.
  intros [Hi _ _ _ _ _ Hord Hbound] Hg Hlive.
  destruct Hi as (_ & Hlen & _ & _ & Hcs & _ & _ & Hsz).
  destruct Hfits as [Hsz0 Hmax].
  pose proof (chunk_size_pos r0) as Hpos.
  pose proof (workers_pos r0) as Hw.
  pose proof (total_gone_live _ _ _ Hg Hlive) as Hgl.
  pose proof (total_gone_bounds (threads r)) as Hg0.
  rewrite Hlen in Hgl. rewrite Hcs in *.
  unfold max_int64 in *. nia.
Qed.

(* AClaim *)
Lemma Inv_own_claim (r r' : Reader) (i buf : nat) (g' : goroutine) :
  Inv_own size cs cd r ->
  threads r !! i = Some (AtClaim buf) ->
  initialised size cs cd r' ->
  length (heap r') = length (heap r) ->
  queue (chbuf r') = queue (chbuf r) ->
  chunks r' = chunks r -> chrid r' = chrid r ->
  chwid r' = chwid r + 1 ->
  threads r' = <[i := g']> (threads r) ->
  (g' = Gone /\ chwid r * csize r >= size
   \/ (exists offset sz, g' = AtFetch buf (chwid r) offset sz)
      /\ chwid r * csize r < size) ->
  Inv_own size cs cd r'.
Proof.
  intros Hinv Hi Hi' Hheap Hq Hch Hrid Hwid Hts Hg'.
  destruct (Inv_own_wid r Hinv) as (Hcs & Hcs1 & Hsz & Hw0 & _).
  destruct Hinv as [Hini Hnd Hv Hfnd Hfly Hmap Hord Hbound].
  assert (csize r' = csize r) as Hcs'
    by (rewrite Hcs; by destruct Hi' as (_ & _ & _ & _ & -> & _)).
  destruct (thread_swap _ i _ g' Hi) as (hp & hq & fp & fq & H1 & H2 & H3 & H4 & H5).
  simpl in *. unfold owned, unconsumed in *.
  rewrite ?Hq, ?Hts, ?Hch, ?Hrid, ?Hwid, ?Hcs', ?Hheap.
  rewrite H1 in Hnd, Hv. rewrite H3 in Hfnd, Hfly.
  destruct Hg' as [[-> Hge]|[(offset & sz & ->) Hlt]]; simpl in *.
  - split; unfold owned, unconsumed;
      rewrite ?Hq, ?Hts, ?Hch, ?Hrid, ?Hwid, ?Hcs', ?Hheap, ?H2, ?H4, ?H5; simpl.
    + exact Hi'.
    + apply (perm_NoDup_drop _ [buf] _ Hnd). solve_Permutation.
    + apply (perm_Forall_drop _ _ [buf] _ Hv). solve_Permutation.
    + exact Hfnd.
    + intros id Hid. destruct (Hfly id Hid) as (? & ? & ?).
      repeat split; try done; lia.
    + intros k b Hk. destruct (Hmap k b Hk). split; lia.
    + lia.
    + nia.
  - split; unfold owned, unconsumed;
      rewrite ?Hq, ?Hts, ?Hch, ?Hrid, ?Hwid, ?Hcs', ?Hheap, ?H2, ?H4, ?H5; simpl.
    + exact Hi'.
    + exact Hnd.
    + exact Hv.
    + eapply NoDup_Permutation_proper;
        [symmetry; apply Permutation_middle|].
      apply NoDup_cons. split; [|assumption].
      intros Hin. apply Hfly in Hin. lia.
    + intros id Hid. apply elem_of_app in Hid as [Hid|Hid];
        [|apply elem_of_cons in Hid as [->|Hid]].
      * destruct (Hfly id) as (? & ? & ?); [apply elem_of_app; by left|].
        repeat split; try done; lia.
      * repeat split; try lia.
        destruct (chunks r !! chwid r) as [b|] eqn:Hb; [|done].
        apply Hmap in Hb. lia.
      * destruct (Hfly id) as (? & ? & ?); [apply elem_of_app; by right|].
        repeat split; try done; lia.
    + intros k b Hk. destruct (Hmap k b Hk). split; lia.
    + lia.
    + pose proof (total_gone_bounds (threads r)). nia.
Qed.

(* AStore *)
Lemma Inv_own_store (r r' : Reader) (i buf : nat) (chunkID : Z) :
  Inv_own size cs cd r ->
  threads r !! i = Some (AtStore buf chunkID) ->
  initialised size cs cd r' ->
  length (heap r') = length (heap r) ->
  queue (chbuf r') = queue (chbuf r) ->
  chunks r' = <[chunkID := buf]> (chunks r) ->
  chrid r' = chrid r -> chwid r' = chwid r ->
  threads r' = <[i := AtPool]> (threads r) ->
  Inv_own size cs cd r'.
Proof.
  intros Hinv Hi Hi' Hheap Hq Hch Hrid Hwid Hts.
  destruct (Inv_own_wid r Hinv) as (Hcs & Hcs1 & Hsz & Hw0 & _).
  destruct Hinv as [Hini Hnd Hv Hfnd Hfly Hmap Hord Hbound].
  assert (csize r' = csize r) as Hcs'
    by (rewrite Hcs; by destruct Hi' as (_ & _ & _ & _ & -> & _)).
  destruct (thread_swap _ i _ AtPool Hi)
    as (hp & hq & fp & fq & H1 & H2 & H3 & H4 & H5).
  simpl in *. unfold owned, unconsumed in *.
  rewrite H1 in Hnd, Hv. rewrite H3 in Hfnd, Hfly.
  destruct (Hfly chunkID) as (Hid1 & Hid2 & Hid3);
    [apply elem_of_app; right; apply elem_of_cons; by left|].
  assert ((map_to_list (filter (fun kv : Z * nat => chrid r <= kv.1)
                          (<[chunkID := buf]> (chunks r)))).*2
          ≡ₚ buf :: (map_to_list (filter (fun kv : Z * nat => chrid r <= kv.1)
                                    (chunks r))).*2) as Hmapperm.
  { rewrite map_filter_insert_True by (simpl; lia).
    rewrite map_to_list_insert; [done|].
    apply map_lookup_filter_None. by left. }
  split; unfold owned, unconsumed;
    rewrite ?Hq, ?Hts, ?Hch, ?Hrid, ?Hwid, ?Hcs', ?Hheap, ?H2, ?H4, ?H5; simpl.
  - exact Hi'.
  - rewrite Hmapperm. apply (perm_NoDup_drop _ [] _ Hnd). solve_Permutation.
  - rewrite Hmapperm. apply (perm_Forall_drop _ _ [] _ Hv). solve_Permutation.
  - apply (perm_NoDup_drop _ [chunkID] _ Hfnd). solve_Permutation.
  - intros id Hid.
    assert (id ∈ fp ++ chunkID :: fq) as Hid'.
    { apply elem_of_app in Hid as [?|?]; apply elem_of_app;
        [by left|right; apply elem_of_cons; by right]. }
    destruct (Hfly id Hid') as (? & ? & ?).
    split; [done|]. split; [|done].
    rewrite lookup_insert_ne; [done|]. intros <-.
    apply NoDup_app in Hfnd as (_ & Hdisj & Hfq).
    apply NoDup_cons in Hfq as [Hnot _].
    apply elem_of_app in Hid as [Hid|Hid]; [|done].
    apply (Hdisj _ Hid). apply elem_of_cons. by left.
  - intros k b Hk. destruct (decide (k = chunkID)) as [->|Hne].
    + split; lia.
    + rewrite lookup_insert_ne in Hk by done. by apply (Hmap k b).
  - lia.
  - lia.
Qed.

(* The chunk under r.chrid is drained: r.chrid++, and the buffer goes back
   to the channel (or is lost when the send panics). *)
Lemma Inv_own_recycle (r r' : Reader) (buf : nat) (back : list nat) :
  Inv_own size cs cd r ->
  chunks r !! chrid r = Some buf ->
  initialised size cs cd r' ->
  length (heap r') = length (heap r) ->
  queue (chbuf r') = queue (chbuf r) ++ back ->
  back = [buf] \/ back = [] ->
  chunks r' = chunks r ->
  chrid r' = chrid r + 1 -> chwid r' = chwid r ->
  threads r' = threads r ->
  Inv_own size cs cd r'.
Proof.
  intros Hinv Hb Hi' Hheap Hq Hback Hch Hrid Hwid Hts.
  destruct (Inv_own_wid r Hinv) as (Hcs & Hcs1 & Hsz & Hw0 & _).
  destruct Hinv as [Hini Hnd Hv Hfnd Hfly Hmap Hord Hbound].
  assert (csize r' = csize r) as Hcs'
    by (rewrite Hcs; by destruct Hi' as (_ & _ & _ & _ & -> & _)).
  destruct (Hmap _ _ Hb) as [Hb1 Hb2].
  unfold owned, unconsumed in *.
  assert ((map_to_list (filter (fun kv : Z * nat => chrid r <= kv.1)
                          (chunks r))).*2
          ≡ₚ buf :: (map_to_list (filter (fun kv : Z * nat => chrid r + 1 <= kv.1)
                                    (chunks r))).*2) as Hmapperm.
  { rewrite filter_succ_delete.
    rewrite <- (map_to_list_delete _ (chrid r) buf); [done|].
    apply map_lookup_filter_Some_2; [done|simpl; lia]. }
  rewrite Hmapperm in Hnd, Hv.
  split; unfold owned, unconsumed;
    rewrite ?Hq, ?Hts, ?Hch, ?Hrid, ?Hwid, ?Hcs', ?Hheap; simpl.
  - exact Hi'.
  - destruct Hback as [-> | ->].
    + apply (perm_NoDup_drop _ [] _ Hnd). solve_Permutation.
    + apply (perm_NoDup_drop _ [buf] _ Hnd). solve_Permutation.
  - destruct Hback as [-> | ->].
    + apply (perm_Forall_drop _ _ [] _ Hv). solve_Permutation.
    + apply (perm_Forall_drop _ _ [buf] _ Hv). solve_Permutation.
  - exact Hfnd.
  - intros id Hid. destruct (Hfly id Hid) as (? & Hnone & ?).
    repeat split; try done; try lia.
    destruct (decide (id = chrid r)) as [->|]; [congruence|lia].
  - exact Hmap.
  - lia.
  - exact Hbound.
Qed.

End Own.

Section OwnStep.
Variables (object : bytes) (size cs cd : Z).
Hypothesis Hfits : fits size cs cd.

Lemma step_Inv_own (a : action) (r r' : Reader) (evs : list event) :
  Inv_own size cs cd r -> step object a r = Some (evs, r') ->
  Inv_own size cs cd r'.
Proof.
  intros Hinv Hstep.
  pose proof (step_initialised _ _ _ _ _ _ _ _ (own_init _ _ _ _ Hinv) Hstep)
    as [Hi' _].
  destruct (Inv_own_wid size cs cd Hfits r Hinv)
    as (Hcs & Hcs1 & _ & Hw0 & Hmax & Hwid1 & Hrid1).
  destruct a as [plen|vd| |i|i|i|i f|i].
  - (* ARead *)
    simpl in Hstep. unfold init_Do in Hstep.
    destruct (own_init _ _ _ _ Hinv) as (Hinit & _). rewrite Hinit in Hstep.
    destruct (caller r); simplify_eq.
    by apply (Inv_own_frame size cs cd r _ [] []).
  - (* AReturn *)
    step_inv Hstep.
    all: rewrite ?(wrap64_id (chrid _ + 1)) in * by assumption.
    all: try (match goal with
              | H : Inv_own _ _ _ ?r |- _ =>
                  solve [apply (Inv_own_frame size cs cd r _ [] []);
                         simpl; rewrite ?length_insert; done]
              end).
    all: try (match goal with
              | H : chunks ?r !! chrid ?r = Some ?b |- _ =>
                  solve [ apply (Inv_own_recycle size cs cd Hfits r _ b [b]);
                          simpl; rewrite ?length_insert; try done; auto
                        | apply (Inv_own_recycle size cs cd Hfits r _ b []);
                          simpl; rewrite ?length_insert, ?app_nil_r;
                          try done; auto ]
              end).
  - (* AClose *)
    simpl in Hstep. simplify_eq.
    by apply (Inv_own_frame size cs cd r _ [] []).
  - (* ATake *)
    step_inv Hstep.
    match goal with
    | H : threads ?r !! ?i = Some AtPool, Hq : queue (chbuf ?r) = ?b :: ?q |- _ =>
        destruct (thread_swap _ i _ (AtClaim b) H)
          as (hp & hq & fp & fq & H1 & H2 & H3 & H4 & H5);
        apply (Inv_own_frame size cs cd r _ [] []); try done; simpl;
          unfold owned, unconsumed; simpl;
          rewrite ?Hq, ?H1, ?H2, ?H3, ?H4, ?H5; simpl
    end.
    + solve_Permutation.
    + reflexivity.
    + lia.
  - (* AExit *)
    step_inv Hstep.
    all: match goal with
    | H : threads ?r !! ?i = Some AtPool |- _ =>
        destruct (thread_swap _ i _ Gone H)
          as (hp & hq & fp & fq & H1 & H2 & H3 & H4 & H5);
        apply (Inv_own_frame size cs cd r _ [] []); try done; simpl;
          unfold owned, unconsumed; simpl;
          rewrite ?H1, ?H2, ?H3, ?H4, ?H5; simpl; try done; try lia
    end.
  - (* AClaim *)
    simpl in Hstep.
    destruct (threads r !! i) as [[|buf| | |]|] eqn:Hi; try discriminate.
    rewrite (wrap64_id _ Hwid1) in Hstep.
    pose proof (Inv_own_claim_fits size cs cd Hfits r i _ Hinv Hi eq_refl)
      as Hfit.
    assert (rd_size r = size) as Hsz by apply (own_init _ _ _ _ Hinv).
    destruct (thread_request_no_wrap (set_chwid (chwid r + 1) r) (chwid r))
      as (Hreq & _); simpl; try done.
    { rewrite Hsz. destruct Hfits. unfold is_int64, min_int64, max_int64 in *.
      pose proof (workers_pos (NewReader size cs cd)).
      pose proof (chunk_size_pos (NewReader size cs cd)). nia. }
    rewrite Hreq in Hstep. unfold clamped_request in Hstep. simpl in Hstep.
    rewrite Hsz in Hstep.
    case_bool_decide; injection Hstep as <- <-.
    + apply (Inv_own_claim size cs cd Hfits r _ i buf Gone); try done.
      left. split; [done|lia].
    + eapply (Inv_own_claim size cs cd Hfits r _ i buf); try done.
      right. split; [eauto|lia].
  - (* AFetch *)
    simpl in Hstep.
    destruct (threads r !! i) as [[| |buf chunkID offset sz| |]|] eqn:Hi;
      try discriminate.
    destruct f as [[e partial]|]; injection Hstep as <- <-.
    + destruct (thread_swap _ i _ Gone Hi)
        as (hp & hq & fp & fq & H1 & H2 & H3 & H4 & H5).
      unfold setErr in *. simpl in *.
      destruct (err r) eqn:Herr;
        apply (Inv_own_frame size cs cd r _ [buf] [chunkID]); try done;
        simpl; unfold owned, unconsumed; simpl;
        rewrite ?length_alter, ?H1, ?H2, ?H3, ?H4, ?H5; simpl;
        try done; try solve_Permutation; lia.
    + destruct (thread_swap _ i _ (AtStore buf chunkID) Hi)
        as (hp & hq & fp & fq & H1 & H2 & H3 & H4 & H5).
      apply (Inv_own_frame size cs cd r _ [] []); try done; simpl;
        unfold owned, unconsumed; simpl;
        rewrite ?length_alter, ?H1, ?H2, ?H3, ?H4, ?H5; simpl;
        try done; lia.
  - (* AStore *)
    simpl in Hstep.
    destruct (threads r !! i) as [[| | |buf chunkID|]|] eqn:Hi;
      try discriminate.
    injection Hstep as <- <-.
    by apply (Inv_own_store size cs cd Hfits r _ i buf chunkID).
Qed.

End OwnStep.

(* ---------------- the bound on chunks in flight ---------------- *)

Section Bound.
Variables (object : bytes) (size cs cd : Z).
Hypothesis Hfits : fits size cs cd.

Lemma run_Inv_own (sched : list action) :
  forall (r r' : Reader) (tr : list event),
    Inv_own size cs cd r -> run object sched r = Some (tr, r') ->
    Inv_own size cs cd r'.
Proof.
  induction sched as [|a sched IH]; intros r r' tr Hr Hrun; simpl in Hrun.
  - by simplify_eq.
  - destruct (step object a r) as [[evs r1]|] eqn:Hstep; [|discriminate].
    destruct (run object sched r1) as [[evs' r2]|] eqn:Hrun'; [|discriminate].
    simplify_eq.
    eapply IH; [|exact Hrun'].
    by eapply (step_Inv_own object size cs cd Hfits).
Qed.

Lemma step_first_Inv_own (a : action) (r r' : Reader) (evs : list event) :
  untouched size cs cd r -> step object a r = Some (evs, r') ->
  untouched size cs cd r' \/ Inv_own size cs cd r'.
Proof.
  intros Hr Hstep.
  destruct a as [plen|vd| |i|i|i|i f|i].
  - right.
    assert (init r = false /\ caller r = Idle) as [Hinit Hidle]
      by (destruct Hr as [-> | ->]; done).
    simpl in Hstep. unfold init_Do in Hstep. rewrite Hinit, Hidle in Hstep.
    injection Hstep as <- <-. by apply Inv_own_first.
  - destruct (step_untouched _ _ _ _ _ _ _ _ Hr Hstep) as [[? _]|[Hev _]];
      [by left|]. destruct Hr as [-> | ->]; discriminate.
  - destruct (step_untouched _ _ _ _ _ _ _ _ Hr Hstep) as [[? _]|[Hev _]];
      [by left|]. simpl in Hstep. by simplify_eq.
  - destruct Hr as [-> | ->]; discriminate.
  - destruct Hr as [-> | ->]; discriminate.
  - destruct Hr as [-> | ->]; discriminate.
  - destruct Hr as [-> | ->]; discriminate.
  - destruct Hr as [-> | ->]; discriminate.
Qed.

Lemma run_new_Inv_own (sched : list action) :
  forall (r r' : Reader) (tr : list event),
    untouched size cs cd r -> run object sched r = Some (tr, r') ->
    untouched size cs cd r' \/ Inv_own size cs cd r'.
Proof.
  induction sched as [|a sched IH]; intros r r' tr Hr Hrun; simpl in Hrun.
  - simplify_eq. by left.
  - destruct (step object a r) as [[evs r1]|] eqn:Hstep; [|discriminate].
    destruct (run object sched r1) as [[evs' r2]|] eqn:Hrun'; [|discriminate].
    simplify_eq.
    destruct (step_first_Inv_own _ _ _ _ Hr Hstep) as [Hr1|Hr1].
    + by eapply IH.
    + right. by eapply run_Inv_own.
Qed.

Lemma in_flight_holds (ts : list goroutine) :
  (length (omap in_flight ts) <= length (omap held ts))%nat.
Proof.
  induction ts as [|g ts IH]; [done|].
  destruct g; csimpl; lia.
Qed.

Lemma Inv_own_bound (r : Reader) :
  Inv_own size cs cd r ->
  (length (omap in_flight (threads r)) + stdpp.base.size (unconsumed r)
   <= Z.to_nat (workers (NewReader size cs cd)))%nat.
Proof.
  intros [Hi Hnd Hv _ _ _ _ _].
  destruct Hi as (_ & _ & Hheap & _).
  pose proof (NoDup_bounded_length _ _ Hnd Hv) as Hlen.
  unfold owned in Hlen. rewrite !length_app, length_fmap in Hlen.
  rewrite length_map_to_list in Hlen.
  pose proof (in_flight_holds (threads r)). lia.
Qed.

(** C6 (amended): at every point of every session whose sizes fit an int64,
    every entry of the chunk map is for a chunk that was claimed, lies
    inside the object and is no longer in flight (its download is over;
    entries of consumed chunks stay), and the chunks in flight together with
    the stored chunks not yet consumed never outnumber the goroutines, that
    is ConcurrentDownloads, or 1 when that is below 1. *)
Theorem in_flight_bounded (sched : list action) (tr : list event)
    (r : Reader) :
  run object sched (NewReader size cs cd) = Some (tr, r) ->
  (forall k b, chunks r !! k = Some b ->
     0 <= k < chwid r
     /\ k * chunk_size (NewReader size cs cd) < size
     /\ k ∉ omap in_flight (threads r))
  /\ (length (omap in_flight (threads r)) + stdpp.base.size (unconsumed r)
      <= Z.to_nat (workers (NewReader size cs cd)))%nat.
Proof.
  intros Hrun.
  destruct (run_new_Inv_own sched _ _ _ (or_introl eq_refl) Hrun)
    as [Hr|Hinv].
  - assert (chunks r = ∅ /\ threads r = [] /\ chrid r = 0) as (Hc & Ht & Hrid)
      by (destruct Hr as [-> | ->]; done).
    unfold unconsumed. rewrite Hc, Ht, map_filter_empty, map_size_empty.
    split; [|simpl; lia].
    intros k b Hk. by rewrite lookup_empty in Hk.
  - split; [|by apply Inv_own_bound].
    intros k b Hk. destruct (map_ids _ _ _ _ Hinv k b Hk) as [Hk1 Hk2].
    assert (csize r = chunk_size (NewReader size cs cd)) as <-
      by apply (own_init _ _ _ _ Hinv).
    split; [done|]. split; [done|].
    intros Hin. apply (fly_ids _ _ _ _ Hinv) in Hin as (_ & Hnone & _).
    congruence.
Qed.
End Bound.


(** C6, as stated, fails: once chunk 0 has been read to its end and
    r.chrid has moved on to 1, the chunk map still holds the entry of
    chunk 0. *)
Lemma consumed_chunk_stays_in_map :
  exists tr r,
    run five_bytes chunk0_consumed (NewReader 5 2 2) = Some (tr, r)
    /\ delivered tr = [x01; x02]
    /\ chrid r = 1
    /\ chunks r !! 0 = Some 0%nat
    /\ unconsumed r !! 0 = None.
Proof.
  eexists _, _. split; [vm_compute; reflexivity|]. simpl.
  repeat split.
Qed.

Lemma in_flight_bounded_witness :
  exists tr r,
    run five_bytes [ARead 3; ATake 0; ATake 1; AClaim 1; AClaim 0;
                    AFetch 0 None; AStore 0]
      (NewReader 5 2 2) = Some (tr, r)
    /\ (length (omap in_flight (threads r)) + stdpp.base.size (unconsumed r)
        <= 2)%nat.
Proof.
  destruct (run five_bytes [ARead 3; ATake 0; ATake 1; AClaim 1; AClaim 0;
                            AFetch 0 None; AStore 0] (NewReader 5 2 2))
    as [[tr r]|] eqn:Hrun; [|vm_compute in Hrun; discriminate].
  exists tr, r. split; [reflexivity|].
  apply (in_flight_bounded five_bytes 5 2 2) in Hrun as [_ H]; [exact H|].
  split; vm_compute; discriminate.
Defined.

(* ---------------- buffers are not shared ---------------- *)

Lemma NoDup_fmap_inj {A B} (f : A -> B) (l : list A) (x y : A) :
  NoDup (f <$> l) -> x ∈ l -> y ∈ l -> f x = f y -> x = y.
Proof.
  induction l as [|a l IH]; intros Hnd Hx Hy Hf; [by apply elem_of_nil in Hx|].
  csimpl in Hnd. apply NoDup_cons in Hnd as [Hnot Hnd].
  apply elem_of_cons in Hx as [->|Hx]; apply elem_of_cons in Hy as [->|Hy].
  - reflexivity.
  - exfalso. apply Hnot. rewrite Hf. apply list_elem_of_fmap. eauto.
  - exfalso. apply Hnot. rewrite <- Hf. apply list_elem_of_fmap. eauto.
  - by apply IH.
Qed.

Section Disjoint.
Variables (size cs cd : Z) (r : Reader).
Hypothesis Hinv : Inv_own size cs cd r.

Lemma owned_parts :
  NoDup (queue (chbuf r))
  /\ NoDup (omap held (threads r))
  /\ NoDup (map_to_list (unconsumed r)).*2
  /\ (forall b, b ∈ queue (chbuf r) -> b ∉ omap held (threads r))
  /\ (forall b, b ∈ queue (chbuf r) -> b ∉ (map_to_list (unconsumed r)).*2)
  /\ (forall b, b ∈ omap held (threads r) ->
        b ∉ (map_to_list (unconsumed r)).*2).
Proof.
  pose proof (own_nodup _ _ _ _ Hinv) as Hnd. unfold owned in Hnd.
  apply NoDup_app in Hnd as (Hq & Hqd & Hnd).
  apply NoDup_app in Hnd as (Hh & Hhd & Hm).
  repeat split; try assumption.
  - intros b Hb Hin. apply (Hqd b Hb). apply elem_of_app. by left.
  - intros b Hb Hin. apply (Hqd b Hb). apply elem_of_app. by right.
Qed.

Lemma unconsumed_elem (k : Z) (b : nat) :
  chunks r !! k = Some b -> chrid r <= k ->
  (k, b) ∈ map_to_list (unconsumed r).
Proof.
  intros Hk Hle. apply elem_of_map_to_list.
  unfold unconsumed. by apply map_lookup_filter_Some_2.
Qed.

Lemma unconsumed_buf (k : Z) (b : nat) :
  chunks r !! k = Some b -> chrid r <= k ->
  b ∈ (map_to_list (unconsumed r)).*2.
Proof.
  intros Hk Hle. apply list_elem_of_fmap. exists (k, b).
  split; [reflexivity|]. by apply unconsumed_elem.
Qed.

Lemma queue_not_held (b : nat) (i : nat) (g : goroutine) :
  b ∈ queue (chbuf r) -> threads r !! i = Some g -> held g <> Some b.
Proof.
  intros Hb Hi Hg. destruct owned_parts as (_ & _ & _ & Hd & _).
  apply (Hd b Hb). by eapply omap_lookup_elem.
Qed.

Lemma queue_not_stored (b : nat) (k : Z) :
  b ∈ queue (chbuf r) -> chrid r <= k -> chunks r !! k <> Some b.
Proof.
  intros Hb Hle Hk. destruct owned_parts as (_ & _ & _ & _ & Hd & _).
  apply (Hd b Hb). by eapply unconsumed_buf.
Qed.

Lemma held_once (b : nat) (i j : nat) (g g' : goroutine) :
  threads r !! i = Some g -> held g = Some b ->
  threads r !! j = Some g' -> held g' = Some b -> i = j.
Proof.
  intros Hi Hg Hj Hg'. destruct owned_parts as (_ & Hnd & _).
  by eapply (omap_NoDup_lookup held).
Qed.

Lemma held_not_stored (b : nat) (i : nat) (g : goroutine) (k : Z) :
  threads r !! i = Some g -> held g = Some b ->
  chrid r <= k -> chunks r !! k <> Some b.
Proof.
  intros Hi Hg Hle Hk. destruct owned_parts as (_ & _ & _ & _ & _ & Hd).
  apply (Hd b); [by eapply omap_lookup_elem|by eapply unconsumed_buf].
Qed.

Lemma stored_once (b : nat) (k1 k2 : Z) :
  chunks r !! k1 = Some b -> chunks r !! k2 = Some b ->
  chrid r <= k1 -> chrid r <= k2 -> k1 = k2.
Proof.
  intros H1 H2 Hle1 Hle2. destruct owned_parts as (_ & _ & Hnd & _).
  pose proof (NoDup_fmap_inj snd _ (k1, b) (k2, b) Hnd
                (unconsumed_elem _ _ H1 Hle1) (unconsumed_elem _ _ H2 Hle2)
                eq_refl) as Heq.
  by injection Heq.
Qed.

Lemma owned_in_heap (b : nat) :
  b ∈ owned r -> is_Some (heap r !! b).
Proof.
  intros Hb. apply lookup_lt_is_Some.
  pose proof (own_valid _ _ _ _ Hinv) as Hv.
  rewrite Forall_forall in Hv. by apply Hv.
Qed.
End Disjoint.

(* ---------------- the bytes in the buffers ---------------- *)

Lemma delivered_app (tr1 tr2 : list event) :
  delivered (tr1 ++ tr2) = delivered tr1 ++ delivered tr2.
Proof.
  induction tr1 as [|ev tr1 IH]; [done|].
  destruct ev; simpl; rewrite ?IH, ?app_assoc; reflexivity.
Qed.

Section Data.
Variables (object : bytes) (cs cd : Z).
Local Abbreviation size := (Z.of_nat (length object)).
Hypothesis Hfits : fits size cs cd.

Lemma chunk_bytes_append (csz k : Z) :
  1 <= csz -> 0 <= k -> k * csz < size ->
  take (Z.to_nat (k * csz)) object ++ chunk_bytes object csz size k
  = take (Z.to_nat (chunk_end csz size k)) object.
Proof.
  intros Hcs Hk Hlt. unfold chunk_bytes, chunk_end, serve.
  rewrite bool_decide_eq_false_2 by lia.
  rewrite take_take_drop. f_equal. nia.
Qed.

Lemma Inv_data_first (r : Reader) (plen : nat) :
  untouched size cs cd r ->
  Inv_data object size []
    (set_caller (InRead plen) (set_init true (initFunc r))).
Proof.
  intros Hr. rewrite initFunc_eq.
  assert (heap r = [] /\ threads r = [] /\ chunks r = ∅ /\ chrid r = 0
          /\ read r = 0 /\ workers r = workers (NewReader size cs cd))
    as (Hh & Ht & Hc & Hrid & Hrd & Hw)
    by (destruct Hr as [-> | ->]; done).
  destruct Hfits as [Hsz _].
  split; simpl; rewrite ?Hh, ?Ht, ?Hc, ?Hrid, ?Hrd; simpl.
  - intros b Hb. apply elem_of_seq in Hb.
    apply lookup_replicate. split; [done|lia].
  - intros i g Hi. apply lookup_replicate in Hi as [-> _]. exact I.
  - intros k b Hk. by rewrite lookup_empty in Hk.
  - rewrite lookup_empty. lia.
  - reflexivity.
  - lia.
  - discriminate.
  - by left.
Qed.
End Data.

Section DataStep.
Variables (object : bytes) (cs cd : Z).
Local Abbreviation size := (Z.of_nat (length object)).
Hypothesis Hfits : fits size cs cd.

Lemma thread_data_insert (r : Reader) (i j : nat) (g g' : goroutine)
    (hp : list bytes) :
  (forall i g, threads r !! i = Some g ->
     thread_data object (csize r) size hp g) ->
  thread_data object (csize r) size hp g' ->
  <[i := g']> (threads r) !! j = Some g ->
  thread_data object (csize r) size hp g.
Proof.
  intros Hall Hg' Hj. apply list_lookup_insert_Some in Hj
    as [(-> & <- & _)|[_ Hj]]; [assumption|by eapply Hall].
Qed.

Ltac data_facts H :=
  pose proof (dat_queue _ _ _ _ H) as Hq;
  pose proof (dat_threads _ _ _ _ H) as Ht;
  pose proof (dat_ahead _ _ _ _ H) as Hah;
  pose proof (dat_current _ _ _ _ H) as Hcur;
  pose proof (dat_out _ _ _ _ H) as Hout;
  pose proof (dat_read _ _ _ _ H) as Hrd;
  pose proof (dat_closed _ _ _ _ H) as Hcl;
  pose proof (dat_chrid _ _ _ _ H) as Hrid.

Lemma step_Inv_data_pool (a : action) (r r' : Reader) (evs : list event)
    (out : bytes) :
  match a with
  | ARead _ | AClose | ATake _ | AExit _ => True
  | _ => False
  end ->
  Inv_own size cs cd r -> Inv_data object size out r ->
  step object a r = Some (evs, r') ->
  Inv_data object size (out ++ delivered evs) r'.
Proof.
  intros Ha Hown Hdat Hstep.
  destruct a as [plen|vd| |i|i|i|i f|i]; try done.
  - simpl in Hstep. unfold init_Do in Hstep.
    destruct (own_init _ _ _ _ Hown) as (Hinit & _). rewrite Hinit in Hstep.
    destruct (caller r); simplify_eq. rewrite app_nil_r.
    data_facts Hdat. by split.
  - simpl in Hstep. simplify_eq. rewrite app_nil_r.
    data_facts Hdat. by split.
  - step_inv Hstep. rewrite app_nil_r. data_facts Hdat.
    match goal with
    | H : queue (chbuf _) = _ |- _ => rewrite H in Hq
    end.
    split; simpl; try done.
    + intros b Hb. apply Hq. apply elem_of_cons. by right.
    + intros j g Hj. eapply thread_data_insert; [exact Ht| |exact Hj].
      simpl. apply Hq. apply elem_of_cons. by left.
  - step_inv Hstep; rewrite app_nil_r; data_facts Hdat.
    all: split; simpl; try done.
    all: intros j g Hj; eapply thread_data_insert; [exact Ht| |exact Hj]; done.
Qed.

Lemma step_Inv_data_claim (i : nat) (r r' : Reader) (evs : list event)
    (out : bytes) :
  Inv_own size cs cd r -> Inv_data object size out r ->
  step object (AClaim i) r = Some (evs, r') ->
  Inv_data object size (out ++ delivered evs) r'.
Proof.
  intros Hown Hdat Hstep.
  destruct (Inv_own_wid _ _ _ Hfits r Hown)
    as (Hcs & Hcs1 & Hsz & Hw0 & Hmax & Hwid1 & Hrid1).
  simpl in Hstep.
  destruct (threads r !! i) as [[|buf| | |]|] eqn:Hi; try discriminate.
  rewrite (wrap64_id _ Hwid1) in Hstep.
  pose proof (Inv_own_claim_fits _ _ _ Hfits r i _ Hown Hi eq_refl) as Hfit.
  destruct (thread_request_no_wrap (set_chwid (chwid r + 1) r) (chwid r))
    as (Hreq & _); simpl; try done.
  { rewrite Hsz. destruct Hfits. unfold is_int64, min_int64, max_int64 in *.
    pose proof (workers_pos (NewReader size cs cd)).
    pose proof (chunk_size_pos (NewReader size cs cd)). nia. }
  rewrite Hreq in Hstep. unfold clamped_request in Hstep. simpl in Hstep.
  rewrite Hsz in Hstep. data_facts Hdat.
  case_bool_decide; injection Hstep as <- <-; rewrite app_nil_r.
  all: split; simpl; try done.
  all: intros j g Hj; eapply thread_data_insert; [exact Ht| |exact Hj]; simpl.
  - exact I.
  - split; [|done]. by apply (Ht i (AtClaim buf)).
Qed.

Lemma step_Inv_data_fetch (i : nat) (f : option (error * bytes))
    (r r' : Reader) (evs : list event) (out : bytes) :
  Inv_own size cs cd r -> Inv_data object size out r ->
  step object (AFetch i f) r = Some (evs, r') ->
  Inv_data object size (out ++ delivered evs) r'.
Proof.
  intros Hown Hdat Hstep.
  simpl in Hstep.
  destruct (threads r !! i) as [[| |buf chunkID offset sz| |]|] eqn:Hi;
    try discriminate.
  data_facts Hdat.
  assert (forall written b,
            b <> buf ->
            alter (fun c : bytes => c ++ written) buf (heap r) !! b
            = heap r !! b) as Hother
    by (intros written b Hne; by apply list_lookup_alter_ne).
  assert (forall b, b ∈ queue (chbuf r) -> b <> buf) as Hqb.
  { intros b Hb ->. by apply (queue_not_held _ _ _ r Hown buf i _ Hb Hi). }
  assert (forall k, chrid r <= k -> chunks r !! k <> Some buf) as Hmb.
  { intros k Hk. by apply (held_not_stored _ _ _ r Hown buf i _ k Hi). }
  assert (forall j g b, j <> i -> threads r !! j = Some g ->
            held g = Some b -> b <> buf) as Htb.
  { intros j g b Hne Hj Hg ->. apply Hne.
    by apply (held_once _ _ _ r Hown buf j i g _ Hj Hg Hi). }
  assert (forall written j g,
            i <> j -> threads r !! j = Some g ->
            thread_data object (csize r) size
              (alter (fun c : bytes => c ++ written) buf (heap r)) g)
    as Hthreads.
  { intros written j g Hne Hj. specialize (Ht j g Hj).
    destruct g; simpl in *; try done; rewrite Hother; try done.
    all: eapply (Htb j); [|exact Hj|reflexivity]; congruence. }
  destruct (Ht i _ Hi) as (Hbuf & Hoff & Hsz).
  destruct f as [[e partial]|]; injection Hstep as <- <-; simpl;
    rewrite app_nil_r.
  - unfold setErr; simpl; destruct (err r); split; simpl; try done.
    all: try (intros b Hb; rewrite Hother; [by apply Hq|by apply Hqb]).
    all: try (intros j g Hj; apply list_lookup_insert_Some in Hj
                as [(-> & <- & _)|[Hne Hj]]; [exact I|by apply (Hthreads _ j)]).
    all: try (intros k b Hk Hlt; rewrite Hother; [by apply Hah|];
              intros ->; apply (Hmb k); [lia|done]).
    all: destruct (chunks r !! chrid r) as [b|] eqn:Hb; [|done].
    all: rewrite Hother; [done|]; intros ->; by apply (Hmb (chrid r)).
  - split; simpl; try done.
    all: try (intros b Hb; rewrite Hother; [by apply Hq|by apply Hqb]).
    all: try (intros k b Hk Hlt; rewrite Hother; [by apply Hah|];
              intros ->; apply (Hmb k); [lia|done]).
    + intros j g Hj. apply list_lookup_insert_Some in Hj
        as [(-> & <- & _)|[Hne Hj]]; [|by apply (Hthreads _ j)].
      simpl. rewrite list_lookup_alter_eq, Hbuf. simpl.
      unfold chunk_bytes. by rewrite Hoff, Hsz.
    + destruct (chunks r !! chrid r) as [b|] eqn:Hb; [|done].
      rewrite Hother; [done|]. intros ->. by apply (Hmb (chrid r)).
Qed.

Lemma step_Inv_data_store (i : nat) (r r' : Reader) (evs : list event)
    (out : bytes) :
  Inv_own size cs cd r -> Inv_data object size out r ->
  step object (AStore i) r = Some (evs, r') ->
  Inv_data object size (out ++ delivered evs) r'.
Proof.
  intros Hown Hdat Hstep.
  destruct (Inv_own_wid _ _ _ Hfits r Hown)
    as (Hcs & Hcs1 & Hsz & Hw0 & Hmax & Hwid1 & Hrid1).
  simpl in Hstep.
  destruct (threads r !! i) as [[| | |buf chunkID|]|] eqn:Hi;
    try discriminate.
  injection Hstep as <- <-. rewrite app_nil_r. data_facts Hdat.
  pose proof (Ht i _ Hi) as Hbuf. simpl in Hbuf.
  destruct (fly_ids _ _ _ _ Hown chunkID) as (Hid1 & Hid2 & Hid3).
  { by eapply (omap_lookup_elem in_flight). }
  pose proof (ids_order _ _ _ _ Hown) as Hord.
  split; simpl; try done.
  - intros j g Hj. eapply thread_data_insert; [exact Ht| |exact Hj]. done.
  - intros k b Hk Hlt. destruct (decide (k = chunkID)) as [->|Hne].
    + rewrite lookup_insert_eq in Hk. by injection Hk as <-.
    + rewrite lookup_insert_ne in Hk by done. by apply Hah.
  - destruct (decide (chrid r = chunkID)) as [Heq|Hne].
    + rewrite Heq, lookup_insert_eq. rewrite <- Heq in *.
      rewrite Hid2 in Hcur.
      exists (chunk_bytes object (csize r) size (chrid r)).
      split; [done|]. rewrite Hout, Hcur.
      apply chunk_bytes_append; lia.
    + by rewrite lookup_insert_ne.
Qed.

(* The caller takes bytes from the buffer of the current chunk. *)
Lemma Inv_data_drain (r r1 : Reader) (out out' : bytes) (b : nat)
    (content rest' : bytes) :
  Inv_own size cs cd r -> Inv_data object size out r ->
  chunks r !! chrid r = Some b -> heap r !! b = Some content ->
  heap r1 = <[b := rest']> (heap r) ->
  queue (chbuf r1) = queue (chbuf r) -> threads r1 = threads r ->
  chunks r1 = chunks r -> chrid r1 = chrid r -> csize r1 = csize r ->
  out' ++ rest' = out ++ content ->
  out' = take (Z.to_nat (read r1)) object ->
  0 <= read r1 <= size ->
  (closed (chbuf r1) = true -> read r1 = size) ->
  Inv_data object size out' r1.
Proof.
  intros Hown Hdat Hb Hc Hheap Hqe Hte Hce Hre Hcse Hout' Htake Hrd' Hcl'.
  data_facts Hdat. rewrite Hb in Hcur.
  destruct Hcur as (rest & Hrest & Hcur). rewrite Hc in Hrest.
  injection Hrest as <-.
  assert (b < length (heap r))%nat as Hblt by (by eapply lookup_lt_Some).
  split; rewrite ?Hheap, ?Hqe, ?Hte, ?Hce, ?Hre, ?Hcse; try done.
  - intros b' Hb'. rewrite list_lookup_insert_ne; [by apply Hq|].
    intros <-. by apply (queue_not_stored _ _ _ r Hown b (chrid r) Hb').
  - intros j g Hj. specialize (Ht j g Hj).
    destruct g; simpl in *; try done;
      (rewrite list_lookup_insert_ne; [done|]); intros <-;
      by eapply (held_not_stored _ _ _ r Hown b j _ (chrid r) Hj).
  - intros k b' Hk Hlt. rewrite list_lookup_insert_ne; [by apply Hah|].
    intros <-.
    pose proof (stored_once _ _ _ r Hown b k (chrid r) Hk Hb) as Heq. lia.
  - rewrite Hb. exists rest'. rewrite list_lookup_insert_eq by done.
    split; [done|]. by rewrite Hout'.
Qed.

Lemma take_eq_length (l : bytes) (n m : nat) :
  (n <= length l)%nat -> (m <= length l)%nat -> take n l = take m l -> n = m.
Proof.
  intros Hn Hm Heq. apply (f_equal length) in Heq.
  rewrite !length_take in Heq. lia.
Qed.

(* The current chunk is drained before the end of the object: r.chrid++
   and the buffer goes back to the channel. *)
Lemma Inv_data_recycle (r r3 : Reader) (out : bytes) (b : nat) :
  Inv_own size cs cd r -> Inv_data object size out r ->
  chunks r !! chrid r = Some b -> heap r !! b = Some [] ->
  read r < size ->
  heap r3 = heap r ->
  queue (chbuf r3) = queue (chbuf r) ++ [b] -> threads r3 = threads r ->
  chunks r3 = chunks r -> chrid r3 = chrid r + 1 -> csize r3 = csize r ->
  read r3 = read r -> closed (chbuf r3) = closed (chbuf r) ->
  Inv_data object size out r3.
Proof.
  intros Hown Hdat Hb Hc Hlt Hheap Hqe Hte Hce Hre Hcse Hrde Hcle.
  destruct (Inv_own_wid _ _ _ Hfits r Hown)
    as (Hcs & Hcs1 & Hsz & Hw0 & Hmax & Hwid1 & Hrid1).
  pose proof (ids_order _ _ _ _ Hown) as Hord.
  data_facts Hdat. rewrite Hb in Hcur.
  destruct Hcur as (rest & Hrest & Hcur). rewrite Hc in Hrest.
  injection Hrest as <-. rewrite app_nil_r in Hcur.
  assert (read r = (chrid r + 1) * csize r) as Hread.
  { assert (Z.to_nat (read r)
            = Z.to_nat (chunk_end (csize r) size (chrid r))) as Heq.
    { apply (take_eq_length object); [lia| |congruence].
      unfold chunk_end. lia. }
    unfold chunk_end in Heq. lia. }
  split; rewrite ?Hheap, ?Hqe, ?Hte, ?Hce, ?Hre, ?Hcse, ?Hrde, ?Hcle;
    try done.
  - intros b' Hb'. apply elem_of_app in Hb' as [Hb'|Hb']; [by apply Hq|].
    apply list_elem_of_singleton in Hb' as ->. done.
  - intros k b' Hk Hk'. apply Hah; [done|lia].
  - destruct (chunks r !! (chrid r + 1)) as [b'|] eqn:Hb'; [|done].
    exists (chunk_bytes object (csize r) size (chrid r + 1)).
    split; [apply Hah; [done|lia]|].
    rewrite Hout at 1. rewrite Hread.
    apply chunk_bytes_append; lia.
  - right. lia.
Qed.

Lemma Inv_data_caller (r : Reader) (out : bytes) (c : caller_state) :
  Inv_data object size out r -> Inv_data object size out (set_caller c r).
Proof. intros Hdat. data_facts Hdat. by split. Qed.

Lemma prefix_extend (obj out content : bytes) (E n : nat) :
  out ++ content = take E obj -> (n <= length content)%nat ->
  out ++ take n content = take (length out + n) obj.
Proof.
  intros Heq Hn.
  assert (length out + length content <= E)%nat as HE.
  { apply (f_equal length) in Heq.
    rewrite length_app, length_take in Heq. lia. }
  apply (f_equal (take (length out + n))) in Heq.
  rewrite take_app, take_take in Heq.
  rewrite (take_ge out) in Heq by lia.
  replace (length out + n - length out)%nat with n in Heq by lia.
  replace (min (length out + n) E) with (length out + n)%nat in Heq by lia.
  exact Heq.
Qed.

Lemma take_length_take (l : bytes) (n : nat) :
  take (length (take n l)) l = take n l.
Proof.
  rewrite length_take. destruct (Nat.le_ge_cases n (length l)).
  - by rewrite Nat.min_l.
  - rewrite Nat.min_r by done. by rewrite !take_ge by lia.
Qed.

Lemma Inv_data_ext (r r1 : Reader) (out : bytes) :
  Inv_data object size out r ->
  heap r1 = heap r -> queue (chbuf r1) = queue (chbuf r) ->
  threads r1 = threads r -> chunks r1 = chunks r -> chrid r1 = chrid r ->
  csize r1 = csize r -> read r1 = read r ->
  (closed (chbuf r1) = true -> read r = size) ->
  Inv_data object size out r1.
Proof.
  intros Hdat Hh Hq' Ht' Hc' Hr' Hcs' Hrd' Hcl'. data_facts Hdat.
  split; rewrite ?Hh, ?Hq', ?Ht', ?Hc', ?Hr', ?Hcs', ?Hrd'; done.
Qed.

Lemma Read_finish_data (plen : nat) (e : option error) (r : Reader)
    (out : bytes) :
  Inv_own size cs cd r -> Inv_data object size out r ->
  match Read_finish plen (chunks r !! chrid r) e r with
  | Done r1 p e' => Inv_data object size (out ++ p) r1
  | Panics _ r1 => Inv_data object size out r1
  | Blocks => True
  end.
Proof.
  intros Hown Hdat. unfold Read_finish.
  destruct e as [e|]; [by rewrite app_nil_r|].
  destruct (chunks r !! chrid r) as [b|] eqn:Hb; simpl; [|done].
  destruct (heap r !! b) as [content|] eqn:Hc; simpl; [|done].
  destruct (Inv_own_wid _ _ _ Hfits r Hown)
    as (Hcs & Hcs1 & Hsz & Hw0 & Hmax & Hwid1 & Hrid1).
  data_facts Hdat. rewrite Hb in Hcur.
  destruct Hcur as (rest & Hrest & Hcur). rewrite Hc in Hrest.
  injection Hrest as <-.
  assert (Z.of_nat (length out) = read r) as Hlen_out.
  { rewrite Hout at 1. rewrite length_take. lia. }
  assert (read r + Z.of_nat (length content) <= size) as Hroom.
  { apply (f_equal length) in Hcur.
    rewrite length_app, length_take in Hcur. lia. }
  assert (forall n : nat, (n <= length content)%nat ->
            wrap64 (read r + Z.of_nat n) = read r + Z.of_nat n) as Hwrap.
  { intros n Hn. apply wrap64_id. destruct Hfits as [_ Hmax'].
    pose proof (workers_pos (NewReader size cs cd)).
    pose proof (chunk_size_pos (NewReader size cs cd)).
    unfold is_int64, min_int64, max_int64 in *. nia. }
  assert (<[b := content]> (heap r) = heap r) as Hid
    by (by apply list_insert_id).
  destruct content as [|c0 content].
  - (* the buffer is empty *)
    simpl in Hroom.
    destruct plen as [|plen]; simpl.
    + rewrite app_nil_r, Hid, (Hwrap 0%nat), Z.add_0_r by (simpl; lia).
      apply (Inv_data_ext r); simpl; auto.
    + rewrite Hid, (Hwrap 0%nat), Z.add_0_r by (simpl; lia).
      rewrite Hsz. case_bool_decide as Hge.
      * destruct (closed (chbuf r)) eqn:Hclosed;
          [apply (Inv_data_ext r); simpl; auto; intros _; lia|].
        rewrite app_nil_r. apply (Inv_data_ext r); try done.
        intros _. lia.
      * rewrite (wrap64_id _ Hrid1), Hid.
        destruct (closed (chbuf r)) eqn:Hclosed; [specialize (Hcl eq_refl); lia|].
        case_bool_decide; [|done]. rewrite app_nil_r.
        apply (Inv_data_recycle r _ out b); try done. lia.
  - (* bytes are handed over *)
    simpl.
    set (content' := c0 :: content) in *.
    assert (length (take plen content') <= length content')%nat as Hn
      by (rewrite length_take; lia).
    rewrite (Hwrap _ Hn).
    apply (Inv_data_drain r _ out _ b content' (drop plen content'));
      try done; simpl.
    + by rewrite <- app_assoc, take_drop.
    + rewrite <- (take_length_take content' plen) at 1.
      rewrite (prefix_extend object out content' _ _ Hcur Hn).
      f_equal. lia.
    + rewrite length_take. lia.
    + intros Hclosed. specialize (Hcl Hclosed). simpl in Hroom. lia.
Qed.

Lemma curChunk_false (r : Reader) (chunk : option nat) (e : option error) :
  curChunk false r = Some (chunk, e) ->
  chunk = chunks r !! chrid r /\ e = err r
  /\ (is_Some (chunks r !! chrid r) \/ is_Some (err r)).
Proof.
  unfold curChunk, getErr.
  destruct (chunks r !! chrid r), (err r); intros [= <- <-]; eauto.
Qed.

Lemma curChunk_true (r : Reader) (chunk : option nat) (e : option error) :
  curChunk true r = Some (chunk, e) ->
  canceled r = true /\ chunk = None /\ e = Some ErrCanceled.
Proof.
  unfold curChunk. destruct (canceled r); intros [= <- <-]; eauto.
Qed.

Lemma step_Inv_data (a : action) (r r' : Reader) (evs : list event)
    (out : bytes) :
  Inv_own size cs cd r -> Inv_data object size out r ->
  step object a r = Some (evs, r') ->
  Inv_data object size (out ++ delivered evs) r'.
Proof.
  intros Hown Hdat Hstep.
  destruct a as [plen|vd| |i|i|i|i f|i].
  - by apply (step_Inv_data_pool (ARead plen) r).
  - simpl in Hstep.
    destruct (caller r) as [|plen|]; try discriminate.
    destruct (curChunk vd r) as [[chunk e]|] eqn:Hcur; [|discriminate].
    destruct vd.
    + apply curChunk_true in Hcur as (_ & -> & ->). simpl in Hstep.
      injection Hstep as <- <-. simpl. rewrite app_nil_r.
      by apply Inv_data_caller.
    + apply curChunk_false in Hcur as (-> & -> & _).
      pose proof (Read_finish_data plen (err r) r out Hown Hdat) as Hfin.
      destruct (Read_finish plen (chunks r !! chrid r) (err r) r)
        as [r1 p e'|reason r1|]; [| |discriminate];
        injection Hstep as <- <-; simpl; rewrite ?app_nil_r;
        by apply Inv_data_caller.
  - by apply (step_Inv_data_pool AClose r).
  - by apply (step_Inv_data_pool (ATake i) r).
  - by apply (step_Inv_data_pool (AExit i) r).
  - by apply (step_Inv_data_claim i r).
  - by apply (step_Inv_data_fetch i f r).
  - by apply (step_Inv_data_store i r).
Qed.

End DataStep.

(* ---------------- sessions without failure ---------------- *)

Ltac event_in H :=
  repeat (apply elem_of_cons in H as [H|H]; [simplify_eq|]);
  try (by apply elem_of_nil in H).

Section Count.
Variables (object : bytes) (size cs cd : Z).
Hypothesis Hfits : fits size cs cd.

Lemma total_gone_insert_Gone (ts : list goroutine) (i : nat) (g : goroutine) :
  ts !! i = Some g -> total gone (<[i := Gone]> ts) = 0 -> False.
Proof.
  intros Hi H0. pose proof (total_insert gone ts i g Gone Hi) as Hins.
  pose proof (total_gone_bounds ts). simpl in Hins.
  assert (0 <= gone g <= 1) by (destruct g; simpl; lia).
  pose proof (total_gone_live ts i g Hi).
  destruct g; simpl in *; try lia.
  rewrite list_insert_id in H0 by done.
  pose proof (total_insert gone ts i Gone AtPool Hi) as Hins'.
  pose proof (total_gone_bounds (<[i := AtPool]> ts)). simpl in *. lia.
Qed.

(* Unless a goroutine returns or the channel is closed, a step hands
   buffers on without losing any. *)
Lemma step_owned_length (a : action) (r r' : Reader) (evs : list event) :
  Inv_own size cs cd r -> step object a r = Some (evs, r') ->
  total gone (threads r') = 0 -> closed (chbuf r') = false ->
  length (owned r') = length (owned r).
Proof.
  intros Hown Hstep Hgone Hclosed.
  destruct (Inv_own_wid _ _ _ Hfits r Hown)
    as (Hcs & Hcs1 & _ & Hw0 & Hmax & Hwid1 & Hrid1).
  destruct a as [plen|vd| |i|i|i|i f|i].
  - simpl in Hstep. unfold init_Do in Hstep.
    destruct (own_init _ _ _ _ Hown) as (Hinit & _). rewrite Hinit in Hstep.
    destruct (caller r); by simplify_eq.
  - step_inv Hstep.
    all: rewrite ?(wrap64_id (chrid _ + 1)) in * by assumption.
    all: try done.
    all: try (simpl in Hclosed; congruence).
    all: unfold owned, unconsumed; simpl.
    all: match goal with
         | H : chunks ?r !! chrid ?r = Some ?b |- _ =>
             rewrite (filter_succ_delete (chunks r) (chrid r));
             rewrite <- (map_to_list_delete
                           (filter (fun kv : Z * nat => chrid r <= kv.1)
                              (chunks r)) (chrid r) b)
               by (apply map_lookup_filter_Some_2; [done|simpl; lia])
         end.
    all: rewrite ?length_app, ?length_fmap; simpl; lia.
  - simpl in Hstep. by simplify_eq.
  - step_inv Hstep.
    match goal with
    | H : threads ?r !! ?i = Some AtPool |- _ =>
        destruct (thread_swap _ i _ (AtClaim n) H)
          as (hp & hq & fp & fq & H1 & H2 & H3 & H4 & H5)
    end.
    unfold owned, unconsumed; simpl.
    match goal with H : queue _ = _ |- _ => rewrite H end.
    rewrite H1, H2. simpl.
    repeat (rewrite length_app || rewrite length_cons); simpl; lia.
  - step_inv Hstep.
    all: exfalso; by eapply total_gone_insert_Gone.
  - simpl in Hstep.
    destruct (threads r !! i) as [[|buf| | |]|] eqn:Hi; try discriminate.
    destruct (thread_request _ _) as [[offset sz]|];
      injection Hstep as <- <-; simpl in *.
    + destruct (thread_swap _ i _ (AtFetch buf (chwid r) offset sz) Hi)
        as (hp & hq & fp & fq & H1 & H2 & H3 & H4 & H5).
      unfold owned, unconsumed; simpl. by rewrite H1, H2.
    + exfalso. by eapply total_gone_insert_Gone.
  - simpl in Hstep.
    destruct (threads r !! i) as [[| |buf chunkID offset sz| |]|] eqn:Hi;
      try discriminate.
    destruct f as [[e partial]|]; injection Hstep as <- <-; simpl in *.
    + exfalso. unfold setErr in Hgone. simpl in Hgone.
      destruct (err r); by eapply total_gone_insert_Gone.
    + destruct (thread_swap _ i _ (AtStore buf chunkID) Hi)
        as (hp & hq & fp & fq & H1 & H2 & H3 & H4 & H5).
      unfold owned, unconsumed; simpl. by rewrite H1, H2.
  - simpl in Hstep.
    destruct (threads r !! i) as [[| | |buf chunkID|]|] eqn:Hi;
      try discriminate.
    injection Hstep as <- <-; simpl in *.
    destruct (thread_swap _ i _ AtPool Hi)
      as (hp & hq & fp & fq & H1 & H2 & H3 & H4 & H5).
    destruct (fly_ids _ _ _ _ Hown chunkID) as (Hid1 & Hid2 & Hid3).
    { by eapply (omap_lookup_elem in_flight). }
    unfold owned, unconsumed; simpl. rewrite H1, H2. simpl.
    rewrite map_filter_insert_True by (simpl; lia).
    rewrite map_to_list_insert
      by (apply map_lookup_filter_None; by left).
    repeat (rewrite length_app || rewrite length_cons || rewrite length_fmap
            || rewrite fmap_cons); simpl; lia.
Qed.
End Count.

Section Live.
Variables (object : bytes) (cs cd : Z).
Local Abbreviation size := (Z.of_nat (length object)).
Hypothesis Hfits : fits size cs cd.

Ltac live_facts H :=
  pose proof (live_err _ _ _ H) as Lerr;
  pose proof (live_ctx _ _ _ H) as Lctx;
  pose proof (live_plen _ _ _ H) as Lplen;
  pose proof (live_returns _ _ _ H) as Lret;
  pose proof (live_eof _ _ _ H) as Leof;
  pose proof (live_panic _ _ _ H) as Lpanic;
  pose proof (live_crash _ _ _ H) as Lcrash;
  pose proof (live_gone _ _ _ H) as Lgone;
  pose proof (live_claimed _ _ _ H) as Lclaimed;
  pose proof (live_count _ _ _ H) as Lcount.

Lemma Inv_live_first (plen : nat) :
  plen <> 0%nat ->
  Inv_live size [EvInit]
    (set_caller (InRead plen)
       (set_init true (initFunc (NewReader size cs cd)))).
Proof.
  intros Hplen. rewrite initFunc_eq. simpl.
  assert (forall n, omap held (replicate n AtPool) = []) as Hheld
    by (induction n; [done|by csimpl]).
  split; simpl; try done.
  - by intros ? [= <-].
  - intros p e Hin. apply list_elem_of_singleton in Hin. discriminate.
  - split; [|done]. intros [p Hin].
    apply list_elem_of_singleton in Hin. discriminate.
  - intros reason Hin. apply list_elem_of_singleton in Hin. discriminate.
  - intros i Hi. apply lookup_replicate in Hi as [? _]. discriminate.
  - intros id Hid. lia.
  - intros _ _. unfold owned, unconsumed. simpl.
    rewrite Hheld, map_filter_empty, map_to_list_empty.
    simpl. rewrite !app_nil_r, length_seq, length_replicate. done.
Qed.

Lemma gone_insert_mono (ts : list goroutine) (i : nat) (g g' : goroutine) :
  ts !! i = Some g -> g <> Gone ->
  total gone ts <= total gone (<[i := g']> ts).
Proof.
  intros Hi Hg. rewrite (total_insert gone ts i g g' Hi).
  destruct g, g'; simpl; try done; lia.
Qed.

(* What only grows. *)
Lemma step_mono (a : action) (r r' : Reader) (evs : list event) :
  Inv_own size cs cd r -> step object a r = Some (evs, r') ->
  total gone (threads r) <= total gone (threads r')
  /\ (closed (chbuf r) = true -> closed (chbuf r') = true)
  /\ chwid r <= chwid r'
  /\ length (heap r') = length (heap r)
  /\ csize r' = csize r.
Proof.
  intros Hown Hstep.
  pose proof (step_initialised _ _ _ _ _ _ _ _ (own_init _ _ _ _ Hown) Hstep)
    as [Hi' _].
  assert (length (heap r') = length (heap r) /\ csize r' = csize r)
    as [Hheap Hcsz].
  { destruct (own_init _ _ _ _ Hown) as (_ & _ & -> & _ & -> & _).
    by destruct Hi' as (_ & _ & -> & _ & -> & _). }
  destruct (Inv_own_wid _ _ _ Hfits r Hown)
    as (Hcs & Hcs1 & _ & Hw0 & Hmax & Hwid1 & Hrid1).
  cut (total gone (threads r) <= total gone (threads r')
       /\ (closed (chbuf r) = true -> closed (chbuf r') = true)
       /\ chwid r <= chwid r'); [tauto|].
  clear Hi' Hheap Hcsz.
  destruct a as [plen|vd| |i|i|i|i f|i].
  - simpl in Hstep. unfold init_Do in Hstep.
    destruct (own_init _ _ _ _ Hown) as (Hinit & _). rewrite Hinit in Hstep.
    destruct (caller r); simplify_eq. simpl. split; [lia|]. split; [done|lia].
  - step_inv Hstep; simpl; (split; [lia|]); (split; [try done|lia]).
    all: congruence.
  - simpl in Hstep. simplify_eq. simpl. split; [lia|]. split; [done|lia].
  - step_inv Hstep. simpl. split; [by eapply gone_insert_mono|].
    split; [done|lia].
  - step_inv Hstep; simpl; (split; [by eapply gone_insert_mono|]);
      (split; [done|lia]).
  - simpl in Hstep.
    destruct (threads r !! i) as [[|buf| | |]|] eqn:Hi; try discriminate.
    rewrite (wrap64_id _ Hwid1) in Hstep.
    destruct (thread_request _ _) as [[offset sz]|];
      injection Hstep as <- <-; simpl.
    all: split; [by eapply gone_insert_mono|]; split; [done|lia].
  - simpl in Hstep.
    destruct (threads r !! i) as [[| |buf chunkID offset sz| |]|] eqn:Hi;
      try discriminate.
    destruct f as [[e partial]|]; injection Hstep as <- <-; simpl.
    + unfold setErr; simpl; destruct (err r); simpl.
      all: split; [by eapply gone_insert_mono|]; split; [done|lia].
    + split; [by eapply gone_insert_mono|]; split; [done|lia].
  - simpl in Hstep.
    destruct (threads r !! i) as [[| | |buf chunkID|]|] eqn:Hi;
      try discriminate.
    injection Hstep as <- <-; simpl.
    split; [by eapply gone_insert_mono|]; split; [done|lia].
Qed.

Lemma Inv_live_step (a : action) (r r' : Reader) (evs tr : list event) :
  Inv_own size cs cd r -> Inv_live size tr r ->
  step object a r = Some (evs, r') ->
  err r' = None -> canceled r' = false ->
  (forall plen, caller r' = InRead plen -> plen <> 0%nat) ->
  (forall p e, EvReturn p e ∈ evs -> e = None \/ e = Some ErrEOF) ->
  ((exists p, EvReturn p (Some ErrEOF) ∈ evs) \/ closed (chbuf r) = true
   <-> closed (chbuf r') = true) ->
  (forall reason, EvPanic reason ∈ evs -> closed (chbuf r') = true) ->
  (caller r' = Crashed -> closed (chbuf r') = true) ->
  (forall i, threads r' !! i = Some Gone ->
     size <= chwid r' * csize r' \/ closed (chbuf r') = true) ->
  (forall id, 0 <= id < chwid r' -> id * csize r' < size ->
     is_Some (chunks r' !! id) \/ id ∈ omap in_flight (threads r')) ->
  Inv_live size (tr ++ evs) r'.
Proof.
  intros Hown Hlive Hstep Herr Hctx Hplen Hret Heof Hpanic Hcrash Hgone Hcl.
  live_facts Hlive.
  destruct (step_mono _ _ _ _ Hown Hstep) as (Hg & Hc & Hw & Hh & Hcsz).
  split; try done.
  - intros p e Hin. apply elem_of_app in Hin as [Hin|Hin]; eauto.
  - rewrite <- Heof, <- Leof. split.
    + intros [p Hin]. apply elem_of_app in Hin as [Hin|Hin]; eauto.
    + intros [[p Hin]|[p Hin]]; exists p; apply elem_of_app; eauto.
  - intros reason Hin. apply elem_of_app in Hin as [Hin|Hin]; eauto.
  - intros Hg0 Hc0.
    rewrite (step_owned_length object _ _ _ Hfits a r r' evs Hown Hstep Hg0 Hc0).
    rewrite Hh. apply Lcount.
    + pose proof (total_gone_bounds (threads r)). lia.
    + destruct (closed (chbuf r)); [|done]. by rewrite Hc in Hc0.
Qed.

Lemma step_Inv_live_worker (a : action) (r r' : Reader)
    (evs tr : list event) :
  match a with
  | ATake _ | AExit _ | AClaim _ | AFetch _ None | AStore _ => True
  | _ => False
  end ->
  Inv_own size cs cd r -> Inv_live size tr r ->
  step object a r = Some (evs, r') ->
  Inv_live size (tr ++ evs) r'.
Proof.
  intros Ha Hown Hlive Hstep. live_facts Hlive.
  destruct (step_mono _ _ _ _ Hown Hstep) as (Hg & Hc & Hw & Hh & Hcsz).
  destruct (Inv_own_wid _ _ _ Hfits r Hown)
    as (Hcs & Hcs1 & Hsz & Hw0 & Hmax & Hwid1 & Hrid1).
  assert (err r' = err r /\ canceled r' = canceled r /\ caller r' = caller r
          /\ closed (chbuf r') = closed (chbuf r)
          /\ (forall p e, EvReturn p e ∉ evs)
          /\ (forall reason, EvPanic reason ∉ evs)
          /\ exists i g g',
               threads r !! i = Some g
               /\ threads r' = <[i := g']> (threads r)
               /\ g <> Gone
               /\ (g' = Gone ->
                     size <= chwid r' * csize r \/ closed (chbuf r) = true)
               /\ (forall id, 0 <= id < chwid r' -> id * csize r < size ->
                     (is_Some (chunks r !! id)
                      \/ id ∈ omap in_flight (threads r)) \/
                     (id = chwid r /\ in_flight g' = Some id
                      /\ in_flight g = None))
               /\ (forall id, is_Some (chunks r !! id) ->
                     is_Some (chunks r' !! id))
               /\ (in_flight g' = in_flight g
                    \/ in_flight g = None
                    \/ exists id, in_flight g = Some id
                         /\ is_Some (chunks r' !! id)))
    as (Herr & Hctx & Hcaller & Hclosed & Hnoret & Hnopanic
        & i & g & g' & Hi & Hts & Hg0 & Hgone' & Hnew & Hkeep & Hfly).
  { destruct a as [plen|vd| |i|i|i|i f|i]; try done.
    - step_inv Hstep. repeat split; try (intros; intros Hin; event_in Hin).
      exists i, AtPool, (AtClaim n). repeat split; eauto; try done.
    - simpl in Hstep.
      destruct (threads r !! i) as [[| | | |]|] eqn:Hi; try discriminate.
      destruct (_ || _) eqn:Hcond; [|discriminate].
      injection Hstep as <- <-; simpl.
      assert (closed (chbuf r) = true) as Hcl.
      { apply orb_true_iff in Hcond as [Hcond|Hcond]; [|congruence].
        by apply andb_true_iff in Hcond as [? _]. }
      repeat split; try (intros; intros Hin; event_in Hin).
      exists i, AtPool, Gone. repeat split; eauto; try done.
    - simpl in Hstep.
      destruct (threads r !! i) as [[|buf| | |]|] eqn:Hi; try discriminate.
      rewrite (wrap64_id _ Hwid1) in Hstep.
      pose proof (Inv_own_claim_fits _ _ _ Hfits r i _ Hown Hi eq_refl)
        as Hfit.
      destruct (thread_request_no_wrap (set_chwid (chwid r + 1) r) (chwid r))
        as (Hreq & _); simpl; try done.
      { rewrite Hsz. destruct Hfits.
        unfold is_int64, min_int64, max_int64 in *.
        pose proof (workers_pos (NewReader size cs cd)).
        pose proof (chunk_size_pos (NewReader size cs cd)). nia. }
      rewrite Hreq in Hstep. unfold clamped_request in Hstep.
      simpl in Hstep. rewrite Hsz in Hstep.
      case_bool_decide; injection Hstep as <- <-; simpl.
      + repeat split; try (intros; intros Hin; event_in Hin).
        exists i, (AtClaim buf), Gone. repeat split; eauto; try done.
        * intros _. left. nia.
        * intros id Hid Hlt. left. apply Lclaimed; [|done].
          destruct (decide (id = chwid r)) as [->|]; [lia|lia].
      + repeat split; try (intros; intros Hin; event_in Hin).
        eexists i, (AtClaim buf), _. repeat split; eauto; try done.
        intros id Hid Hlt.
        destruct (decide (id = chwid r)) as [->|]; [by right|].
        left. apply Lclaimed; [lia|done].
    - destruct f as [[? ?]|]; [done|]. simpl in Hstep.
      destruct (threads r !! i) as [[| |buf chunkID offset sz| |]|] eqn:Hi;
        try discriminate.
      injection Hstep as <- <-; simpl.
      repeat split; try (intros; intros Hin; event_in Hin).
      eexists i, _, (AtStore buf chunkID). repeat split; eauto; try done.
    - simpl in Hstep.
      destruct (threads r !! i) as [[| | |buf chunkID|]|] eqn:Hi;
        try discriminate.
      injection Hstep as <- <-; simpl.
      repeat split; try (intros; intros Hin; event_in Hin).
      eexists i, _, AtPool. repeat split; eauto; try done.
      + intros id Hid. by apply lookup_insert_is_Some'; right.
      + right. right. exists chunkID. split; [done|].
        apply lookup_insert_is_Some'. by left. }
  destruct (thread_swap _ i g g' Hi)
    as (hp & hq & fp & fq & H1 & H2 & H3 & H4 & H5).
  apply (Inv_live_step a r r' evs tr Hown Hlive Hstep).
  - congruence.
  - congruence.
  - intros plen. rewrite Hcaller. apply Lplen.
  - intros p e Hin. by apply Hnoret in Hin.
  - rewrite Hclosed. split; [|by right].
    intros [[p Hin]|?]; [by apply Hnoret in Hin|done].
  - intros reason Hin. by apply Hnopanic in Hin.
  - rewrite Hcaller, Hclosed. apply Lcrash.
  - intros j Hj. rewrite Hts in Hj. rewrite Hcsz, Hclosed.
    apply list_lookup_insert_Some in Hj as [(-> & -> & _)|[_ Hj]];
      [by apply Hgone'|].
    destruct (Lgone j Hj) as [?|?]; [left; nia|by right].
  - intros id Hid Hlt. rewrite Hcsz in Hlt. rewrite Hts, H4.
    assert (id ∈ omap in_flight (threads r) ->
            is_Some (chunks r' !! id)
            \/ id ∈ fp ++ opt_list (in_flight g') ++ fq) as Hmove.
    { rewrite H3. intros Hin.
      destruct Hfly as [->|[Hn|(id0 & Hg1 & Hsome)]]; [by right| |].
      - right. rewrite Hn in Hin. simpl in Hin.
        apply elem_of_app in Hin as [?|?]; apply elem_of_app; eauto.
        right. apply elem_of_app. by right.
      - rewrite Hg1 in Hin. simpl in Hin.
        apply elem_of_app in Hin as [?|Hin];
          [right; apply elem_of_app; by left|].
        apply elem_of_cons in Hin as [->|?]; [by left|].
        right. apply elem_of_app. right. apply elem_of_app. by right. }
    destruct (Hnew id Hid Hlt) as [[Hsome|Hin]|(-> & Hg' & Hgn)].
    + left. by apply Hkeep.
    + by apply Hmove.
    + right. rewrite Hg'. simpl. apply elem_of_app. right.
      apply elem_of_cons. by left.
Qed.

Lemma step_Inv_live_caller (a : action) (r r' : Reader)
    (evs tr : list event) (out : bytes) :
  match a with
  | ARead plen => plen <> 0%nat
  | AReturn _ => True
  | _ => False
  end ->
  Inv_own size cs cd r -> Inv_data object size out r ->
  Inv_live size tr r ->
  step object a r = Some (evs, r') ->
  Inv_live size (tr ++ evs) r'.
Proof.
  intros Ha Hown Hdat Hlive Hstep. live_facts Hlive.
  destruct (step_mono _ _ _ _ Hown Hstep) as (Hg & Hc & Hw & Hh & Hcsz).
  destruct (Inv_own_wid _ _ _ Hfits r Hown)
    as (Hcs & Hcs1 & Hsz & Hw0 & Hmax & Hwid1 & Hrid1).
  assert (err r' = None /\ canceled r' = false
          /\ threads r' = threads r /\ chunks r' = chunks r
          /\ chwid r' = chwid r
          /\ (forall plen, caller r' = InRead plen -> plen <> 0%nat)
          /\ (forall p e, EvReturn p e ∈ evs -> e = None \/ e = Some ErrEOF)
          /\ ((exists p, EvReturn p (Some ErrEOF) ∈ evs)
               \/ closed (chbuf r) = true <-> closed (chbuf r') = true)
          /\ (forall reason, EvPanic reason ∈ evs ->
                closed (chbuf r') = true)
          /\ (caller r' = Crashed -> closed (chbuf r') = true))
    as (Herr & Hctx & Hts & Hch & Hwid & Hplen & Hret & Heof & Hpanic & Hcrash).
  { destruct a as [plen|vd| |i|i|i|i f|i]; try done.
    - simpl in Hstep. unfold init_Do in Hstep.
      destruct (own_init _ _ _ _ Hown) as (Hinit & _). rewrite Hinit in Hstep.
      destruct (caller r) eqn:Hcaller; simplify_eq. simpl.
      repeat split; try done.
      + by intros ? [= <-].
      + intros p e Hin. by apply elem_of_nil in Hin.
      + intros [[p Hin]|?]; [by apply elem_of_nil in Hin|done].
      + by right.
      + intros reason Hin. by apply elem_of_nil in Hin.
    - simpl in Hstep.
      destruct (caller r) as [|plen|] eqn:Hcaller; try discriminate.
      specialize (Lplen plen eq_refl).
      destruct (curChunk vd r) as [[chunk e]|] eqn:Hcur; [|discriminate].
      destruct vd.
      { apply curChunk_true in Hcur as (? & _). congruence. }
      apply curChunk_false in Hcur as (-> & -> & Hready).
      rewrite Lerr in *. destruct Hready as [[b Hb]|[? ?]]; [|done].
      pose proof (dat_current _ _ _ _ Hdat) as Hcurrent.
      rewrite Hb in *. destruct Hcurrent as (content & Hcontent & _).
      pose proof (dat_closed _ _ _ _ Hdat) as Hdc.
      pose proof (dat_read _ _ _ _ Hdat) as Hdr.
      unfold Read_finish in Hstep. simpl in Hstep.
      rewrite Hcontent in Hstep. simpl in Hstep.
      destruct content as [|c0 content]; simpl in Hstep.
      + destruct plen as [|plen]; [done|]. simpl in Hstep.
        rewrite Z.add_0_r, (wrap64_id (read r)) in Hstep
          by (destruct Hfits; unfold is_int64, min_int64, max_int64 in *;
              pose proof (workers_pos (NewReader size cs cd));
              pose proof (chunk_size_pos (NewReader size cs cd)); nia).
        case_bool_decide as Hge.
        * destruct (closed (chbuf r)) eqn:Hclosed;
            injection Hstep as <- <-; simpl; repeat split; try done.
          all: try (intros p e Hin; event_in Hin; by eauto).
          all: try (intros reason Hin; event_in Hin; done).
          all: try (intros _; by right).
          all: try (intros _; left; exists []; apply elem_of_cons; by left).
        * destruct (closed (chbuf r)) eqn:Hclosed.
          { specialize (Hdc eq_refl). rewrite Hsz in Hge. lia. }
          case_bool_decide; [|discriminate].
          injection Hstep as <- <-; simpl; repeat split; try done.
          all: try (intros p e Hin; event_in Hin; by eauto).
          all: try (intros reason Hin; event_in Hin; done).
          all: try (intros [[p Hin]|?]; [event_in Hin|done]).
      + injection Hstep as <- <-; simpl; repeat split; try done.
        all: try (intros p e Hin; event_in Hin; by eauto).
        all: try (intros reason Hin; event_in Hin; done).
        all: try (intros [[p Hin]|?]; [event_in Hin|done]).
        all: try (by right). }
  apply (Inv_live_step a r r' evs tr Hown Hlive Hstep); try done.
  - intros j Hj. rewrite Hts in Hj. rewrite Hcsz, Hwid.
    destruct (Lgone j Hj) as [?|?]; [by left|right; by apply Hc].
  - intros id. rewrite Hwid, Hcsz, Hch, Hts. apply Lclaimed.
Qed.

End Live.

(* ---------------- no deadlock ---------------- *)

Lemma threads_busy_or_idle (ts : list goroutine) :
  (exists i g, ts !! i = Some g /\ is_Some (held g))
  \/ Forall (fun g => g = AtPool \/ g = Gone) ts.
Proof.
  induction ts as [|g ts [(i & g' & Hi & Hg')|IH]].
  - right. constructor.
  - left. exists (S i), g'. by split.
  - destruct g; try (left; exists 0%nat; eexists; split; [done|by eexists]).
    all: right; constructor; [auto|exact IH].
Qed.

Section Progress.
Variables (object : bytes) (cs cd : Z).
Local Abbreviation size := (Z.of_nat (length object)).
Hypothesis Hfits : fits size cs cd.
Hypothesis Hsize : 1 <= size.

(* A goroutine that holds a buffer can always take its next step. *)
Lemma busy_steps (r : Reader) (i : nat) (g : goroutine) :
  threads r !! i = Some g -> is_Some (held g) ->
  exists a evs r', benign a = true /\ step object a r = Some (evs, r').
Proof.
  intros Hi [b Hb]. destruct g; try discriminate.
  - exists (AClaim i). simpl. rewrite Hi.
    destruct (thread_request _ _) as [[? ?]|]; eauto.
  - exists (AFetch i None). simpl. rewrite Hi. eauto.
  - exists (AStore i). simpl. rewrite Hi. eauto.
Qed.

Lemma idle_no_flight (ts : list goroutine) :
  Forall (fun g => g = AtPool \/ g = Gone) ts ->
  omap in_flight ts = [] /\ omap held ts = [].
Proof.
  induction 1 as [|g ts [-> | ->] _ [IH1 IH2]]; csimpl; auto.
Qed.

Lemma progress (r : Reader) (out : bytes) (tr : list event) :
  Inv_own size cs cd r -> Inv_data object size out r ->
  Inv_live size tr r ->
  closed (chbuf r) = false ->
  exists a evs r', benign a = true /\ step object a r = Some (evs, r').
Proof.
  intros Hown Hdat Hlive Hopen.
  destruct (Inv_own_wid _ _ _ Hfits r Hown)
    as (Hcs & Hcs1 & Hsz & Hw0 & Hmax & Hwid1 & Hrid1).
  destruct (own_init _ _ _ _ Hown) as (Hinit & Hnthreads & Hnheap & Hcap & _).
  pose proof (workers_pos (NewReader size cs cd)) as Hworkers.
  destruct (caller r) as [|plen|] eqn:Hcaller.
  - exists (ARead 1). simpl. rewrite Hcaller. eauto.
  - destruct (chunks r !! chrid r) as [b|] eqn:Hb.
    + (* the current chunk is there: Read returns *)
      exists (AReturn false). simpl. rewrite Hcaller.
      unfold curChunk, getErr. rewrite Hb, (live_err _ _ _ Hlive).
      unfold Read_finish.
      pose proof (dat_current _ _ _ _ Hdat) as Hcur. rewrite Hb in Hcur.
      destruct Hcur as (content & Hcontent & _). simpl.
      rewrite Hcontent. simpl.
      destruct (Buffer_Read content plen) as [[p rest] [[]|]]; simpl;
        try eauto.
      case_bool_decide; rewrite ?Hopen; [eauto|].
      rewrite bool_decide_eq_true_2; [eauto|].
      pose proof (NoDup_bounded_length _ _ (own_nodup _ _ _ _ Hown)
                    (own_valid _ _ _ _ Hown)) as Hlen.
      unfold owned in Hlen. rewrite !length_app in Hlen.
      pose proof (unconsumed_buf r (chrid r) b Hb (Z.le_refl _)) as Hin.
      destruct (map_to_list (unconsumed r)).*2 as [|? ?];
        [by apply elem_of_nil in Hin|].
      simpl in Hlen. lia.
    + (* the current chunk is not there: some goroutine moves *)
      destruct (threads_busy_or_idle (threads r)) as [(i & g & Hi & Hg)|Hidle];
        [by eapply busy_steps|].
      destruct (idle_no_flight _ Hidle) as [Hfly Hheld].
      pose proof (ids_order _ _ _ _ Hown) as Hord.
      assert (chrid r * csize r < size) as Hlt.
      { destruct (dat_chrid _ _ _ _ Hdat) as [->|?]; lia. }
      assert (chrid r = chwid r) as Heq.
      { destruct (decide (chrid r < chwid r)) as [Hlt'|]; [|lia].
        destruct (live_claimed _ _ _ Hlive (chrid r)) as [[? ?]|Hin];
          [lia|lia|congruence|].
        rewrite Hfly in Hin. by apply elem_of_nil in Hin. }
      assert (Forall (fun g => g = AtPool) (threads r)) as Hpool.
      { apply Forall_lookup. intros i g Hi.
        rewrite Forall_lookup in Hidle.
        destruct (Hidle i g Hi) as [->| ->]; [done|].
        destruct (live_gone _ _ _ Hlive i Hi); [lia|congruence]. }
      assert (total gone (threads r) = 0) as Hgone.
      { clear -Hpool. induction Hpool as [|g ts -> _ IH]; simpl; lia. }
      pose proof (live_count _ _ _ Hlive Hgone Hopen) as Hcount.
      unfold owned in Hcount. rewrite Hheld in Hcount.
      assert (unconsumed r = ∅) as Hempty.
      { apply map_empty. intros k. apply map_lookup_filter_None. right.
        intros b' Hk. simpl. destruct (map_ids _ _ _ _ Hown k b' Hk). lia. }
      rewrite Hempty, map_to_list_empty in Hcount. simpl in Hcount.
      rewrite app_nil_r in Hcount.
      destruct (queue (chbuf r)) as [|b q] eqn:Hq; [simpl in Hcount; lia|].
      destruct (threads r) as [|g ts] eqn:Hts; [simpl in Hnthreads; lia|].
      apply Forall_cons in Hpool as [-> _].
      exists (ATake 0). simpl. rewrite Hts, Hq. simpl. eauto.
  - by rewrite (live_crash _ _ _ Hlive Hcaller) in Hopen.
Qed.

End Progress.

(* ---------------- termination ---------------- *)

Section Measure.
Variables (object : bytes) (cs cd : Z).
Local Abbreviation size := (Z.of_nat (length object)).
Hypothesis Hfits : fits size cs cd.

Lemma measure_nonneg (r : Reader) (out : bytes) :
  Inv_own size cs cd r -> Inv_data object size out r ->
  0 <= measure size r.
Proof.
  intros Hown Hdat. unfold measure.
  destruct (Inv_own_wid _ _ _ Hfits r Hown) as (_ & Hcs1 & _).
  pose proof (dat_read _ _ _ _ Hdat).
  pose proof (total_bounds wgt (threads r) 0 4) as Hw.
  assert (forall g, 0 <= wgt g <= 4) as Hg by (intros []; simpl; lia).
  specialize (Hw Hg).
  assert (0 <= size - chrid r * csize r)
    by (destruct (dat_chrid _ _ _ _ Hdat) as [->|?]; lia).
  destruct (closed (chbuf r)), (caller r); lia.
Qed.

Lemma step_measure (a : action) (r r' : Reader) (evs tr : list event)
    (out : bytes) :
  Inv_own size cs cd r -> Inv_data object size out r ->
  Inv_live size tr r -> benign a = true ->
  step object a r = Some (evs, r') ->
  measure size r' + 1 <= measure size r.
Proof.
  intros Hown Hdat Hlive Hben Hstep.
  destruct (Inv_own_wid _ _ _ Hfits r Hown)
    as (Hcs & Hcs1 & Hsz & Hw0 & Hmax & Hwid1 & Hrid1).
  assert (forall n, 0 <= n -> read r + n <= size ->
            wrap64 (read r + n) = read r + n) as Hwrap.
  { intros n Hn Hle. apply wrap64_id. destruct Hfits as [_ Hmax'].
    pose proof (dat_read _ _ _ _ Hdat).
    pose proof (workers_pos (NewReader size cs cd)).
    pose proof (chunk_size_pos (NewReader size cs cd)).
    unfold is_int64, min_int64, max_int64 in *. nia. }
  unfold measure.
  destruct a as [plen|vd| |i|i|i|i f|i]; try done.
  - simpl in Hstep. unfold init_Do in Hstep.
    destruct (own_init _ _ _ _ Hown) as (Hinit & _). rewrite Hinit in Hstep.
    destruct (caller r) eqn:Hcaller; simplify_eq. simpl. lia.
  - simpl in Hstep.
    destruct (caller r) as [|plen|] eqn:Hcaller; try discriminate.
    pose proof (live_plen _ _ _ Hlive plen Hcaller) as Hplen.
    destruct (curChunk vd r) as [[chunk e]|] eqn:Hcur; [|discriminate].
    destruct vd.
    { apply curChunk_true in Hcur as (? & _).
      pose proof (live_ctx _ _ _ Hlive). congruence. }
    apply curChunk_false in Hcur as (-> & -> & Hready).
    rewrite (live_err _ _ _ Hlive) in *.
    destruct Hready as [[b Hb]|[? ?]]; [|done].
    pose proof (dat_current _ _ _ _ Hdat) as Hcurrent.
    rewrite Hb in *. destruct Hcurrent as (content & Hcontent & Hprefix).
    pose proof (dat_read _ _ _ _ Hdat) as Hdr.
    pose proof (dat_out _ _ _ _ Hdat) as Hout.
    assert (read r + Z.of_nat (length content) <= size) as Hroom.
    { apply (f_equal length) in Hprefix.
      rewrite length_app, length_take in Hprefix.
      rewrite Hout, length_take in Hprefix. lia. }
    assert (0 <= size - chrid r * csize r) as Hrid0
      by (destruct (dat_chrid _ _ _ _ Hdat) as [->|?]; lia).
    unfold Read_finish in Hstep. simpl in Hstep.
    rewrite Hcontent in Hstep. simpl in Hstep.
    destruct content as [|c0 content]; simpl in Hstep.
    + destruct plen as [|plen]; [done|]. simpl in Hstep.
      rewrite Z.add_0_r in Hstep.
      specialize (Hwrap 0) as Hwrap0. rewrite Z.add_0_r in Hwrap0.
      rewrite Hwrap0 in Hstep by lia.
      case_bool_decide as Hge.
      * destruct (closed (chbuf r)) eqn:Hclosed;
          injection Hstep as <- <-; simpl; rewrite ?Hclosed; lia.
      * rewrite (wrap64_id _ Hrid1) in Hstep.
        destruct (closed (chbuf r)) eqn:Hclosed;
          [injection Hstep as <- <-; simpl; rewrite ?Hclosed; nia|].
        case_bool_decide; [|discriminate].
        injection Hstep as <- <-; simpl. nia.
    + injection Hstep as <- <-; simpl.
      assert (1 <= Z.of_nat (length (take plen (c0 :: content)))
              <= Z.of_nat (length (c0 :: content))) as Hn.
      { rewrite length_take. simpl. lia. }
      rewrite Hwrap by lia. destruct (closed (chbuf r)); lia.
  - simpl in Hstep.
    destruct (threads r !! i) as [[| | | |]|] eqn:Hi; try discriminate.
    destruct (queue (chbuf r)) as [|b q]; [discriminate|].
    injection Hstep as <- <-; simpl.
    rewrite (total_insert wgt _ i _ (AtClaim b) Hi). simpl. lia.
  - simpl in Hstep.
    destruct (threads r !! i) as [[| | | |]|] eqn:Hi; try discriminate.
    destruct (_ || _); [|discriminate]. injection Hstep as <- <-; simpl.
    rewrite (total_insert wgt _ i _ Gone Hi). simpl. lia.
  - simpl in Hstep.
    destruct (threads r !! i) as [[|buf| | |]|] eqn:Hi; try discriminate.
    rewrite (wrap64_id _ Hwid1) in Hstep.
    pose proof (Inv_own_claim_fits _ _ _ Hfits r i _ Hown Hi eq_refl) as Hfit.
    destruct (thread_request_no_wrap (set_chwid (chwid r + 1) r) (chwid r))
      as (Hreq & _); simpl; try done.
    { rewrite Hsz. destruct Hfits.
      unfold is_int64, min_int64, max_int64 in *.
      pose proof (workers_pos (NewReader size cs cd)).
      pose proof (chunk_size_pos (NewReader size cs cd)). nia. }
    rewrite Hreq in Hstep. unfold clamped_request in Hstep.
    simpl in Hstep. rewrite Hsz in Hstep.
    case_bool_decide; injection Hstep as <- <-; simpl.
    + rewrite (total_insert wgt _ i _ Gone Hi). simpl. nia.
    + rewrite (total_insert wgt _ i _ (AtFetch _ _ _ _) Hi). simpl. nia.
  - destruct f as [[? ?]|]; [done|]. simpl in Hstep.
    destruct (threads r !! i) as [[| |buf chunkID offset sz| |]|] eqn:Hi;
      try discriminate.
    injection Hstep as <- <-; simpl.
    rewrite (total_insert wgt _ i _ (AtStore _ _) Hi). simpl. lia.
  - simpl in Hstep.
    destruct (threads r !! i) as [[| | |buf chunkID|]|] eqn:Hi;
      try discriminate.
    injection Hstep as <- <-; simpl.
    rewrite (total_insert wgt _ i _ AtPool Hi). simpl. lia.
Qed.

End Measure.

(* ---------------- the object is delivered ---------------- *)

Section Total.
Variables (object : bytes) (cs cd : Z).
Local Abbreviation size := (Z.of_nat (length object)).
Hypothesis Hfits : fits size cs cd.
Hypothesis Hsize : 1 <= size.

Lemma step_benign (a : action) (r r' : Reader) (evs tr : list event) :
  benign a = true ->
  Inv_own size cs cd r -> Inv_data object size (delivered tr) r ->
  Inv_live size tr r ->
  step object a r = Some (evs, r') ->
  Inv_own size cs cd r'
  /\ Inv_data object size (delivered (tr ++ evs)) r'
  /\ Inv_live size (tr ++ evs) r'
  /\ measure size r' + 1 <= measure size r.
Proof.
  intros Hben Hown Hdat Hlive Hstep.
  split; [by eapply (step_Inv_own object)|].
  split; [rewrite delivered_app; by eapply step_Inv_data|].
  split; [|by eapply step_measure].
  destruct a as [plen|vd| |i|i|i|i [[? ?]|]|i]; try done.
  - apply (step_Inv_live_caller object cs cd Hfits (ARead plen) r r' evs tr
             (delivered tr)); try done.
    simpl in *. by destruct plen.
  - by apply (step_Inv_live_caller object cs cd Hfits (AReturn vd) r r' evs tr
                (delivered tr)).
  - by apply (step_Inv_live_worker object cs cd Hfits (ATake i) r).
  - by apply (step_Inv_live_worker object cs cd Hfits (AExit i) r).
  - by apply (step_Inv_live_worker object cs cd Hfits (AClaim i) r).
  - by apply (step_Inv_live_worker object cs cd Hfits (AFetch i None) r).
  - by apply (step_Inv_live_worker object cs cd Hfits (AStore i) r).
Qed.

Lemma run_benign (sched : list action) :
  forall (r r' : Reader) (tr0 tr : list event),
    Forall (fun a => benign a = true) sched ->
    Inv_own size cs cd r -> Inv_data object size (delivered tr0) r ->
    Inv_live size tr0 r ->
    run object sched r = Some (tr, r') ->
    Inv_own size cs cd r'
    /\ Inv_data object size (delivered (tr0 ++ tr)) r'
    /\ Inv_live size (tr0 ++ tr) r'
    /\ measure size r' + Z.of_nat (length sched) <= measure size r.
Proof.
  induction sched as [|a sched IH]; intros r r' tr0 tr Hben Hown Hdat Hlive Hrun;
    simpl in Hrun.
  - simplify_eq. rewrite app_nil_r. simpl.
    split; [done|]. split; [done|]. split; [done|lia].
  - destruct (step object a r) as [[evs r1]|] eqn:Hstep; [|discriminate].
    destruct (run object sched r1) as [[evs' r2]|] eqn:Hrun'; [|discriminate].
    simplify_eq. apply Forall_cons in Hben as [Ha Hben].
    destruct (step_benign a r r1 evs tr0 Ha Hown Hdat Hlive Hstep)
      as (Hown1 & Hdat1 & Hlive1 & Hm1).
    destruct (IH r1 r' (tr0 ++ evs) evs' Hben Hown1 Hdat1 Hlive1 Hrun')
      as (Hown2 & Hdat2 & Hlive2 & Hm2).
    rewrite <- app_assoc in Hdat2, Hlive2.
    split; [done|]. split; [done|]. split; [done|]. simpl length. lia.
Qed.

(* With everything delivered and no end-of-data reported yet, the pending
   Read returns end-of-data. *)
Lemma Read_reports_EOF (r : Reader) (tr : list event) (plen : nat) :
  Inv_own size cs cd r -> Inv_data object size (delivered tr) r ->
  Inv_live size tr r ->
  caller r = InRead plen -> delivered tr = object -> ~ eof_reported tr ->
  exists r', step object (AReturn false) r
             = Some ([EvReturn [] (Some ErrEOF)], r').
Proof.
  intros Hown Hdat Hlive Hcaller Hall Hnoeof.
  destruct (Inv_own_wid _ _ _ Hfits r Hown)
    as (Hcs & Hcs1 & Hsz & Hw0 & Hmax & Hwid1 & Hrid1).
  pose proof (live_plen _ _ _ Hlive plen Hcaller) as Hplen.
  pose proof (dat_out _ _ _ _ Hdat) as Hout.
  pose proof (dat_read _ _ _ _ Hdat) as Hrd.
  assert (read r = size) as Hread.
  { rewrite Hall in Hout. apply (f_equal length) in Hout.
    rewrite length_take in Hout. lia. }
  assert (closed (chbuf r) = false) as Hopen.
  { destruct (closed (chbuf r)) eqn:Hc; [|done].
    exfalso. apply Hnoeof. by apply (live_eof _ _ _ Hlive). }
  pose proof (dat_current _ _ _ _ Hdat) as Hcur.
  destruct (chunks r !! chrid r) as [b|] eqn:Hb.
  - destruct Hcur as (rest & Hrest & Hprefix).
    assert (rest = []) as ->.
    { apply (f_equal length) in Hprefix.
      rewrite Hall, length_app, length_take in Hprefix.
      destruct rest; [done|]. simpl in Hprefix. lia. }
    simpl. rewrite Hcaller. unfold curChunk, getErr.
    rewrite Hb, (live_err _ _ _ Hlive). unfold Read_finish. simpl.
    rewrite Hrest. simpl. destruct plen as [|plen]; [done|]. simpl.
    rewrite Z.add_0_r, Hread, wrap64_id, Hsz
      by (destruct Hfits; unfold is_int64, min_int64, max_int64 in *;
          pose proof (workers_pos (NewReader size cs cd));
          pose proof (chunk_size_pos (NewReader size cs cd)); nia).
    rewrite bool_decide_eq_true_2 by lia. rewrite Hopen. eauto.
  - exfalso. destruct (dat_chrid _ _ _ _ Hdat) as [H0|Hlt].
    + rewrite H0 in Hcur. lia.
    + lia.
Qed.

End Total.

Lemma single_shot_read_all (object : bytes) :
  single_shot_read object = object.
Proof.
  unfold single_shot_read, serve. simpl. case_bool_decide as Hlen.
  - done.
  - rewrite Nat2Z.id. by apply take_ge.
Qed.

Section Main.
Variables (object : bytes) (cs cd : Z).
Local Abbreviation size := (Z.of_nat (length object)).

Lemma first_step_benign (a : action) (r : Reader) (evs : list event) :
  benign a = true ->
  step object a (NewReader size cs cd) = Some (evs, r) ->
  exists plen, plen <> 0%nat /\ evs = [EvInit]
    /\ r = set_caller (InRead plen)
             (set_init true (initFunc (NewReader size cs cd))).
Proof.
  intros Hben Hstep. destruct a as [plen|vd| |i|i|i|i f|i]; try done.
  simpl in Hstep. injection Hstep as <- <-.
  exists plen. split; [by destruct plen|done].
Qed.

Lemma measure_first (plen : nat) :
  measure size
    (set_caller (InRead plen)
       (set_init true (initFunc (NewReader size cs cd))))
  = 8 * size + 2 * workers (NewReader size cs cd) + 4.
Proof.
  rewrite initFunc_eq. unfold measure. simpl.
  rewrite total_replicate. simpl.
  pose proof (workers_pos (NewReader size cs cd)). lia.
Qed.

(** C1 (amended): for every object of size S >= 1 and every chunk size
    and concurrency level (those below 1 replaced by their defaults) with
    S + (workers + 1) * chunk size within int64, in every interleaving of
    the goroutines with Reads into non-empty buffers in which no download
    fails and Close is not called:
    the bytes returned by the successive Reads are a prefix of the direct
    single-shot read of the object; every Read returns a nil error or
    io.EOF; io.EOF is reported only once all S bytes were returned; Read
    panics only after it reported io.EOF; the Read pending when all S bytes
    were returned and io.EOF was not yet reported returns no bytes and
    io.EOF; until io.EOF is reported some step is possible; and the session
    has at most 8 S + 2 workers + 5 steps. *)
Theorem Read_delivers_object (sched : list action) (tr : list event)
    (r : Reader) :
  fits size cs cd -> 1 <= size ->
  Forall (fun a => benign a = true) sched ->
  run object sched (NewReader size cs cd) = Some (tr, r) ->
  delivered tr = take (length (delivered tr)) (single_shot_read object)
  /\ (forall p e, EvReturn p e ∈ tr -> e = None \/ e = Some ErrEOF)
  /\ (eof_reported tr -> delivered tr = single_shot_read object)
  /\ (forall reason, EvPanic reason ∈ tr -> eof_reported tr)
  /\ (forall plen, caller r = InRead plen ->
        delivered tr = single_shot_read object -> ~ eof_reported tr ->
        exists r', step object (AReturn false) r
                   = Some ([EvReturn [] (Some ErrEOF)], r'))
  /\ (eof_reported tr
      \/ exists a evs r', benign a = true
           /\ step object a r = Some (evs, r'))
  /\ Z.of_nat (length sched)
     <= 8 * size + 2 * workers (NewReader size cs cd) + 5.
Proof.
  intros Hfits Hsize Hben Hrun. rewrite single_shot_read_all.
  pose proof (workers_pos (NewReader size cs cd)) as Hworkers.
  destruct sched as [|a sched]; simpl in Hrun.
  - simplify_eq. simpl. split; [done|].
    split; [intros p e Hin; by apply elem_of_nil in Hin|].
    split; [intros [p Hin]; by apply elem_of_nil in Hin|].
    split; [intros reason Hin; by apply elem_of_nil in Hin|].
    split; [done|]. split; [|lia].
    right. exists (ARead 1). simpl. eauto.
  - destruct (step object a _) as [[evs r1]|] eqn:Hstep; [|discriminate].
    destruct (run object sched r1) as [[evs' r2]|] eqn:Hrun'; [|discriminate].
    simplify_eq. apply Forall_cons in Hben as [Ha Hben].
    destruct (first_step_benign a r1 evs Ha Hstep) as (plen & Hplen & -> & ->).
    set (r1 := set_caller (InRead plen)
                 (set_init true (initFunc (NewReader size cs cd)))) in *.
    assert (Inv_own size cs cd r1) as Hown1
      by (apply Inv_own_first; [done|by left]).
    assert (Inv_data object size (delivered [EvInit]) r1) as Hdat1
      by (apply (Inv_data_first object cs cd Hfits); by left).
    assert (Inv_live size [EvInit] r1) as Hlive1
      by (by apply Inv_live_first).
    destruct (run_benign object cs cd Hfits sched r1 r [EvInit] evs'
                Hben Hown1 Hdat1 Hlive1 Hrun')
      as (Hown & Hdat & Hlive & Hmeasure).
    unfold r1 in Hmeasure.
    rewrite measure_first in Hmeasure.
    pose proof (measure_nonneg object cs cd Hfits r _ Hown Hdat) as Hnonneg.
    pose proof (dat_out _ _ _ _ Hdat) as Hout.
    pose proof (dat_read _ _ _ _ Hdat) as Hread.
    pose proof (dat_closed _ _ _ _ Hdat) as Hclosed.
    assert (eof_reported ([EvInit] ++ evs') -> delivered ([EvInit] ++ evs') = object)
      as Heof.
    { intros Heof. apply (live_eof _ _ _ Hlive) in Heof.
      rewrite Hout, (Hclosed Heof). apply take_ge. lia. }
    split.
    { rewrite Hout at 1. f_equal. rewrite Hout, length_take. lia. }
    split; [exact (live_returns _ _ _ Hlive)|].
    split; [exact Heof|].
    split.
    { intros reason Hin. apply (live_eof _ _ _ Hlive).
      by apply (live_panic _ _ _ Hlive reason). }
    split.
    { intros plen' Hcaller Hall Hno.
      by apply (Read_reports_EOF object cs cd Hfits Hsize r ([EvInit] ++ evs') plen'). }
    split; [|simpl length; lia].
    destruct (closed (chbuf r)) eqn:Hc.
    + left. by apply (live_eof _ _ _ Hlive).
    + right. by apply (progress object cs cd Hfits Hsize r _ _ Hown Hdat Hlive).
Qed.

End Main.

(** C1, as stated, fails: the Read that returns the last bytes of the
    object returns a nil error although the bytes consumed now equal S,
    and a following Read with an empty p returns 0 bytes and a nil error
    again. *)
Lemma Read_without_EOF_at_end :
  run five_bytes whole_object_read (NewReader 5 5 1)
  = Some ([EvInit; EvRequest 0 5; EvReturn five_bytes None; EvReturn [] None],
          default (NewReader 5 5 1)
            (snd <$> run five_bytes whole_object_read (NewReader 5 5 1)))
  /\ delivered [EvInit; EvRequest 0 5; EvReturn five_bytes None]
     = single_shot_read five_bytes
  /\ ~ eof_reported
         [EvInit; EvRequest 0 5; EvReturn five_bytes None; EvReturn [] None].
Proof.
  split; [vm_compute; reflexivity|]. split; [reflexivity|].
  intros [p Hin]. event_in Hin.
Qed.

Lemma Read_delivers_object_witness :
  exists tr r,
    run five_bytes read_to_the_end (NewReader 5 2 2) = Some (tr, r)
    /\ eof_reported tr
    /\ delivered tr = five_bytes.
Proof.
  destruct (run five_bytes read_to_the_end (NewReader 5 2 2))
    as [[tr r]|] eqn:Hrun; [|vm_compute in Hrun; discriminate].
  exists tr, r. split; [reflexivity|].
  assert (eof_reported tr) as Heof.
  { vm_compute in Hrun. injection Hrun as <- _. exists [].
    repeat (first [apply list_elem_of_here | apply list_elem_of_further]). }
  split; [exact Heof|].
  apply (Read_delivers_object five_bytes 2 2) in Hrun
    as (_ & _ & Hall & _).
  - rewrite (Hall Heof). reflexivity.
  - split; vm_compute; discriminate.
  - simpl. lia.
  - unfold read_to_the_end. repeat (apply Forall_cons_2; [reflexivity|]).
    apply Forall_nil_2.
Defined.

(* A Read after the one that reported io.EOF closes r.chbuf a second
   time. *)
Lemma Read_after_EOF_panics :
  exists tr r,
    run five_bytes (read_to_the_end ++ [ARead 3; AReturn false])
      (NewReader 5 2 2) = Some (tr, r)
    /\ last tr = Some (EvPanic "close of closed channel")
    /\ caller r = Crashed.
Proof.
  eexists _, _. split; [vm_compute; reflexivity|]. split; reflexivity.
Qed.

(* An object of size 0: the goroutine claims chunk 0, finds offset 0 >=
   size 0 and returns without storing a chunk or an error; the Read waits
   in curChunk, and no step but Close is left. *)
Lemma Read_of_empty_object_blocks :
  run [] [ARead 1; ATake 0; AClaim 0] (NewReader 0 1 1)
  = Some ([EvInit], empty_object_blocked)
  /\ caller empty_object_blocked = InRead 1
  /\ threads empty_object_blocked = [Gone]
  /\ chunks empty_object_blocked = ∅
  /\ err empty_object_blocked = None
  /\ (forall a, a <> AClose -> step [] a empty_object_blocked = None).
Proof.
  split; [vm_compute; reflexivity|].
  split; [vm_compute; reflexivity|].
  split; [vm_compute; reflexivity|].
  split; [vm_compute; reflexivity|].
  split; [vm_compute; reflexivity|].
  intros a Ha. destruct a as [plen|[]| |[|i]|[|i]|[|i]|[|i] f|[|i]];
    try (vm_compute; reflexivity). done.
Qed.

(* ---------------- every session, failures and Close included ---------------- *)

Lemma step_first (object : bytes) (size cs cd : Z) (a : action)
    (r r' : Reader) (evs : list event) :
  untouched size cs cd r -> step object a r = Some (evs, r') ->
  (untouched size cs cd r' /\ evs = [])
  \/ (exists plen, evs = [EvInit]
        /\ r' = set_caller (InRead plen) (set_init true (initFunc r))).
Proof.
  intros Hr Hstep.
  destruct a as [plen|vd| |i|i|i|i f|i].
  - right. exists plen.
    destruct Hr as [-> | ->]; simpl in Hstep; by simplify_eq.
  - destruct Hr as [-> | ->]; discriminate.
  - left. simpl in Hstep. simplify_eq. split; [|reflexivity].
    destruct Hr as [-> | ->]; [by right|by right].
  - destruct Hr as [-> | ->]; discriminate.
  - destruct Hr as [-> | ->]; discriminate.
  - destruct Hr as [-> | ->]; discriminate.
  - destruct Hr as [-> | ->]; discriminate.
  - destruct Hr as [-> | ->]; discriminate.
Qed.

Section Safety.
Variables (object : bytes) (cs cd : Z).
Local Abbreviation size := (Z.of_nat (length object)).
Hypothesis Hfits : fits size cs cd.

Lemma run_Inv_data (sched : list action) :
  forall (r r' : Reader) (tr : list event) (out : bytes),
    Inv_own size cs cd r -> Inv_data object size out r ->
    run object sched r = Some (tr, r') ->
    Inv_own size cs cd r' /\ Inv_data object size (out ++ delivered tr) r'.
Proof.
  induction sched as [|a sched IH]; intros r r' tr out Hown Hdat Hrun;
    simpl in Hrun.
  - simplify_eq. simpl. by rewrite app_nil_r.
  - destruct (step object a r) as [[evs r1]|] eqn:Hstep; [|discriminate].
    destruct (run object sched r1) as [[evs' r2]|] eqn:Hrun'; [|discriminate].
    simplify_eq.
    rewrite delivered_app, app_assoc. apply (IH r1); [| |done].
    + by eapply (step_Inv_own object).
    + by eapply step_Inv_data.
Qed.

Lemma run_new_Inv_data (sched : list action) :
  forall (r r' : Reader) (tr : list event),
    untouched size cs cd r -> run object sched r = Some (tr, r') ->
    (untouched size cs cd r' /\ tr = [])
    \/ (Inv_own size cs cd r' /\ Inv_data object size (delivered tr) r').
Proof.
  induction sched as [|a sched IH]; intros r r' tr Hr Hrun; simpl in Hrun.
  - simplify_eq. by left.
  - destruct (step object a r) as [[evs r1]|] eqn:Hstep; [|discriminate].
    destruct (run object sched r1) as [[evs' r2]|] eqn:Hrun'; [|discriminate].
    simplify_eq.
    destruct (step_first _ _ _ _ _ _ _ _ Hr Hstep)
      as [[Hr1 ->]|(plen & -> & ->)].
    + by apply (IH r1).
    + right.
      apply (run_Inv_data sched
               (set_caller (InRead plen) (set_init true (initFunc r)))
               r' evs' []); [| |done].
      * by apply Inv_own_first.
      * by apply (Inv_data_first object cs cd Hfits).
Qed.

(** X1: in every session whose sizes fit an int64, whatever the
    interleaving, with downloads that fail after writing any bytes and with
    Close called at any time: the bytes the Reads have returned so far are
    exactly the first r.read bytes of the object, r.read counts them and
    stays within 0..S, and once r.chbuf is closed all S bytes have been
    returned. *)
Theorem delivered_is_prefix (sched : list action) (tr : list event)
    (r : Reader) :
  run object sched (NewReader size cs cd) = Some (tr, r) ->
  delivered tr = take (Z.to_nat (read r)) object
  /\ 0 <= read r <= size
  /\ Z.of_nat (length (delivered tr)) = read r
  /\ (closed (chbuf r) = true -> delivered tr = object).
Proof.
  intros Hrun.
  assert (delivered tr = take (Z.to_nat (read r)) object
          /\ 0 <= read r <= size
          /\ (closed (chbuf r) = true -> read r = size))
    as (Hout & Hread & Hclosed).
  { destruct (run_new_Inv_data sched _ r tr (or_introl eq_refl) Hrun)
      as [[Hr ->]|[_ Hdat]].
    - destruct Hfits as [Hsz _].
      destruct Hr as [-> | ->]; simpl; (split; [done|]); (split; [lia|done]).
    - split; [exact (dat_out _ _ _ _ Hdat)|].
      split; [exact (dat_read _ _ _ _ Hdat)|exact (dat_closed _ _ _ _ Hdat)]. }
  split; [exact Hout|]. split; [exact Hread|]. split.
  - rewrite Hout, length_take. lia.
  - intros Hc. rewrite Hout, (Hclosed Hc). apply take_ge. lia.
Qed.

End Safety.

Section Exclusive.
Variables (object : bytes) (size cs cd : Z).
Hypothesis Hfits : fits size cs cd.

(** X2: at every point of every session whose sizes fit an int64
    (0 <= S and S + (goroutines + 1) * chunk size <= 2^63 - 1, the defaults
    applied) no buffer is shared: no two goroutines hold the same buffer, a
    buffer held by a goroutine is neither queued in r.chbuf nor the buffer
    of a chunk that is yet to be consumed (so not the one Read reads from),
    a queued buffer is not such a chunk's buffer either, two such chunks
    have different buffers, and no buffer is queued twice. *)
Theorem buffers_not_shared (sched : list action) (tr : list event)
    (r : Reader) :
  run object sched (NewReader size cs cd) = Some (tr, r) ->
  (forall i j g g' b, threads r !! i = Some g -> held g = Some b ->
     threads r !! j = Some g' -> held g' = Some b -> i = j)
  /\ (forall i g b, threads r !! i = Some g -> held g = Some b ->
        (b ∉ queue (chbuf r))
        /\ forall k, chrid r <= k -> chunks r !! k <> Some b)
  /\ (forall b k, b ∈ queue (chbuf r) -> chrid r <= k ->
        chunks r !! k <> Some b)
  /\ (forall b k1 k2, chunks r !! k1 = Some b -> chunks r !! k2 = Some b ->
        chrid r <= k1 -> chrid r <= k2 -> k1 = k2)
  /\ NoDup (queue (chbuf r)).
Proof.
  intros Hrun.
  destruct (run_new_Inv_own object size cs cd Hfits sched _ _ _
              (or_introl eq_refl) Hrun) as [Hr|Hinv].
  - assert (threads r = [] /\ queue (chbuf r) = [] /\ chunks r = ∅)
      as (Ht & Hq & Hc) by (destruct Hr as [-> | ->]; done).
    rewrite Ht, Hq, Hc.
    split; [intros i j g g' b Hi; by rewrite lookup_nil in Hi|].
    split; [intros i g b Hi; by rewrite lookup_nil in Hi|].
    split; [intros b k Hb; by apply elem_of_nil in Hb|].
    split; [intros b k1 k2 Hk; by rewrite lookup_empty in Hk|].
    apply NoDup_nil_2.
  - split; [intros i j g g' b; by apply (held_once size cs cd r Hinv)|].
    split.
    { intros i g b Hi Hg. split.
      - intros Hb. by apply (queue_not_held size cs cd r Hinv b i g).
      - intros k. by apply (held_not_stored size cs cd r Hinv b i g). }
    split; [intros b k; by apply (queue_not_stored size cs cd r Hinv)|].
    split; [intros b k1 k2; by apply (stored_once size cs cd r Hinv)|].
    pose proof (own_nodup _ _ _ _ Hinv) as Hnd. unfold owned in Hnd.
    by apply NoDup_app in Hnd as (Hnd & _).
Qed.
End Exclusive.

(* ---------------- the range requests of a session ---------------- *)

Lemma requests_app (tr1 tr2 : list event) :
  requests (tr1 ++ tr2) = requests tr1 ++ requests tr2.
Proof. unfold requests. by rewrite omap_app. Qed.

Section Requests.
Variables (object : bytes) (cs cd : Z).
Local Abbreviation size := (Z.of_nat (length object)).
Hypothesis Hfits : fits size cs cd.

Lemma Inv_req_first (plen : nat) (r : Reader) :
  Inv_req size [] r.
Proof.
  split; [|apply NoDup_nil_2].
  intros offset sz Hin. by apply elem_of_nil in Hin.
Qed.

(* Steps that make no request and start no download. *)
Lemma Inv_req_frame (reqs : list (Z * Z)) (r r' : Reader) :
  Inv_req size reqs r ->
  csize r' = csize r -> chwid r <= chwid r' ->
  (forall i g', threads r' !! i = Some g' -> forall k, fetching k g' ->
     exists g, threads r !! i = Some g /\ fetching k g) ->
  Inv_req size reqs r'.
Proof.
  intros [Hc Hnd] Hcs Hwid Hth. split; [|done].
  intros offset sz Hin.
  destruct (Hc offset sz Hin) as (k & Hk & Ho & Hs & H1 & H2 & Hf).
  exists k. rewrite Hcs. repeat (split; [lia || done|]).
  intros i g' Hi Hfetch.
  destruct (Hth i g' Hi k Hfetch) as (g & Hg & Hfg). by apply (Hf i g).
Qed.

Lemma fetching_insert (ts : list goroutine) (i j : nat) (g g' : goroutine)
    (k : Z) :
  ~ fetching k g ->
  <[i := g]> ts !! j = Some g' -> fetching k g' ->
  exists g0, ts !! j = Some g0 /\ fetching k g0.
Proof.
  intros Hg Hj Hf.
  apply list_lookup_insert_Some in Hj as [(-> & -> & _)|[_ Hj]]; [done|eauto].
Qed.

Lemma step_caller_frame (a : action) (r r' : Reader) (evs : list event) :
  match a with
  | ARead _ | AReturn _ | AClose => True
  | _ => False
  end ->
  init r = true ->
  step object a r = Some (evs, r') ->
  threads r' = threads r /\ csize r' = csize r /\ chwid r' = chwid r
  /\ requests evs = [].
Proof.
  intros Ha Hinit Hstep. destruct a as [plen|vd| |i|i|i|i f|i]; try done.
  - simpl in Hstep. unfold init_Do in Hstep. rewrite Hinit in Hstep.
    destruct (caller r); by simplify_eq.
  - step_inv Hstep. all: done.
  - simpl in Hstep. by simplify_eq.
Qed.

Lemma step_Inv_req (a : action) (r r' : Reader) (evs : list event)
    (out : bytes) (reqs : list (Z * Z)) :
  Inv_own size cs cd r -> Inv_data object size out r ->
  Inv_req size reqs r ->
  step object a r = Some (evs, r') ->
  Inv_req size (reqs ++ requests evs) r'.
Proof.
  intros Hown Hdat Hreq Hstep.
  destruct (Inv_own_wid _ _ _ Hfits r Hown)
    as (Hcs & Hcs1 & Hsz & Hw0 & Hmax & Hwid1 & Hrid1).
  assert (init r = true) as Hinit by apply (own_init _ _ _ _ Hown).
  destruct a as [plen|vd| |i|i|i|i f|i].
  1-3: match type of Hstep with
       | step _ ?a _ = _ =>
           destruct (step_caller_frame a r r' evs I Hinit Hstep)
             as (Ht & Hc & Hw & ->)
       end; rewrite app_nil_r;
       apply (Inv_req_frame reqs r r' Hreq Hc); [lia|];
       rewrite Ht; eauto.
  - (* ATake *)
    simpl in Hstep.
    destruct (threads r !! i) as [[| | | |]|] eqn:Hi; try discriminate.
    destruct (queue (chbuf r)) as [|b q]; [discriminate|].
    injection Hstep as <- <-. rewrite app_nil_r.
    apply (Inv_req_frame reqs r _ Hreq); [done|simpl; lia|].
    intros j g' Hj k Hf. simpl in Hj.
    eapply (fetching_insert (threads r) i j _ g' k); [|exact Hj|exact Hf].
    simpl; tauto.
  - (* AExit *)
    simpl in Hstep.
    destruct (threads r !! i) as [[| | | |]|] eqn:Hi; try discriminate.
    case_match; [|discriminate].
    injection Hstep as <- <-. rewrite app_nil_r.
    apply (Inv_req_frame reqs r _ Hreq); [done|simpl; lia|].
    intros j g' Hj k Hf. simpl in Hj.
    eapply (fetching_insert (threads r) i j _ g' k); [|exact Hj|exact Hf].
    simpl; tauto.
  - (* AClaim *)
    simpl in Hstep.
    destruct (threads r !! i) as [[|buf| | |]|] eqn:Hi; try discriminate.
    rewrite (wrap64_id _ Hwid1) in Hstep.
    destruct Hreq as [Hc Hnd].
    assert (forall g', (g' = Gone \/ exists o s, g' = AtFetch buf (chwid r) o s) ->
              Inv_req size reqs
                (set_thread i g' (set_chwid (chwid r + 1) r))) as Hgoal.
    { intros g' Hg'. split; [|done].
      intros offset sz Hin.
      destruct (Hc offset sz Hin) as (k & Hk & Ho & Hs & H1 & H2 & Hf).
      exists k. simpl. repeat (split; [lia || done|]).
      intros j g Hj Hfetch.
      apply list_lookup_insert_Some in Hj as [(-> & <- & _)|[_ Hj]].
      - destruct Hg' as [->|(o & s & ->)]; simpl in Hfetch; [done|lia].
      - by apply (Hf j g). }
    destruct (thread_request _ _) as [[offset sz]|];
      injection Hstep as <- <-; rewrite app_nil_r; apply Hgoal; eauto.
  - (* AFetch *)
    simpl in Hstep.
    destruct (threads r !! i) as [[| |buf k offset sz| |]|] eqn:Hi;
      try discriminate.
    pose proof (dat_threads _ _ _ _ Hdat i _ Hi) as (_ & Ho & Hs).
    assert (k ∈ omap in_flight (threads r)) as Hfly
      by (by eapply omap_lookup_elem).
    destruct (fly_ids _ _ _ _ Hown k Hfly) as (Hk1 & _ & Hk2).
    pose proof (ids_order _ _ _ _ Hown) as Hord.
    destruct Hreq as [Hc Hnd].
    assert (forall g' r1, (forall k', ~ fetching k' g') ->
              threads r1 = threads r -> csize r1 = csize r ->
              chwid r1 = chwid r ->
              Inv_req size (reqs ++ [(offset, sz)]) (set_thread i g' r1))
      as Hgoal.
    { intros g' r1 Hg' Ht1 Hc1 Hw1. split.
      - intros offset' sz' Hin. simpl. rewrite Ht1, Hc1, Hw1.
        apply elem_of_app in Hin as [Hin|Hin].
        + destruct (Hc offset' sz' Hin) as (k' & Hk & Ho' & Hs' & H1 & H2 & Hf).
          exists k'. repeat (split; [lia || done|]).
          intros j g Hj Hfetch.
          apply list_lookup_insert_Some in Hj as [(Hij & <- & _)|[_ Hj]].
          * by apply (Hg' k').
          * by apply (Hf j g).
        + apply list_elem_of_singleton in Hin. injection Hin as -> ->.
          exists k. split; [lia|]. split; [done|].
          split; [rewrite Ho; done|]. split; [nia|]. split; [nia|].
          intros j g Hj Hfetch.
          apply list_lookup_insert_Some in Hj as [(Hij & <- & _)|[Hne Hj]];
            [by apply (Hg' k)|].
          apply Hne.
          apply (omap_NoDup_lookup in_flight (threads r) i j _ g k
                   (fly_nodup _ _ _ _ Hown) Hi Hj eq_refl).
          destruct g; simpl in Hfetch; try done. by subst.
      - rewrite fmap_app. apply NoDup_app. split; [done|].
        split; [|apply NoDup_singleton].
        intros o Hin1 Hin2. simpl in Hin2.
        apply list_elem_of_singleton in Hin2 as ->.
        apply list_elem_of_fmap in Hin1 as ([o' s'] & Heq & Hin).
        simpl in Heq. subst o'.
        destruct (Hc offset s' Hin) as (k' & Hk & Ho' & _ & _ & _ & Hf).
        apply (Hf i _ Hi). simpl. nia. }
    destruct f as [[e partial]|]; injection Hstep as <- <-; simpl.
    + apply Hgoal; [intros k'; simpl; tauto|..]; unfold setErr; simpl;
        by destruct (err r).
    + apply Hgoal; [intros k'; simpl; tauto|done..].
  - (* AStore *)
    simpl in Hstep.
    destruct (threads r !! i) as [[| | |buf k|]|] eqn:Hi; try discriminate.
    injection Hstep as <- <-. rewrite app_nil_r.
    apply (Inv_req_frame reqs r _ Hreq); [done|simpl; lia|].
    intros j g' Hj k' Hf. simpl in Hj.
    eapply (fetching_insert (threads r) i j _ g' k'); [|exact Hj|exact Hf].
    simpl; tauto.
Qed.

End Requests.

Section RequestsRun.
Variables (object : bytes) (cs cd : Z).
Local Abbreviation size := (Z.of_nat (length object)).
Hypothesis Hfits : fits size cs cd.

Lemma run_Inv_req (sched : list action) :
  forall (r r' : Reader) (tr : list event) (out : bytes)
         (reqs : list (Z * Z)),
    Inv_own size cs cd r -> Inv_data object size out r ->
    Inv_req size reqs r ->
    run object sched r = Some (tr, r') ->
    Inv_own size cs cd r' /\ Inv_req size (reqs ++ requests tr) r'.
Proof.
  induction sched as [|a sched IH]; intros r r' tr out reqs Hown Hdat Hreq Hrun;
    simpl in Hrun.
  - simplify_eq. simpl. by rewrite app_nil_r.
  - destruct (step object a r) as [[evs r1]|] eqn:Hstep; [|discriminate].
    destruct (run object sched r1) as [[evs' r2]|] eqn:Hrun'; [|discriminate].
    simplify_eq.
    rewrite requests_app, app_assoc.
    apply (IH r1 r' evs' (out ++ delivered evs)); [| | |done].
    + by eapply (step_Inv_own object).
    + by eapply step_Inv_data.
    + by eapply step_Inv_req.
Qed.

Lemma run_new_Inv_req (sched : list action) :
  forall (r r' : Reader) (tr : list event),
    untouched size cs cd r -> run object sched r = Some (tr, r') ->
    (untouched size cs cd r' /\ tr = [])
    \/ (Inv_own size cs cd r' /\ Inv_req size (requests tr) r').
Proof.
  induction sched as [|a sched IH]; intros r r' tr Hr Hrun; simpl in Hrun.
  - simplify_eq. by left.
  - destruct (step object a r) as [[evs r1]|] eqn:Hstep; [|discriminate].
    destruct (run object sched r1) as [[evs' r2]|] eqn:Hrun'; [|discriminate].
    simplify_eq.
    destruct (step_first _ _ _ _ _ _ _ _ Hr Hstep)
      as [[Hr1 ->]|(plen & -> & ->)].
    + by apply (IH r1).
    + right.
      apply (run_Inv_req sched
               (set_caller (InRead plen) (set_init true (initFunc r)))
               r' evs' [] []); [| | |done].
      * by apply Inv_own_first.
      * by apply (Inv_data_first object cs cd Hfits).
      * by apply (Inv_req_first object).
Qed.

(** X3: in a session on an object of S bytes (r.size = S) whose sizes
    fit an int64 (S + (goroutines + 1) * chunk size <= 2^63 - 1, the
    defaults applied), every range request is for one whole chunk inside
    the object: its offset is a multiple of the chunk size, its size is
    min(chunk size, S - offset), at least one byte and not past the end; no
    offset is requested twice, two requests never overlap, and there are at
    most ceil(S / chunk size) requests. *)
Theorem requests_disjoint (sched : list action) (tr : list event)
    (r : Reader) :
  run object sched (NewReader size cs cd) = Some (tr, r) ->
  let csz := chunk_size (NewReader size cs cd) in
  (forall offset sz, (offset, sz) ∈ requests tr ->
     exists k, 0 <= k /\ offset = k * csz
       /\ sz = Z.min csz (size - offset) /\ 1 <= sz /\ offset + sz <= size)
  /\ NoDup (requests tr).*1
  /\ (forall i j o1 s1 o2 s2,
        requests tr !! i = Some (o1, s1) ->
        requests tr !! j = Some (o2, s2) -> i <> j ->
        o1 + s1 <= o2 \/ o2 + s2 <= o1)
  /\ Z.of_nat (length (requests tr)) <= (size + csz - 1) / csz.
Proof.
  intros Hrun csz.
  pose proof (chunk_size_pos (NewReader size cs cd)) as Hpos. fold csz in Hpos.
  assert ((forall offset sz, (offset, sz) ∈ requests tr ->
             exists k, 0 <= k /\ offset = k * csz
               /\ sz = Z.min csz (size - offset) /\ 1 <= sz
               /\ offset + sz <= size)
          /\ NoDup (requests tr).*1) as [Hchunk Hnd].
  { destruct (run_new_Inv_req sched _ r tr (or_introl eq_refl) Hrun)
      as [[_ ->]|[Hown [Hc Hnd]]].
    - split; [|apply NoDup_nil_2].
      intros offset sz Hin. by apply elem_of_nil in Hin.
    - split; [|done]. intros offset sz Hin.
      destruct (Hc offset sz Hin) as (k & Hk & Ho & Hs & H1 & H2 & _).
      assert (csize r = csz) as <- by apply (own_init _ _ _ _ Hown).
      exists k. repeat (split; [lia || done|]). done. }
  split; [exact Hchunk|]. split; [exact Hnd|]. split.
  - intros i j o1 s1 o2 s2 Hi Hj Hne.
    destruct (Hchunk o1 s1) as (k1 & Hk1 & Ho1 & Hs1 & _);
      [by eapply list_elem_of_lookup_2|].
    destruct (Hchunk o2 s2) as (k2 & Hk2 & Ho2 & Hs2 & _);
      [by eapply list_elem_of_lookup_2|].
    assert (o1 <> o2) as Hoff.
    { intros ->. apply Hne.
      apply (NoDup_lookup _ i j o2 Hnd); rewrite list_lookup_fmap.
      - by rewrite Hi.
      - by rewrite Hj. }
    assert (k1 <> k2) by (intros ->; lia). nia.
  - assert (NoDup (requests tr)) as Hnd' by (by eapply NoDup_fmap_1).
    pose proof (NoDup_bounded_length
                  ((fun os : Z * Z => Z.to_nat (os.1 / csz)) <$> requests tr)
                  (Z.to_nat ((size + csz - 1) / csz))) as Hlen.
    rewrite length_fmap in Hlen.
    assert (0 <= (size + csz - 1) / csz) by (apply Z.div_pos; lia).
    cut (length (requests tr) <= Z.to_nat ((size + csz - 1) / csz))%nat;
      [lia|].
    apply Hlen.
    + apply NoDup_fmap_2_strong; [|done].
      intros [o1 s1] [o2 s2] H1 H2 Heq. simpl in Heq.
      destruct (Hchunk o1 s1 H1) as (k1 & Hk1 & Ho1 & Hs1 & _).
      destruct (Hchunk o2 s2 H2) as (k2 & Hk2 & Ho2 & Hs2 & _).
      rewrite Ho1, Ho2 in Heq. rewrite !Z.div_mul in Heq by lia.
      assert (k1 = k2) by lia. subst. reflexivity.
    + apply Forall_fmap, Forall_forall. intros [o s] Hin. simpl.
      destruct (Hchunk o s Hin) as (k & Hk & Ho & Hs & H1 & H2).
      rewrite Ho, Z.div_mul by lia.
      cut (k + 1 <= (size + csz - 1) / csz); [lia|].
      apply Z.div_le_lower_bound; [lia|]. nia.
Qed.

End RequestsRun.

(* ---------------- an object of size 0 ---------------- *)

Section Empty.
Variables (object : bytes) (cs cd : Z).
Hypothesis Hfits : fits 0 cs cd.

Lemma step_nothing_to_read (a : action) (r r' : Reader) (evs : list event) :
  Inv_own 0 cs cd r -> nothing_to_read r -> a <> AClose ->
  step object a r = Some (evs, r') ->
  nothing_to_read r' /\ evs = [].
Proof.
  intros Hown (Hc & He & Hx & Hth) Ha Hstep.
  destruct (Inv_own_wid _ _ _ Hfits r Hown)
    as (Hcs & Hcs1 & Hsz & Hw0 & Hmax & Hwid1 & Hrid1).
  assert (init r = true) as Hinit by apply (own_init _ _ _ _ Hown).
  assert (forall g r1, in_flight g = None ->
            chunks r1 = chunks r -> err r1 = err r ->
            canceled r1 = canceled r -> threads r1 = threads r ->
            forall i, nothing_to_read (set_thread i g r1)) as Hgoal.
  { intros g r1 Hg Hc1 He1 Hx1 Ht1 i. unfold nothing_to_read. simpl.
    rewrite Hc1, He1, Hx1, Ht1. repeat (split; [done|]).
    intros j g' Hj.
    apply list_lookup_insert_Some in Hj as [(_ & <- & _)|[_ Hj]]; eauto. }
  destruct a as [plen|vd| |i|i|i|i f|i]; try done.
  - simpl in Hstep. unfold init_Do in Hstep. rewrite Hinit in Hstep.
    destruct (caller r); by simplify_eq.
  - simpl in Hstep. destruct (caller r); try discriminate.
    unfold curChunk, getErr in Hstep. rewrite Hc, He, Hx, lookup_empty in Hstep.
    by destruct vd.
  - simpl in Hstep.
    destruct (threads r !! i) as [[| | | |]|] eqn:Hi; try discriminate.
    destruct (queue (chbuf r)) as [|b q]; [discriminate|].
    injection Hstep as <- <-. split; [|done]. by apply Hgoal.
  - simpl in Hstep.
    destruct (threads r !! i) as [[| | | |]|] eqn:Hi; try discriminate.
    case_match; [|discriminate].
    injection Hstep as <- <-. split; [|done]. by apply Hgoal.
  - simpl in Hstep.
    destruct (threads r !! i) as [[|buf| | |]|] eqn:Hi; try discriminate.
    rewrite (wrap64_id _ Hwid1) in Hstep.
    pose proof (Inv_own_claim_fits _ _ _ Hfits r i _ Hown Hi eq_refl) as Hfit.
    destruct (thread_request_no_wrap (set_chwid (chwid r + 1) r) (chwid r))
      as (_ & Hnone); simpl; try done.
    { rewrite Hsz. unfold is_int64, min_int64, max_int64. lia. }
    rewrite Hnone in Hstep by (simpl; rewrite Hsz; nia).
    injection Hstep as <- <-. split; [|done]. by apply Hgoal.
  - simpl in Hstep.
    destruct (threads r !! i) as [[| | | |]|] eqn:Hi; try discriminate.
    by apply Hth in Hi.
  - simpl in Hstep.
    destruct (threads r !! i) as [[| | | |]|] eqn:Hi; try discriminate.
    by apply Hth in Hi.
Qed.

Lemma run_nothing_to_read (sched : list action) :
  forall (r r' : Reader) (tr : list event),
    Inv_own 0 cs cd r -> nothing_to_read r -> AClose ∉ sched ->
    run object sched r = Some (tr, r') ->
    Inv_own 0 cs cd r' /\ nothing_to_read r' /\ tr = [].
Proof.
  induction sched as [|a sched IH]; intros r r' tr Hown Hn Hclose Hrun;
    simpl in Hrun.
  - by simplify_eq.
  - destruct (step object a r) as [[evs r1]|] eqn:Hstep; [|discriminate].
    destruct (run object sched r1) as [[evs' r2]|] eqn:Hrun'; [|discriminate].
    simplify_eq. apply not_elem_of_cons in Hclose as [Ha Hclose].
    assert (a <> AClose) as Ha' by congruence.
    destruct (step_nothing_to_read a r r1 evs Hown Hn Ha' Hstep) as [Hn1 ->].
    apply (IH r1); try done. by eapply (step_Inv_own object).
Qed.

(** X4: on an object of size 0, with (goroutines + 1) * chunk size
    <= 2^63 - 1 (the defaults applied), as long as Close is not called, no
    Read ever returns or panics and no range request is made: the only
    event of the session is the run of initFunc, and in every state that
    can be reached the pending Read cannot leave curChunk. *)
Theorem empty_object_Read_blocks (sched : list action) (tr : list event)
    (r : Reader) :
  AClose ∉ sched ->
  run object sched (NewReader 0 cs cd) = Some (tr, r) ->
  (forall ev, ev ∈ tr -> ev = EvInit)
  /\ (forall via_done, step object (AReturn via_done) r = None).
Proof.
  revert tr r.
  assert (forall sched r r' tr,
            untouched 0 cs cd r -> canceled r = false -> AClose ∉ sched ->
            run object sched r = Some (tr, r') ->
            (untouched 0 cs cd r' /\ canceled r' = false /\ tr = [])
            \/ (Inv_own 0 cs cd r' /\ nothing_to_read r' /\ tr = [EvInit]))
    as Hrun.
  { clear sched. induction sched as [|a sched IH];
      intros r r' tr Hr Hx Hclose Hrun; simpl in Hrun.
    - simplify_eq. by left.
    - destruct (step object a r) as [[evs r1]|] eqn:Hstep; [|discriminate].
      destruct (run object sched r1) as [[evs' r2]|] eqn:Hrun';
        [|discriminate].
      simplify_eq. apply not_elem_of_cons in Hclose as [Ha Hclose].
      destruct (step_first _ _ _ _ _ _ _ _ Hr Hstep)
        as [[Hr1 ->]|(plen & -> & ->)].
      + apply (IH r1); try done.
        destruct a; try done; destruct Hr as [-> | ->]; discriminate.
      + right.
        destruct (run_nothing_to_read sched
                    (set_caller (InRead plen) (set_init true (initFunc r)))
                    r' evs') as (Hown & Hn & ->); try done.
        * by apply Inv_own_first.
        * rewrite initFunc_eq. unfold nothing_to_read. simpl.
          assert (chunks r = ∅ /\ err r = None /\ threads r = [])
            as (-> & -> & ->) by (destruct Hr as [-> | ->]; done).
          repeat (split; [done|]). simpl.
          intros i g Hi. apply lookup_replicate in Hi as [-> _]. done. }
  intros tr r Hclose Hrun'.
  destruct (Hrun sched _ r tr (or_introl eq_refl) eq_refl Hclose Hrun')
    as [(Hr & Hx & ->)|(Hown & (Hc & He & Hx & _) & ->)].
  - split; [intros ev Hin; by apply elem_of_nil in Hin|].
    intros vd. destruct Hr as [-> | ->]; reflexivity.
  - split; [intros ev Hin; by apply list_elem_of_singleton in Hin|].
    intros vd. simpl. destruct (caller r); try done.
    unfold curChunk, getErr. rewrite Hc, He, Hx, lookup_empty.
    by destruct vd.
Qed.

End Empty.

(* ---------------- what a Read returns ---------------- *)

Section Contract.
Variables (object : bytes) (cs cd : Z).
Local Abbreviation size := (Z.of_nat (length object)).
Hypothesis Hfits : fits size cs cd.

Lemma Buffer_Read_length (b : bytes) (plen : nat) :
  let '(p, rest, e) := Buffer_Read b plen in
  (length p <= plen)%nat /\ p ++ rest = b /\ (e <> None -> p = [])
  /\ (e = None \/ e = Some ErrEOF).
Proof.
  destruct b as [|x b].
  - destruct plen; simpl; (split; [lia|]); (split; [done|]);
      (split; [done|auto]).
  - unfold Buffer_Read. split; [rewrite length_take; lia|].
    split; [by rewrite take_drop|]. split; [done|by left].
Qed.

Lemma Read_returns (r : Reader) (out : bytes) (plen : nat) (via_done : bool)
    (chunk : option nat) (e : option error) :
  Inv_own size cs cd r -> Inv_data object size out r ->
  caller r = InRead plen ->
  curChunk via_done r = Some (chunk, e) ->
  (exists p e' r', step object (AReturn via_done) r
                   = Some ([EvReturn p e'], r')
      /\ (length p <= plen)%nat /\ (e' <> None -> p = []))
  \/ (exists r', step object (AReturn via_done) r
                 = Some ([EvPanic "close of closed channel"], r')
        /\ closed (chbuf r) = true /\ read r = size).
Proof.
  intros Hown Hdat Hcaller Hcur.
  destruct (Inv_own_wid _ _ _ Hfits r Hown)
    as (Hcs & Hcs1 & Hsz & Hw0 & Hmax & Hwid1 & Hrid1).
  destruct (own_init _ _ _ _ Hown) as (Hinit & Hnthreads & Hnheap & Hcap & _).
  pose proof (dat_read _ _ _ _ Hdat) as Hread.
  simpl. rewrite Hcaller, Hcur. unfold Read_finish.
  destruct e as [e|].
  { left. exists [], (Some e). eexists. split; [reflexivity|].
    split; [simpl; lia|done]. }
  assert (via_done = false /\ chunk = chunks r !! chrid r) as [-> ->].
  { unfold curChunk, getErr in Hcur. destruct via_done.
    - destruct (canceled r); discriminate.
    - destruct (chunks r !! chrid r), (err r); by simplify_eq. }
  destruct (chunks r !! chrid r) as [b|] eqn:Hb.
  2: { unfold curChunk, getErr in Hcur. rewrite Hb in Hcur.
       destruct (err r); discriminate. }
  pose proof (dat_current _ _ _ _ Hdat) as Hc. rewrite Hb in Hc.
  destruct Hc as (content & Hcontent & Hprefix). simpl.
  rewrite Hcontent. simpl.
  pose proof (Buffer_Read_length content plen) as Hbuf.
  destruct (Buffer_Read content plen) as [[p rest] e].
  destruct Hbuf as (Hlen & Hcat & Hnil & He).
  assert (read r + Z.of_nat (length content) <= size) as Hroom.
  { pose proof (dat_out _ _ _ _ Hdat) as Hout.
    assert (length (out ++ content) <= length object)%nat as Hle
      by (rewrite Hprefix, length_take; lia).
    rewrite length_app, Hout, length_take in Hle. lia. }
  assert (length p <= length content)%nat as Hp
    by (rewrite <- Hcat, length_app; lia).
  rewrite wrap64_id by (destruct Hfits; unfold is_int64, min_int64, max_int64 in *;
                        pose proof (workers_pos (NewReader size cs cd));
                        pose proof (chunk_size_pos (NewReader size cs cd)); nia).
  destruct He as [-> | ->].
  { left. exists p, None. eexists. split; [reflexivity|]. by split. }
  rewrite (Hnil ltac:(done)). simpl. rewrite Z.add_0_r, Hsz.
  case_bool_decide as Hend.
  - destruct (closed (chbuf r)) eqn:Hclosed.
    + right. eexists. split; [reflexivity|]. split; [done|lia].
    + left. exists [], (Some ErrEOF). eexists. split; [reflexivity|].
      split; [simpl; lia|done].
  - destruct (closed (chbuf r)) eqn:Hclosed.
    { pose proof (dat_closed _ _ _ _ Hdat Hclosed). lia. }
    rewrite bool_decide_eq_true_2.
    + left. exists [], None. eexists. split; [reflexivity|].
      split; [simpl; lia|done].
    + pose proof (NoDup_bounded_length _ _ (own_nodup _ _ _ _ Hown)
                    (own_valid _ _ _ _ Hown)) as Hlen'.
      unfold owned in Hlen'. rewrite !length_app in Hlen'.
      pose proof (unconsumed_buf r (chrid r) b Hb (Z.le_refl _)) as Hin.
      destruct (map_to_list (unconsumed r)).*2 as [|? ?];
        [by apply elem_of_nil in Hin|].
      simpl in Hlen'. lia.
Qed.

(** X5: in every state that a session on an object of S bytes
    (r.size = S) whose sizes fit an int64 (S + (goroutines + 1) * chunk size
    <= 2^63 - 1, the defaults applied) can reach, a Read whose curChunk has
    returned completes without blocking on r.chbuf: it returns at most
    len(p) bytes, and a non-nil error only with no bytes; or it panics, and
    then by closing r.chbuf a second time, all S bytes having been read. *)
Theorem Read_contract (sched : list action) (tr : list event) (r : Reader)
    (plen : nat) (via_done : bool) (chunk : option nat) (e : option error) :
  run object sched (NewReader size cs cd) = Some (tr, r) ->
  caller r = InRead plen ->
  curChunk via_done r = Some (chunk, e) ->
  (exists p e' r', step object (AReturn via_done) r
                   = Some ([EvReturn p e'], r')
      /\ (length p <= plen)%nat /\ (e' <> None -> p = []))
  \/ (exists r', step object (AReturn via_done) r
                 = Some ([EvPanic "close of closed channel"], r')
        /\ closed (chbuf r) = true /\ read r = size).
Proof.
  intros Hrun Hcaller Hcur.
  destruct (run_new_Inv_data object cs cd Hfits sched _ r tr
              (or_introl eq_refl) Hrun) as [[Hr _]|[Hown Hdat]].
  - destruct Hr as [-> | ->]; discriminate.
  - by eapply Read_returns.
Qed.

End Contract.

Lemma fits_5_2_2 : fits 5 2 2.
Proof. split; vm_compute; discriminate. Qed.

Lemma delivered_is_prefix_witness :
  exists tr r,
    run five_bytes failed_session (NewReader 5 2 2) = Some (tr, r)
    /\ delivered tr = take (Z.to_nat (read r)) five_bytes.
Proof.
  destruct (run five_bytes failed_session (NewReader 5 2 2))
    as [[tr r]|] eqn:Hrun; [|vm_compute in Hrun; discriminate].
  exists tr, r. split; [reflexivity|].
  by apply (delivered_is_prefix five_bytes 2 2 fits_5_2_2 failed_session).
Defined.

Lemma buffers_not_shared_witness :
  exists tr r,
    run five_bytes failed_session (NewReader 5 2 2) = Some (tr, r)
    /\ NoDup (queue (chbuf r)).
Proof.
  destruct (run five_bytes failed_session (NewReader 5 2 2))
    as [[tr r]|] eqn:Hrun; [|vm_compute in Hrun; discriminate].
  exists tr, r. split; [reflexivity|].
  by apply (buffers_not_shared five_bytes 5 2 2 fits_5_2_2 failed_session tr).
Defined.

Lemma requests_disjoint_witness :
  exists tr r,
    run five_bytes failed_session (NewReader 5 2 2) = Some (tr, r)
    /\ NoDup (requests tr).*1.
Proof.
  destruct (run five_bytes failed_session (NewReader 5 2 2))
    as [[tr r]|] eqn:Hrun; [|vm_compute in Hrun; discriminate].
  exists tr, r. split; [reflexivity|].
  by apply (requests_disjoint five_bytes 2 2 fits_5_2_2 failed_session tr r).
Defined.

Lemma empty_object_Read_blocks_witness :
  exists tr r,
    run [] [ARead 1; ATake 0; AClaim 0] (NewReader 0 1 1) = Some (tr, r)
    /\ step [] (AReturn false) r = None.
Proof.
  destruct (run [] [ARead 1; ATake 0; AClaim 0] (NewReader 0 1 1))
    as [[tr r]|] eqn:Hrun; [|vm_compute in Hrun; discriminate].
  exists tr, r. split; [reflexivity|].
  apply (empty_object_Read_blocks [] 1 1) in Hrun as [_ Hblock].
  - apply Hblock.
  - split; vm_compute; discriminate.
  - intros Hin. repeat (apply elem_of_cons in Hin as [Hin|Hin];
                        [discriminate|]).
    by apply elem_of_nil in Hin.
Defined.

Lemma Read_contract_witness :
  exists tr r,
    run five_bytes chunk0_stored (NewReader 5 2 2) = Some (tr, r)
    /\ ((exists p e' r', step five_bytes (AReturn false) r
                         = Some ([EvReturn p e'], r')
           /\ (length p <= 3)%nat /\ (e' <> None -> p = []))
        \/ (exists r', step five_bytes (AReturn false) r
                       = Some ([EvPanic "close of closed channel"], r')
              /\ closed (chbuf r) = true /\ read r = 5)).
Proof.
  destruct (run five_bytes chunk0_stored (NewReader 5 2 2))
    as [[tr r]|] eqn:Hrun; [|vm_compute in Hrun; discriminate].
  exists tr, r. split; [reflexivity|].
  apply (Read_contract five_bytes 2 2 fits_5_2_2 chunk0_stored tr r 3 false
           (Some 0%nat) None Hrun).
  - vm_compute in Hrun. by injection Hrun as _ <-.
  - vm_compute in Hrun. by injection Hrun as _ <-.
Defined.

(* ---------------- copyContext ---------------- *)

Lemma copy_block_Buffer (dst : bytes) (n : Z) (data : bytes) :
  copy_block dst (wrap64 n) data
  = inr (dst ++ data, wrap64 (n + Z.of_nat (length data))).
Proof.
  unfold copy_block, Write, Buffer_Write. cbv zeta.
  case_bool_decide as Hnr.
  - rewrite bool_decide_eq_false_2 by (intros Hne; by apply Hne).
    by rewrite wrap64_add.
  - destruct data; simpl in *; [|lia]. by rewrite app_nil_r, Z.add_0_r.
Qed.

(* What the loop does to a bytes.Buffer, whatever way it ends. *)
Lemma copyContext_loop_Buffer (src : list (bytes * option error)) :
  forall (alive : option nat) (dst : bytes) (n : Z) (dst' : bytes)
         (written : Z) (err : option error),
    copyContext_loop alive src dst (wrap64 n) = Some (dst', (written, err)) ->
    exists k,
      (k <= length src)%nat
      /\ dst' = dst ++ read_bytes k src
      /\ written = wrap64 (n + Z.of_nat (length (read_bytes k src)))
      /\ Forall (fun de => de.2 = None) (take (pred k) src)
      /\ ((alive = Some k /\ err = Some ErrCanceled
           /\ Forall (fun de => de.2 = None) (take k src))
          \/ (outlives alive (pred k)
              /\ exists data e, (k <> 0)%nat
                   /\ src !! pred k = Some (data, Some e)
                   /\ err = if decide (e = ErrEOF) then None else Some e)).
Proof.
  induction src as [|[data er] src IH];
    intros alive dst n dst' written err Hloop.
  - destruct alive as [[|a]|]; simpl in Hloop; try discriminate.
    injection Hloop as <- <- <-. exists 0%nat. unfold read_bytes. simpl.
    rewrite app_nil_r, Z.add_0_r. repeat (split; [done|]).
    left. repeat (split; [done|]). constructor.
  - destruct alive as [[|a]|].
    + simpl in Hloop. injection Hloop as <- <- <-. exists 0%nat.
      unfold read_bytes. simpl. rewrite app_nil_r, Z.add_0_r.
      split; [lia|]. repeat (split; [done|]).
      left. repeat (split; [done|]). constructor.
    + simpl in Hloop. rewrite copy_block_Buffer in Hloop.
      destruct er as [e|].
      * exists 1%nat. unfold read_bytes. simpl. rewrite app_nil_r.
        split; [lia|].
        assert (dst' = dst ++ data
                /\ written = wrap64 (n + Z.of_nat (length data))
                /\ err = if decide (e = ErrEOF) then None else Some e)
          as (-> & -> & ->).
        { destruct e; simpl in Hloop; injection Hloop as <- <- <-;
            repeat split; by destruct (decide _). }
        split; [done|]. split; [done|]. split; [constructor|].
        right. split; [simpl; lia|]. exists data; exists e.
        split; [done|]. by split.
      * apply IH in Hloop
          as (k & Hk & -> & -> & Hnone & Hend).
        exists (S k). unfold read_bytes in *. csimpl.
        split; [lia|]. split; [by rewrite app_assoc|].
        split; [f_equal; rewrite length_app; lia|].
        split.
        { destruct k; simpl; [constructor|]. by constructor. }
        destruct Hend as [(Ha & -> & Hall)|(Hout & d & e & Hk0 & Hlk & ->)].
        -- left. simpl in Ha. injection Ha as ->.
           repeat (split; [done|]). by constructor.
        -- right. split.
           { simpl in *. destruct k; [done|]. simpl in *. lia. }
           exists d; exists e. split; [done|]. split; [|done].
           destruct k; [done|]. done.
    + simpl in Hloop. rewrite copy_block_Buffer in Hloop.
      destruct er as [e|].
      * exists 1%nat. unfold read_bytes. simpl. rewrite app_nil_r.
        split; [lia|].
        assert (dst' = dst ++ data
                /\ written = wrap64 (n + Z.of_nat (length data))
                /\ err = if decide (e = ErrEOF) then None else Some e)
          as (-> & -> & ->).
        { destruct e; simpl in Hloop; injection Hloop as <- <- <-;
            repeat split; by destruct (decide _). }
        split; [done|]. split; [done|]. split; [constructor|].
        right. split; [done|]. exists data; exists e.
        split; [done|]. by split.
      * apply IH in Hloop
          as (k & Hk & -> & -> & Hnone & Hend).
        exists (S k). unfold read_bytes in *. csimpl.
        split; [lia|]. split; [by rewrite app_assoc|].
        split; [f_equal; rewrite length_app; lia|].
        split.
        { destruct k; simpl; [constructor|]. by constructor. }
        destruct Hend as [(Ha & -> & Hall)|(Hout & d & e & Hk0 & Hlk & ->)].
        -- discriminate.
        -- right. split; [done|].
           exists d; exists e. split; [done|]. split; [|done].
           destruct k; [done|]. done.
Qed.

Lemma copyContext_loop_copies (chunks : list bytes) :
  forall (alive : option nat) (dst : bytes) (n : Z) (last : bytes)
         (rest : list (bytes * option error)),
    outlives alive (length chunks) ->
    copyContext_loop alive
      (((fun d => (d, None)) <$> chunks) ++ (last, Some ErrEOF) :: rest)
      dst (wrap64 n)
    = Some (dst ++ concat chunks ++ last,
            (wrap64 (n + Z.of_nat (length (concat chunks ++ last))), None)).
Proof.
  induction chunks as [|d chunks IH]; intros alive dst n last rest Halive.
  - destruct alive as [[|a]|]; simpl in *; try lia;
      by rewrite copy_block_Buffer.
  - destruct alive as [[|a]|]; simpl in Halive; try lia; csimpl;
      rewrite copy_block_Buffer; simpl.
    + rewrite IH by (simpl; lia). rewrite <- !app_assoc.
      do 4 f_equal. rewrite !length_app. lia.
    + rewrite IH by done. rewrite <- !app_assoc.
      do 4 f_equal. rewrite !length_app. lia.
Qed.

(** X6: copyContext into a bytes.Buffer, from a source whose reads give
    any chunks of bytes with a nil error and then a last chunk with io.EOF,
    under a context that is not canceled before: the buffer gains exactly
    the bytes of all chunks in order, written is their count (as an
    int64), and the error is nil, however the source cuts its bytes into
    chunks. *)
Theorem copyContext_copies (chunks : list bytes) (last : bytes)
    (rest : list (bytes * option error)) (alive : option nat)
    (dst : bytes) :
  outlives alive (length chunks) ->
  copyContext alive dst
    (((fun d => (d, None)) <$> chunks) ++ (last, Some ErrEOF) :: rest)
  = Some (dst ++ concat chunks ++ last,
          (wrap64 (Z.of_nat (length (concat chunks ++ last))), None)).
Proof.
  intros Halive. unfold copyContext. rewrite <- wrap64_0 at 1.
  by rewrite copyContext_loop_copies.
Qed.

(** X7: whenever copyContext into a bytes.Buffer returns, the buffer
    has gained exactly the bytes of the first k reads of the source, for
    some k, and written is their count (as an int64); the reads before the
    last one had a nil error; and either the context was canceled after k
    reads and the error is the context's, or read k returned an error,
    which is returned, nil standing for io.EOF.  copyContext never returns
    io.EOF. *)
Theorem copyContext_accounting (alive : option nat) (dst dst' : bytes)
    (src : list (bytes * option error)) (written : Z) (err : option error) :
  copyContext alive dst src = Some (dst', (written, err)) ->
  err <> Some ErrEOF
  /\ exists k,
       (k <= length src)%nat
       /\ dst' = dst ++ read_bytes k src
       /\ written = wrap64 (Z.of_nat (length (read_bytes k src)))
       /\ Forall (fun de => de.2 = None) (take (pred k) src)
       /\ ((alive = Some k /\ err = Some ErrCanceled)
           \/ (outlives alive (pred k)
               /\ exists data e, (k <> 0)%nat
                    /\ src !! pred k = Some (data, Some e)
                    /\ err = if decide (e = ErrEOF) then None else Some e)).
Proof.
  unfold copyContext. rewrite <- wrap64_0 at 1. intros Hloop.
  apply copyContext_loop_Buffer in Hloop
    as (k & Hk & -> & -> & Hnone & Hend).
  split.
  - destruct Hend as [(_ & -> & _)|(_ & d & e & _ & _ & ->)]; [done|].
    destruct (decide (e = ErrEOF)); congruence.
  - exists k. split; [done|]. split; [done|]. split; [done|].
    split; [done|].
    destruct Hend as [(Ha & He & _)|Hend]; [by left|by right].
Qed.

Lemma copyContext_loop_canceled (src : list (bytes * option error)) :
  forall (k : nat) (dst : bytes) (n : Z),
    (k <= length src)%nat -> Forall (fun de => de.2 = None) (take k src) ->
    copyContext_loop (Some k) src dst (wrap64 n)
    = Some (dst ++ read_bytes k src,
            (wrap64 (n + Z.of_nat (length (read_bytes k src))),
             Some ErrCanceled)).
Proof.
  induction src as [|[data er] src IH]; intros k dst n Hk Hall.
  - destruct k; simpl in Hk; [|lia]. unfold read_bytes. simpl.
    by rewrite app_nil_r, Z.add_0_r.
  - destruct k as [|k].
    + unfold read_bytes. simpl. by rewrite app_nil_r, Z.add_0_r.
    + simpl in Hall. apply Forall_cons in Hall as [Her Hall].
      simpl in Her. subst er. simpl. rewrite copy_block_Buffer. simpl.
      rewrite IH by (simpl in Hk; done || lia).
      unfold read_bytes. csimpl. rewrite <- !app_assoc.
      do 4 f_equal. rewrite !length_app. lia.
Qed.

(** X8: when the context is canceled after k reads that returned a nil
    error, copyContext has copied exactly the bytes of these k reads and
    returns their count and the context's error; with k = 0 nothing is read
    or written. *)
Theorem copyContext_canceled (k : nat) (dst : bytes)
    (src : list (bytes * option error)) :
  (k <= length src)%nat -> Forall (fun de => de.2 = None) (take k src) ->
  copyContext (Some k) dst src
  = Some (dst ++ read_bytes k src,
          (wrap64 (Z.of_nat (length (read_bytes k src))), Some ErrCanceled)).
Proof.
  intros Hk Hall. unfold copyContext. rewrite <- wrap64_0 at 1.
  by rewrite copyContext_loop_canceled.
Qed.

Lemma copyContext_copies_witness :
  copyContext None [x09] [([x01; x02], None); ([], None); ([x03], Some ErrEOF)]
  = Some ([x09; x01; x02; x03], (3, None)).
Proof.
  exact (copyContext_copies [[x01; x02]; []] [x03] [] None [x09] I).
Defined.

Lemma copyContext_accounting_witness :
  exists k,
    (k <= 2)%nat
    /\ [x09; x01; x02; x03]
       = [x09] ++ read_bytes k [([x01; x02], None);
                                ([x03], Some (ErrOther "reset"))]
    /\ 3 = wrap64 (Z.of_nat (length
             (read_bytes k [([x01; x02], None);
                            ([x03], Some (ErrOther "reset"))]))).
Proof.
  destruct (copyContext_accounting None [x09] [x09; x01; x02; x03]
              [([x01; x02], None); ([x03], Some (ErrOther "reset"))]
              3 (Some (ErrOther "reset")) eq_refl)
    as (_ & k & Hk & Hdst & Hw & _).
  exists k. split; [exact Hk|]. split; [exact Hdst|exact Hw].
Defined.

Lemma copyContext_canceled_witness :
  copyContext (Some 1%nat) [x09] [([x01; x02], None); ([x03], Some ErrEOF)]
  = Some ([x09; x01; x02], (2, Some ErrCanceled)).
Proof.
  apply (copyContext_canceled 1 [x09]
           [([x01; x02], None); ([x03], Some ErrEOF)]).
  - simpl. lia.
  - repeat constructor.
Defined.

(* ---------------- the Range headers of a Reader ---------------- *)

Section Range.
Variables (object : bytes) (cs cd : Z).
Local Abbreviation size := (Z.of_nat (length object)).
Hypothesis Hfits : fits size cs cd.

(** X20: for every range request a Reader makes in a session on an
    object of S bytes (r.size = S) whose sizes fit an int64
    (S + (goroutines + 1) * chunk size <= 2^63 - 1, the defaults applied),
    the Range header that DownloadFileByName computes by mkRange is the
    closed range bytes=offset-(offset+size-1), never the empty header of a
    whole-file request nor the open-ended bytes=offset-, and the range lies
    inside the object. *)
Theorem Reader_range_headers (sched : list action) (tr : list event)
    (r : Reader) (offset sz : Z) :
  run object sched (NewReader size cs cd) = Some (tr, r) ->
  (offset, sz) ∈ requests tr ->
  mkRange offset sz
  = "bytes=" +:+ fmt_d offset +:+ "-" +:+ fmt_d (offset + sz - 1)
  /\ 0 <= offset <= offset + sz - 1 /\ offset + sz - 1 < size.
Proof.
  intros Hrun Hin.
  destruct (run_new_Inv_req object cs cd Hfits sched _ r tr
              (or_introl eq_refl) Hrun) as [[_ ->]|[Hown [Hc _]]];
    [by apply elem_of_nil in Hin|].
  destruct (Hc offset sz Hin) as (k & Hk & Ho & Hs & H1 & H2 & _).
  destruct (Inv_own_wid _ _ _ Hfits r Hown) as (_ & Hcs1 & _).
  assert (0 <= offset) by nia.
  split; [|lia].
  destruct Hfits as [_ Hmax].
  pose proof (workers_pos (NewReader size cs cd)).
  pose proof (chunk_size_pos (NewReader size cs cd)).
  unfold mkRange.
  rewrite (bool_decide_eq_false_2 (sz = 0)) by lia.
  rewrite andb_false_r.
  rewrite (wrap64_id (offset + sz)), wrap64_id;
    unfold is_int64, min_int64, max_int64 in *; (done || nia).
Qed.
End Range.

Lemma Reader_range_headers_witness :
  exists tr r,
    run five_bytes failed_session (NewReader 5 2 2) = Some (tr, r)
    /\ mkRange 2 2 = "bytes=2-3".
Proof.
  destruct (run five_bytes failed_session (NewReader 5 2 2))
    as [[tr r]|] eqn:Hrun; [|vm_compute in Hrun; discriminate].
  exists tr, r. split; [reflexivity|].
  apply (Reader_range_headers five_bytes 2 2 fits_5_2_2 failed_session tr r
           2 2 Hrun).
  vm_compute in Hrun. injection Hrun as <- _. simpl. set_solver.
Defined.

End B2Facts.
